(** * pyipm: a line-search primal-dual interior-point solver

    Shallow embedding of [src/pyipm.py] (class [IPM]) and the properties
    of its optimisation kernel.

    Numbers.  The program computes in IEEE floating point ([float_dtype]);
    here every scalar is a real number ([R]), so rounding, overflow and
    NaN are outside the model and [float_dtype(.)] casts are the identity.
    numpy vectors are [list R]; two-dimensional arrays are lists of rows.
    Elementwise numpy operations are only ever applied by the program to
    operands of equal shape; the model pairs entries positionally.

    Effects.  Python exceptions and the three unbounded [while] loops are
    made explicit by the result type [res]: [Ok v] is a normal return,
    [Raise e] an exception reaching the caller, and [OutOfFuel] says the
    supplied loop budget was too small to see the loop finish. *)

From Stdlib Require Import Reals Lra Lia List Bool Arith ZArith.
Import ListNotations.
Local Open Scope R_scope.

(* ------------------------------------------------------------------ *)
(** ** Results of fallible computations *)

Inductive exn : Type :=
| AttributeError
| UnboundLocalError
| LinAlgError
| ValueError
| AssertionError.

Inductive res (A : Type) : Type :=
| Ok (a : A)
| Raise (e : exn)
| OutOfFuel.

Arguments Ok {A} a.
Arguments Raise {A} e.
Arguments OutOfFuel {A}.

Definition bind {A B : Type} (m : res A) (k : A -> res B) : res B :=
  match m with
  | Ok a => k a
  | Raise e => Raise e
  | OutOfFuel => OutOfFuel
  end.

Notation "x <- m ;; k" := (bind m (fun x => k))
  (at level 61, m at next level, right associativity).
Notation "' p <- m ;; k" := (bind m (fun p => k))
  (at level 61, p pattern, m at next level, right associativity).

(* ------------------------------------------------------------------ *)
(** ** Scalars, vectors and matrices *)

Definition vec : Type := list R.
Definition matrix : Type := list vec.

Definition Rleb (x y : R) : bool := if Rle_dec x y then true else false.
Definition Rltb (x y : R) : bool := if Rlt_dec x y then true else false.

Fixpoint zipWith {A B C : Type} (g : A -> B -> C) (u : list A) (v : list B)
  : list C :=
  match u, v with
  | a :: u', b :: v' => g a b :: zipWith g u' v'
  | _, _ => []
  end.

Definition vadd (u v : vec) : vec := zipWith Rplus u v.
Definition vsub (u v : vec) : vec := zipWith Rminus u v.
Definition vmul (u v : vec) : vec := zipWith Rmult u v.
Definition vscale (a : R) (v : vec) : vec := map (Rmult a) v.
Definition vneg (v : vec) : vec := map Ropp v.
Definition vsum (v : vec) : R := fold_right Rplus 0 v.
Definition dot (u v : vec) : R := vsum (vmul u v).
Definition zeros (n : nat) : vec := repeat 0 n.

(** [v[a:b]] *)
Definition slice (a b : nat) (v : vec) : vec := firstn (b - a) (skipn a v).

(** [np.sum(np.abs(v))] *)
Definition norm1 (v : vec) : R := vsum (map Rabs v).
(** [np.linalg.norm(v)] on a one-dimensional array *)
Definition norm2 (v : vec) : R := sqrt (dot v v).

(** [np.dot(A, v)] for a two-dimensional [A]: one inner product per row. *)
Definition mat_vec (A : matrix) (v : vec) : vec := map (fun r => dot r v) A.

Definition positive (v : vec) : Prop := Forall (fun a => 0 < a) v.

(* ------------------------------------------------------------------ *)
(** ** The solver object

    [Args] are the keyword arguments of [IPM.__init__] that the kernel
    reads; [IPM] holds the attributes [__init__] stores.  [lbfgs] is an
    integer memory size, [0] standing for [False].  An attribute that may
    be missing from the object is an [option]. *)

Record Args : Type := mkArgs {
  a_eps : R;                 (* np.finfo(float_dtype).eps *)
  a_mu : R;
  a_nu : R;
  a_rho : R;
  a_tau : R;
  a_eta : R;
  a_beta : R;
  a_miter : nat;
  a_niter : nat;
  a_Xtol : option R;
  a_Ktol : R;
  a_lbfgs : nat;
  a_lbfgs_zeta : option R;
  a_verbosity : Z
}.

Record IPM : Type := mkIPM {
  eps : R;
  mu : R;
  nu : R;
  rho : R;
  tau : R;
  eta : R;
  beta : R;
  miter : nat;
  niter : nat;
  Xtol : R;
  Ktol : R;
  reg_coef : R;
  lbfgs : nat;
  lbfgs_zeta : option R;
  lbfgs_fail_max : nat;
  verbosity : Z;
  delta0 : R
}.

(** [if Xtol:] is false for [None] and for [0.0]. *)
Definition truthy_R (o : option R) : option R :=
  match o with
  | Some t => if Req_dec_T t 0 then None else Some t
  | None => None
  end.

Definition init (a : Args) : IPM :=
  {| eps := a_eps a;
     mu := a_mu a;
     nu := a_nu a;
     rho := a_rho a;
     tau := a_tau a;
     eta := a_eta a;
     beta := a_beta a;
     miter := a_miter a;
     niter := a_niter a;
     Xtol := match truthy_R (a_Xtol a) with
             | Some t => t
             | None => a_eps a
             end;
     Ktol := a_Ktol a;
     reg_coef := sqrt (a_eps a);
     lbfgs := a_lbfgs a;
     lbfgs_zeta := match a_lbfgs a, a_lbfgs_zeta a with
                   | S _, None => Some 1
                   | _, _ => None
                   end;
     lbfgs_fail_max := a_lbfgs a;
     verbosity := a_verbosity a;
     delta0 := sqrt (a_eps a) |}.

(* ------------------------------------------------------------------ *)
(** ** Fraction-to-boundary step: [IPM.step] *)

Definition GOLD : R := (sqrt 5 + 1) / 2.

(** [np.all(x + a*dx >= (1.0-self.tau)*x)] *)
Definition all_ge (self : IPM) (x dx : vec) (a : R) : bool :=
  forallb (fun p => Rleb ((1 - tau self) * fst p) (fst p + a * snd p))
          (combine x dx).

(** [np.any(x + a*dx < (1.0-self.tau)*x)] *)
Definition any_lt (self : IPM) (x dx : vec) (a : R) : bool :=
  existsb (fun p => Rltb (fst p + a * snd p) ((1 - tau self) * fst p))
          (combine x dx).

(** The [while] loop of [step]; [c] and [d] are the two probe points. *)
Fixpoint step_loop (self : IPM) (fuel : nat) (x dx : vec) (a b c d : R)
  : res R :=
  if Rltb (GOLD * Xtol self) (Rabs (b - a)) then
    match fuel with
    | O => OutOfFuel
    | S fuel' =>
        let '(a1, b1) := if any_lt self x dx d then (a, d) else (d, b) in
        let '(a2, b2) :=
          if Rltb a1 c
          then (if any_lt self x dx c then (a1, c) else (c, b1))
          else (a1, b1) in
        step_loop self fuel' x dx a2 b2
                  (b2 - (b2 - a2) / GOLD) (a2 + (b2 - a2) / GOLD)
    end
  else Ok a.

Definition step (self : IPM) (fuel : nat) (x dx : vec) : res R :=
  let a := 0 in
  let b := 1 in
  if all_ge self x dx b then Ok b
  else step_loop self fuel x dx a b (b - (b - a) / GOLD) (a + (b - a) / GOLD).

(** The fraction-to-boundary bound [p + a*dp >= (1-tau)*p], entrywise. *)
Definition Admissible (self : IPM) (p dp : vec) (a : R) : Prop :=
  Forall (fun q => (1 - tau self) * fst q <= fst q + a * snd q)
         (combine p dp).

(* ------------------------------------------------------------------ *)
(** ** The problem and its compiled expressions

    [Problem] bundles what the symbolic front end supplies: the sizes
    D = [nvar], M = [neq], N = [nineq], the objective, the constraints and
    their derivatives.  [dce x] and [dci x] are the D x M and D x N
    constraint Jacobians, [d2L x lda] the D x D Hessian of the Lagrangian;
    for an empty constraint set the Jacobian has D empty rows.  [nvar] is
    the size of the starting point, as [solve] sets it.
    The definitions that follow are the expressions built by
    [IPM.validate_and_compile]; [mu_dev] and [nu_dev] are the two shared
    device variables the expressions read. *)

Record Problem : Type := mkProblem {
  nvar : nat;
  neq : nat;
  nineq : nat;
  f : vec -> R;
  df : vec -> vec;
  ce : vec -> vec;
  ci : vec -> vec;
  dce : vec -> matrix;
  dci : vec -> matrix;
  d2L : vec -> vec -> matrix
}.

(** Python truth value of an integer. *)
Definition truthy (n : nat) : bool := negb (Nat.eqb n 0).

(** [T.set_subtensor(g[a:b], v)] with [v] of length [b - a]. *)
Definition set_subtensor (a b : nat) (v g : vec) : vec :=
  firstn a g ++ v ++ skipn b g.

(** [c / (s + eps)], entrywise in [s]. *)
Definition div_shift (self : IPM) (c : R) (s : vec) : vec :=
  map (fun si => c / (si + eps self)) s.

(** [grad]: the stacked residual of size D + 2N + M, assembled by
    [set_subtensor] into a zero vector in the order primal, slack,
    equality, inequality. *)
Definition grad (self : IPM) (P : Problem) (mu_dev : R) (x s lda : vec)
  : vec :=
  let D := nvar P in
  let M := neq P in
  let N := nineq P in
  let g0 := zeros (D + 2 * N + M) in
  let g1 :=
    if truthy M && truthy N then
      set_subtensor 0 D
        (vsub (vsub (df P x) (mat_vec (dce P x) (firstn M lda)))
              (mat_vec (dci P x) (skipn M lda))) g0
    else if truthy M then
      set_subtensor 0 D (vsub (df P x) (mat_vec (dce P x) lda)) g0
    else if truthy N then
      set_subtensor 0 D (vsub (df P x) (mat_vec (dci P x) lda)) g0
    else
      set_subtensor 0 D (df P x) g0 in
  let g2 :=
    if truthy N then
      let g := set_subtensor D (D + N)
                 (vsub (skipn M lda) (div_shift self mu_dev s)) g1 in
      set_subtensor (D + N + M) (length g) (vsub (ci P x) s) g
    else g1 in
  if truthy M then set_subtensor (D + N) (D + N + M) (ce P x) g2 else g2.

(** [con]: all constraints, equalities first. *)
Definition con (P : Problem) (x s : vec) : vec :=
  let M := neq P in
  let N := nineq P in
  let c0 := zeros (M + N) in
  let c1 := if truthy M then set_subtensor 0 M (ce P x) c0 else c0 in
  if truthy N then set_subtensor M (length c1) (vsub (ci P x) s) c1 else c1.

(** [phi]: the merit function. *)
Definition phi (P : Problem) (mu_dev nu_dev : R) (x s : vec) : R :=
  let p0 := f P x in
  let p1 :=
    if truthy (nineq P) then
      p0 - mu_dev * vsum (map ln s) + nu_dev * norm1 (vsub (ci P x) s)
    else p0 in
  if truthy (neq P) then p1 + nu_dev * norm1 (ce P x) else p1.

(** [dphi]: the directional derivative of the merit function along [dz]. *)
Definition dphi (self : IPM) (P : Problem) (mu_dev nu_dev : R)
           (x s dz : vec) : R :=
  let D := nvar P in
  let d0 := dot (df P x) (firstn D dz) in
  let d1 :=
    if truthy (neq P) && truthy (nineq P) then
      d0 - (nu_dev * norm1 (ce P x) + nu_dev * norm1 (vsub (ci P x) s))
    else if truthy (neq P) then d0 - nu_dev * norm1 (ce P x)
    else if truthy (nineq P) then d0 - nu_dev * norm1 (vsub (ci P x) s)
    else d0 in
  if truthy (nineq P)
  then d1 - dot (div_shift self mu_dev s) (skipn D dz)
  else d1.

(** [barrier_cost_grad]: gradient of the objective plus the barrier. *)
Definition barrier_cost_grad (self : IPM) (P : Problem) (mu_dev : R)
           (x s : vec) : vec :=
  let D := nvar P in
  let N := nineq P in
  let b0 := set_subtensor 0 D (df P x) (zeros (D + N)) in
  if truthy N
  then set_subtensor D (length b0) (vneg (div_shift self mu_dev s)) b0
  else b0.

(* ------------------------------------------------------------------ *)
(** ** First-order conditions: [IPM.KKT] *)

(** A returned block is a numpy array or the scalar [float_dtype(0.0)]. *)
Inductive block : Type :=
| Arr (v : vec)
| Scal (c : R).

Definition KKT (self : IPM) (P : Problem) (mu_dev : R) (x s lda : vec)
  : list block :=
  let D := nvar P in
  let M := neq P in
  let N := nineq P in
  let kkts := grad self P mu_dev x s lda in
  if truthy M && truthy N then
    [ Arr (slice 0 D kkts);
      Arr (vmul (slice D (D + N) kkts) s);
      Arr (slice (D + N) (D + N + M) kkts);
      Arr (skipn (D + N + M) kkts) ]
  else if truthy M then
    [ Arr (slice 0 D kkts);
      Scal 0;
      Arr (slice (D + N) (D + N + M) kkts);
      Scal 0 ]
  else if truthy N then
    [ Arr (slice 0 D kkts);
      Arr (vmul (slice D (D + N) kkts) s);
      Scal 0;
      Arr (skipn (D + N + M) kkts) ]
  else
    [ Arr (slice 0 D kkts); Scal 0; Scal 0; Scal 0 ].

(** The oracle returns arrays of the sizes the problem declares. *)
Definition well_shaped (P : Problem) (x : vec) : Prop :=
  length (df P x) = nvar P /\
  length (dce P x) = nvar P /\
  length (dci P x) = nvar P /\
  length (ce P x) = neq P /\
  length (ci P x) = nineq P.

(** The primal, slack and inequality residuals of section 4.2; the
    equality residual is [ce P x]. *)
Definition primal_block (P : Problem) (x lda : vec) : vec :=
  vsub (vsub (df P x) (mat_vec (dce P x) (firstn (neq P) lda)))
       (mat_vec (dci P x) (skipn (neq P) lda)).

Definition slack_block (self : IPM) (P : Problem) (mu_dev : R) (s lda : vec)
  : vec :=
  vsub (skipn (neq P) lda) (div_shift self mu_dev s).

Definition ineq_block (P : Problem) (x s : vec) : vec := vsub (ci P x) s.

(** The four residual blocks written out directly.  [slack_term mu s] is
    the vector subtracted from the inequality multipliers in block 2. *)
Definition kkt_blocks (P : Problem) (slack_term : vec) (x s lda : vec)
  : list block :=
  let M := neq P in
  let N := nineq P in
  [ Arr (vsub (vsub (df P x) (mat_vec (dce P x) (firstn M lda)))
              (mat_vec (dci P x) (skipn M lda)));
    if truthy N then Arr (vmul (vsub (skipn M lda) slack_term) s)
    else Scal 0;
    if truthy M then Arr (ce P x) else Scal 0;
    if truthy N then Arr (vsub (ci P x) s) else Scal 0 ].

(** Block 2 as the specification words it: [(lda[M:] - mu/s) * s]. *)
Definition KKT_spec (P : Problem) (mu_dev : R) (x s lda : vec) : list block :=
  kkt_blocks P (map (fun si => mu_dev / si) s) x s lda.

(** Block 2 as the compiled gradient has it: [(lda[M:] - mu/(s+eps)) * s]. *)
Definition KKT_shifted (self : IPM) (P : Problem) (mu_dev : R)
           (x s lda : vec) : list block :=
  kkt_blocks P (div_shift self mu_dev s) x s lda.

(* ------------------------------------------------------------------ *)
(** ** L-BFGS storage: [IPM.lbfgs_init] and [IPM.lbfgs_update]

    The five storage arrays are two-dimensional: [Smat] and [Ymat] have
    one row per variable and one column per stored pair, [SS], [Lmat] and
    [Dmat] are square of that column count. *)

Record LBFGS : Type := mkLBFGS {
  zeta : R;
  Smat : matrix;
  Ymat : matrix;
  SS : matrix;
  Lmat : matrix;
  Dmat : matrix;
  lbfgs_fail : nat
}.

(** [A.shape[1]] *)
Definition ncols (A : matrix) : nat :=
  match A with
  | [] => 0%nat
  | r :: _ => length r
  end.

(** The last column of [A], [A[:,-1]]. *)
Definition last_col (A : matrix) : vec := map (fun r => last r 0) A.

(** [A[:,:-1] = A[:,1:]]: columns move one place left, the last stays. *)
Definition shift_cols (A : matrix) : matrix :=
  map (fun r => match r with
                | [] => []
                | _ :: t => t ++ [last r 0]
                end) A.

(** [A[:-1,:-1] = A[1:,1:]]: the trailing principal block moves up and
    left; the last row and the last column keep their entries. *)
Definition shift_diag (A : matrix) : matrix :=
  match A with
  | [] => []
  | _ :: below =>
      zipWith (fun r rnext => tl rnext ++ [last r 0]) (removelast A) below
      ++ [last A []]
  end.

(** [np.concatenate([A, zeros((rows,1))], axis=1)] *)
Definition append_zero_col (A : matrix) : matrix := map (fun r => r ++ [0]) A.

(** Growing a square array by a zero row, then by a zero column. *)
Definition expand_square (lsize : nat) (A : matrix) : matrix :=
  append_zero_col (A ++ [zeros (lsize - 1)]).

(** [A[:,-1] = v] *)
Definition set_last_col (A : matrix) (v : vec) : matrix :=
  zipWith (fun r a => removelast r ++ [a]) A v.

(** [A[-1,:] = v] *)
Definition set_last_row (A : matrix) (v : vec) : matrix :=
  removelast A ++ [v].

(** [A[-1,-1] = c] *)
Definition set_last_entry (A : matrix) (c : R) : matrix :=
  removelast A ++ [removelast (last A []) ++ [c]].

(** [np.dot(A.T, v)]: the inner product of every column of [A] with [v]. *)
Definition matT_vec (A : matrix) (v : vec) : vec :=
  fold_right (fun rv acc => vadd (vscale (snd rv) (fst rv)) acc)
             (zeros (ncols A)) (combine A v).

Definition lbfgs_init (self : IPM) (P : Problem) : res LBFGS :=
  match lbfgs_zeta self with
  | None => Raise AttributeError
  | Some z =>
      Ok {| zeta := z;
            Smat := repeat [] (nvar P);
            Ymat := repeat [] (nvar P);
            SS := [];
            Lmat := [];
            Dmat := [];
            lbfgs_fail := 0 |}
  end.

Definition constrained (P : Problem) : bool :=
  truthy (neq P) || truthy (nineq P).

(** [zeta_new] of [lbfgs_update]. *)
Definition zeta_new (self : IPM) (P : Problem) (dx dg : vec) : R :=
  if constrained P
  then dot dg dx / (dot dx dx + eps self)
  else dot dg dx / (dot dg dg + eps self).

(** The acceptance test of [lbfgs_update]. *)
Definition curvature_ok (self : IPM) (P : Problem) (dx dg : vec) : bool :=
  Rltb (sqrt (eps self)) (dot dx dg)
  && Rltb (sqrt (eps self)) (zeta_new self P dx dg).

Definition lbfgs_update (self : IPM) (P : Problem)
           (x_old x_new g_old g_new : vec) (lb : LBFGS) : res LBFGS :=
  let dx := vsub x_new x_old in
  let dg := vsub (firstn (nvar P) g_old) (firstn (nvar P) g_new) in
  let lb1 :=
    if curvature_ok self P dx dg then
      let '(S1, Y1, SS1, L1, D1) :=
        if Nat.ltb (lbfgs self) (ncols (Smat lb)) then
          (shift_cols (Smat lb), shift_cols (Ymat lb),
           shift_diag (SS lb), shift_diag (Lmat lb), shift_diag (Dmat lb))
        else
          let lsize := (ncols (Smat lb) + 1)%nat in
          (append_zero_col (Smat lb), append_zero_col (Ymat lb),
           expand_square lsize (SS lb), expand_square lsize (Lmat lb),
           expand_square lsize (Dmat lb)) in
      let S2 := set_last_col S1 dx in
      let Y2 := set_last_col Y1 dg in
      let SS_update :=
        if constrained P then matT_vec S2 dx else matT_vec Y2 dg in
      let SS2 := set_last_row (set_last_col SS1 SS_update) SS_update in
      let L2 :=
        if constrained P
        then set_last_entry (set_last_row L1 (matT_vec Y2 dx)) 0
        else set_last_col L1 (matT_vec S2 dg) in
      let D2 := set_last_entry D1 (dot dx dg) in
      {| zeta := zeta_new self P dx dg;
         Smat := S2; Ymat := Y2; SS := SS2; Lmat := L2; Dmat := D2;
         lbfgs_fail := 0 |}
    else
      {| zeta := zeta lb;
         Smat := Smat lb; Ymat := Ymat lb; SS := SS lb;
         Lmat := Lmat lb; Dmat := Dmat lb;
         lbfgs_fail := S (lbfgs_fail lb) |} in
  if Nat.ltb (lbfgs_fail_max self) (lbfgs_fail lb1)
     && Nat.ltb 0 (ncols (Smat lb1))
  then lbfgs_init self P
  else Ok lb1.

(** The pair [(dx, dg)] is the most recent stored pair of [lb]. *)
Definition committed (dx dg : vec) (lb : LBFGS) : Prop :=
  lbfgs_fail lb = 0%nat /\
  (0 < ncols (Smat lb))%nat /\
  last_col (Smat lb) = dx /\
  last_col (Ymat lb) = dg.

(** The small arrays of [lb] carry the products of the newest pair: the
    last row of [SS], the last diagonal entry of [Dmat] and, in constrained
    mode, the last row of the strictly lower triangular [Lmat]. *)
Definition products_stored (P : Problem) (dx dg : vec) (lb : LBFGS) : Prop :=
  last (SS lb) []
  = (if constrained P then matT_vec (Smat lb) dx else matT_vec (Ymat lb) dg) /\
  last (last (Dmat lb) []) 0 = dot dx dg /\
  (constrained P = true ->
   last (Lmat lb) [] = removelast (matT_vec (Ymat lb) dx) ++ [0]).

(** The storage with one more recorded failure and nothing else changed. *)
Definition rejected (lb : LBFGS) : LBFGS :=
  {| zeta := zeta lb;
     Smat := Smat lb; Ymat := Ymat lb; SS := SS lb;
     Lmat := Lmat lb; Dmat := Dmat lb;
     lbfgs_fail := S (lbfgs_fail lb) |}.

(* ------------------------------------------------------------------ *)
(** ** The linear-algebra kernel

    The dense routines the solver calls are external.  [eigh] returns all
    eigenvalues of a symmetric matrix, [sym_solve A b] solves [A z = b] and
    is [None] when the routine raises, [lstsq A b] is the minimum-norm
    least-squares solution, [pinv_dot J g] is [pinv(J).g], and [lbfgs_dir]
    stands for the compact L-BFGS direction of [IPM.lbfgs_dir], whose
    arithmetic consists of calls to the same routines and which raises
    when one of them does. *)

Record LinAlg : Type := mkLinAlg {
  eigh : matrix -> vec;
  sym_solve : matrix -> vec -> option vec;
  lstsq : matrix -> vec -> vec;
  pinv_dot : matrix -> vec -> vec;
  lbfgs_dir : vec -> vec -> vec -> vec -> R -> matrix -> matrix ->
                     matrix -> matrix -> matrix -> option vec
}.

(** [np.min(v)] and [np.max(v)]; both raise on an empty array. *)
Definition np_min (v : vec) : res R :=
  match v with
  | [] => Raise ValueError
  | a :: t => Ok (fold_left Rmin t a)
  end.

Definition np_max (v : vec) : res R :=
  match v with
  | [] => Raise ValueError
  | a :: t => Ok (fold_left Rmax t a)
  end.

(** [x ** y] for a base that is never negative in the program. *)
Definition power (x y : R) : R :=
  if Req_dec_T x 0 then (if Req_dec_T y 0 then 1 else 0) else Rpower x y.

(* ------------------------------------------------------------------ *)
(** ** The symmetric KKT matrix: [hess] of [validate_and_compile] *)

Definition entry (A : matrix) (i j : nat) : R := nth j (nth i A []) 0.

Definition mk_matrix (n : nat) (g : nat -> nat -> R) : matrix :=
  map (fun i => map (g i) (seq 0 n)) (seq 0 n).

(** The blocks written by the [set_subtensor] calls, upper triangle only. *)
Definition hess_upper (self : IPM) (P : Problem) (x s lda : vec)
           (i j : nat) : R :=
  let D := nvar P in
  let M := neq P in
  let N := nineq P in
  if Nat.ltb i D then
    if Nat.ltb j D then
      (if Nat.leb i j then entry (d2L P x lda) i j else 0)
    else if Nat.ltb j (D + N) then 0
    else if Nat.ltb j (D + N + M) then entry (dce P x) i (j - (D + N))
    else entry (dci P x) i (j - (D + N + M))
  else if Nat.ltb i (D + N) then
    if Nat.ltb j D then 0
    else if Nat.ltb j (D + N) then
      (if Nat.eqb i j
       then nth (M + (i - D)) lda 0 / (nth (i - D) s 0 + eps self)
       else 0)
    else if Nat.ltb j (D + N + M) then 0
    else (if Nat.eqb (j - (D + N + M)) (i - D) then -1 else 0)
  else 0.

(** [triu(hess) + triu(hess).T - diag(diagonal(hess)/2)] *)
Definition hess (self : IPM) (P : Problem) (x s lda : vec) : matrix :=
  let n := (nvar P + 2 * nineq P + neq P)%nat in
  mk_matrix n (fun i j =>
    hess_upper self P x s lda (Nat.min i j) (Nat.max i j)).

(* ------------------------------------------------------------------ *)
(** ** Inertia-correcting regularisation: [IPM.reghess] *)

(** [r[i] += c] *)
Definition add_at (i : nat) (c : R) (r : vec) : vec :=
  firstn i r ++ match skipn i r with
                | [] => []
                | a :: t => (a + c) :: t
                end.

Fixpoint add_diag_from (i lo hi : nat) (c : R) (A : matrix) : matrix :=
  match A with
  | [] => []
  | r :: A' =>
      (if Nat.leb lo i && Nat.ltb i hi then add_at i c r else r)
      :: add_diag_from (S i) lo hi c A'
  end.

(** [A[lo:hi, lo:hi] += c * np.eye(hi - lo)] *)
Definition add_diag (lo hi : nat) (c : R) (A : matrix) : matrix :=
  add_diag_from 0 lo hi c A.

(** [np.sum(w < -self.eps)] *)
Definition count_below (self : IPM) (w : vec) : nat :=
  length (filter (fun a => Rltb a (- eps self)) w).

(** The [while] loop of [reghess]: raise [delta] tenfold until the count
    of eigenvalues below [-eps] is M + N. *)
Fixpoint reghess_loop (self : IPM) (P : Problem) (LA : LinAlg) (fuel : nat)
         (Hc : matrix) (delta : R) : res (matrix * R) :=
  if Nat.eqb (neq P + nineq P) (count_below self (eigh LA Hc))
  then Ok (Hc, delta)
  else
    match fuel with
    | O => OutOfFuel
    | S fuel' =>
        let Hc1 := add_diag 0 (nvar P) (- delta) Hc in
        let delta' := delta * 10 in
        let Hc2 := add_diag 0 (nvar P) delta' Hc1 in
        reghess_loop self P LA fuel' Hc2 delta'
    end.

(** [reghess] reads [self.mu_host] and reads and writes [self.delta]; the
    model takes both as arguments and returns the new [delta]. *)
Definition reghess (self : IPM) (P : Problem) (LA : LinAlg) (fuel : nat)
           (mu_host delta : R) (Hc : matrix) : res (matrix * R) :=
  let w := eigh LA Hc in
  lo <- np_min (map Rabs w) ;;
  hi <- np_max (map Rabs w) ;;
  let rcond := lo / hi in
  if Rleb rcond (eps self)
     || negb (Nat.eqb (neq P + nineq P) (count_below self w))
  then
    let Hc1 :=
      if Rleb rcond (eps self) && truthy (neq P) then
        let ind1 := (nvar P + nineq P)%nat in
        let ind2 := (ind1 + neq P)%nat in
        add_diag ind1 ind2
                 (- (reg_coef self * eta self * power mu_host (beta self)))
                 Hc
      else Hc in
    let delta1 :=
      if Req_dec_T delta 0 then delta0 self
      else Rmax (delta / 2) (delta0 self) in
    let Hc2 := add_diag 0 (nvar P) delta1 Hc1 in
    reghess_loop self P LA fuel Hc2 delta1
  else Ok (Hc, delta).

(** Inertia of a spectrum: the numbers of positive, negative and zero
    eigenvalues. *)
Definition inertia (w : vec) : nat * nat * nat :=
  (length (filter (fun a => Rltb 0 a) w),
   length (filter (fun a => Rltb a 0) w),
   length (filter (fun a => if Req_dec_T a 0 then true else false) w)).

(* ------------------------------------------------------------------ *)
(** ** The constraint Jacobian: [jaco] of [validate_and_compile] *)

Definition mk_rect (rows cols : nat) (g : nat -> nat -> R) : matrix :=
  map (fun i => map (g i) (seq 0 cols)) (seq 0 rows).

(** [jaco]: (D+N) x (M+N), with [dce] and [dci] on top and [-eye(N)] in
    the lower right corner. *)
Definition jaco (P : Problem) (x : vec) : matrix :=
  let D := nvar P in
  let M := neq P in
  let N := nineq P in
  mk_rect (D + N) (M + N) (fun i j =>
    if Nat.ltb i D then
      (if Nat.ltb j M then entry (dce P x) i j
       else entry (dci P x) i (j - M))
    else
      (if Nat.ltb j M then 0
       else if Nat.eqb (j - M) (i - D) then -1 else 0)).

(** [A.T] for an array of shape [rows] x [cols]. *)
Definition transpose (rows cols : nat) (A : matrix) : matrix :=
  mk_rect cols rows (fun i j => entry A j i).

(* ------------------------------------------------------------------ *)
(** ** Backtracking line search: [IPM.search] *)

(** The body of the [try] in the correction path: reshape [c_new] to
    [size] entries, solve, reshape the solution to D + N entries.  Either
    reshape raises when the sizes differ, the solver may raise as well;
    [None] is any of these. *)
Definition try_sym_solve (P : Problem) (LA : LinAlg) (size : nat)
           (A : matrix) (c_new : vec) : option vec :=
  if Nat.eqb (length c_new) size then
    match sym_solve LA A c_new with
    | Some v =>
        if Nat.eqb (length v) (nvar P + nineq P) then Some v else None
    | None => None
    end
  else None.

(** [dz_p]: the [try] / [except] of the correction path. *)
Definition correction_dir (P : Problem) (LA : LinAlg) (size : nat)
           (A : matrix) (c_new : vec) : vec :=
  match try_sym_solve P LA size A c_new with
  | Some v => vneg v
  | None => vneg (lstsq LA A c_new)
  end.

(** The [while] loop scaling both step lengths by [tau] until the Armijo
    test [merit alpha <= phi0 + alpha*eta*dphi0] passes. *)
Fixpoint backtrack (self : IPM) (fuel : nat) (merit : R -> R)
         (phi0 dphi0 : R) (alpha_smax alpha_lmax : R) : res (R * R) :=
  if Rltb (phi0 + alpha_smax * eta self * dphi0) (merit alpha_smax) then
    match fuel with
    | O => OutOfFuel
    | S fuel' =>
        backtrack self fuel' merit phi0 dphi0
                  (alpha_smax * tau self) (alpha_lmax * tau self)
    end
  else Ok (alpha_smax, alpha_lmax).

Definition search (self : IPM) (P : Problem) (LA : LinAlg) (fuel : nat)
           (mu_dev nu_dev : R) (x0 s0 lda0 dz : vec)
           (alpha_smax alpha_lmax : R) : res (vec * vec * vec) :=
  let D := nvar P in
  let N := nineq P in
  let dx := firstn D dz in
  let ds := slice D (D + N) dz in
  let dl := skipn (D + N) dz in
  let alpha_lmax := if constrained P then alpha_lmax else 0 in
  let phi_ := phi P mu_dev nu_dev in
  let phi0 := phi_ x0 s0 in
  let dphi0 := dphi self P mu_dev nu_dev x0 s0 (firstn (D + N) dz) in
  let armijo := phi0 + alpha_smax * eta self * dphi0 in
  if truthy N then
    let merit :=
      fun a => phi_ (vadd x0 (vscale a dx)) (vadd s0 (vscale a ds)) in
    (* [Some (dz_p, alpha_corr)] when a second-order correction is accepted *)
    corr <-
      (if Rltb armijo (merit alpha_smax) then
         let c_old := con P x0 s0 in
         let c_new := con P (vadd x0 (vscale alpha_smax dx))
                            (vadd s0 (vscale alpha_smax ds)) in
         if Rltb (norm1 c_old) (norm1 c_new) then
           let A := transpose (D + N) (neq P + N) (jaco P x0) in
           let dz_p := correction_dir P LA (D + N) A c_new in
           let px := vadd (vscale alpha_smax dx) (firstn D dz_p) in
           let ps := vadd (vscale alpha_smax ds) (skipn D dz_p) in
           if Rleb (phi_ (vadd (vadd x0 (vscale alpha_smax dx))
                               (firstn D dz_p))
                         (vadd (vadd s0 (vscale alpha_smax ds))
                               (skipn D dz_p)))
                   armijo then
             alpha_corr <- step self fuel s0 ps ;;
             if Rleb (phi_ (vadd x0 (vscale alpha_corr px))
                           (vadd s0 (vscale alpha_corr ps)))
                     (phi0 + alpha_corr * eta self
                             * dphi self P mu_dev nu_dev x0 s0
                                 (vadd (vscale alpha_smax (dx ++ ds)) dz_p))
             then Ok (Some (dz_p, alpha_corr))
             else Ok None
           else Ok None
         else Ok None
       else Ok None) ;;
    match corr with
    | Some (dz_p, alpha_corr) =>
        let px := vadd (vscale alpha_smax dx) (firstn D dz_p) in
        let ps := vadd (vscale alpha_smax ds) (skipn D dz_p) in
        Ok (vadd x0 (vscale alpha_corr px),
            vadd s0 (vscale alpha_corr ps),
            vadd lda0 (vscale alpha_lmax dl))
    | None =>
        ' (a, al) <-
          (if Rltb armijo (merit alpha_smax)
           then backtrack self fuel merit phi0 dphi0
                          (alpha_smax * tau self) (alpha_lmax * tau self)
           else Ok (alpha_smax, alpha_lmax)) ;;
        Ok (vadd x0 (vscale a dx),
            vadd s0 (vscale a ds),
            vadd lda0 (vscale al dl))
    end
  else
    let merit := fun a => phi_ (vadd x0 (vscale a dx)) s0 in
    let corr :=
      if Rltb armijo (merit alpha_smax) then
        if truthy (neq P) then
          let c_old := con P x0 s0 in
          let c_new := con P (vadd x0 (vscale alpha_smax dx)) s0 in
          if Rltb (norm1 c_old) (norm1 c_new) then
            let A := transpose (D + N) (neq P + N) (jaco P x0) in
            let dz_p := correction_dir P LA (D * N * 1) A c_new in
            if Rleb (phi_ (vadd (vadd x0 (vscale alpha_smax dx)) dz_p) s0)
                    armijo
            then Some (dz_p, 1)
            else None
          else None
        else None
      else None in
    match corr with
    | Some (dz_p, alpha_corr) =>
        let px := vadd (vscale alpha_smax dx) (firstn D dz_p) in
        Ok (vadd x0 (vscale alpha_corr px),
            s0,
            if constrained P then vadd lda0 (vscale alpha_lmax dl) else lda0)
    | None =>
        ' (a, al) <-
          (if Rltb armijo (merit alpha_smax)
           then backtrack self fuel merit phi0 dphi0
                          (alpha_smax * tau self) (alpha_lmax * tau self)
           else Ok (alpha_smax, alpha_lmax)) ;;
        Ok (vadd x0 (vscale a dx),
            s0,
            if constrained P then vadd lda0 (vscale al dl) else lda0)
    end.

(* ------------------------------------------------------------------ *)
(** ** The driver: [IPM.solve]

    The model follows the first [solve] call on an object, which compiles
    the expressions on entry; from then on every assignment to
    [self.mu_host] or [self.nu_host] is mirrored into the device variable
    by [set_value], so one field stands for each pair.  [outer_var] and
    [inner_var] are the Python loop variables, unbound ([None]) until
    their [for] statement assigns them.  [trail] is a ghost history, most
    recent first, of the iterate after every update. *)

Record Snapshot : Type := mkSnapshot {
  sn_x : vec;
  sn_s : vec;
  sn_lda : vec;
  sn_mu : R;
  sn_nu : R
}.

Record State : Type := mkState {
  x : vec;
  s : vec;
  lda : vec;
  kkt : list block;
  mu_host : R;
  nu_host : R;
  delta : R;
  lb : option LBFGS;
  x_old : vec;
  g : vec;
  iter_count : nat;
  outer_var : option nat;
  inner_var : option nat;
  trail : list Snapshot
}.

Definition snapshot (st : State) : Snapshot :=
  {| sn_x := x st; sn_s := s st; sn_lda := lda st;
     sn_mu := mu_host st; sn_nu := nu_host st |}.

(** [np.linalg.norm] of a returned block. *)
Definition block_norm (b : block) : R :=
  match b with
  | Arr v => norm2 v
  | Scal c => sqrt (c * c)
  end.

(** All four block norms are at most [tol]. *)
Definition kkt_within (tol : R) (k : list block) : bool :=
  Rleb (block_norm (nth 0 k (Scal 0))) tol
  && Rleb (block_norm (nth 1 k (Scal 0))) tol
  && Rleb (block_norm (nth 2 k (Scal 0))) tol
  && Rleb (block_norm (nth 3 k (Scal 0))) tol.

(** [init_slack]: the larger of [ci(x)] and [Ktol], entrywise. *)
Definition init_slack (self : IPM) (P : Problem) (x : vec) : vec :=
  map (fun c => Rmax c (Ktol self)) (ci P x).

(** [init_lambda]: [pinv] of the constraint Jacobian applied to [df]. *)
Definition init_lambda (P : Problem) (LA : LinAlg) (x : vec) : vec :=
  let J :=
    if truthy (neq P) && truthy (nineq P)
    then zipWith (@app R) (dce P x) (dci P x)
    else if truthy (neq P) then dce P x
    else dci P x in
  pinv_dot LA J (df P x).

(** [v[v < 0] = Ktol] *)
Definition clip_negative (self : IPM) (v : vec) : vec :=
  map (fun a => if Rltb a 0 then Ktol self else a) v.

(** Ghost: push the current iterate on the trail. *)
Definition record (st : State) : State :=
  {| x := x st; s := s st; lda := lda st; kkt := kkt st;
     mu_host := mu_host st; nu_host := nu_host st; delta := delta st;
     lb := lb st; x_old := x_old st; g := g st;
     iter_count := iter_count st;
     outer_var := outer_var st; inner_var := inner_var st;
     trail := snapshot st :: trail st |}.

(** The statements of [solve] before the outer loop. *)
Definition solve_init (self : IPM) (P : Problem) (LA : LinAlg)
           (x0 : vec) (s0 lda0 : option vec) : res State :=
  if Nat.eqb (length x0) 0 then Raise AssertionError else
  let x := x0 in
  let s :=
    if truthy (nineq P) then
      match s0 with
      | None => init_slack self P x
      | Some s0 => s0
      end
    else [] in
  let mu_host := if truthy (nineq P) then mu self else Ktol self in
  let lda :=
    if constrained P then
      match lda0 with
      | None =>
          let l := init_lambda P LA x in
          if truthy (nineq P) && truthy (neq P) then
            firstn (neq P) l ++ clip_negative self (skipn (neq P) l)
          else if truthy (nineq P) then clip_negative self l
          else l
      | Some l => l
      end
    else [] in
  let kkt := KKT self P mu_host x s lda in
  lbs <-
    (if truthy (lbfgs self)
     then lb0 <- lbfgs_init self P ;; Ok (Some lb0)
     else Ok None) ;;
  let st :=
    {| x := x; s := s; lda := lda; kkt := kkt;
       mu_host := mu_host; nu_host := nu self; delta := 0;
       lb := lbs;
       x_old := if truthy (lbfgs self) then x else [];
       g := if truthy (lbfgs self)
            then vneg (grad self P mu_host x s lda) else [];
       iter_count := 0; outer_var := None; inner_var := None;
       trail := [] |} in
  Ok (record st).

(** [for outer in ...] and [for inner in ...] binding their variable. *)
Definition bind_outer (outer : nat) (st : State) : State :=
  {| x := x st; s := s st; lda := lda st; kkt := kkt st;
     mu_host := mu_host st; nu_host := nu_host st; delta := delta st;
     lb := lb st; x_old := x_old st; g := g st;
     iter_count := iter_count st;
     outer_var := Some outer; inner_var := inner_var st;
     trail := trail st |}.

Definition bind_inner (inner : nat) (st : State) : State :=
  {| x := x st; s := s st; lda := lda st; kkt := kkt st;
     mu_host := mu_host st; nu_host := nu_host st; delta := delta st;
     lb := lb st; x_old := x_old st; g := g st;
     iter_count := iter_count st;
     outer_var := outer_var st; inner_var := Some inner;
     trail := trail st |}.

(** The search direction of one inner iteration, with the updated
    regularisation offset and L-BFGS data: lines 1109-1120.  In L-BFGS
    mode the storage is there since [solve_init]; the [None] branch only
    completes the match. *)
Definition direction (self : IPM) (P : Problem) (LA : LinAlg) (fuel : nat)
           (outer inner : nat) (st : State)
  : res (vec * R * option LBFGS * vec * vec) :=
  if truthy (lbfgs self) then
    match lb st with
    | None => Raise AttributeError
    | Some lb0 =>
        ' (lb1, x_old1, g1) <-
          (if Nat.ltb 0 inner || Nat.ltb 0 outer then
             let g_old := vneg (grad self P (mu_host st)
                                     (x_old st) (s st) (lda st)) in
             let g_new := vneg (grad self P (mu_host st)
                                     (x st) (s st) (lda st)) in
             lb1 <- lbfgs_update self P (x_old st) (x st) g_old g_new lb0 ;;
             Ok (lb1, x st, g_new)
           else Ok (lb0, x_old st, g st)) ;;
        match lbfgs_dir LA (x st) (s st) (lda st) g1 (zeta lb1)
                (Smat lb1) (Ymat lb1) (SS lb1) (Lmat lb1) (Dmat lb1) with
        | Some dz => Ok (dz, delta st, Some lb1, x_old1, g1)
        | None => Raise LinAlgError
        end
    end
  else
    let g1 := vneg (grad self P (mu_host st) (x st) (s st) (lda st)) in
    ' (Hc, delta1) <-
      reghess self P LA fuel (mu_host st) (delta st)
              (hess self P (x st) (s st) (lda st)) ;;
    match sym_solve LA Hc g1 with
    | Some dz => Ok (dz, delta1, lb st, x_old st, g1)
    | None => Raise LinAlgError
    end.

(** One pass through the body of the inner loop: lines 1109-1146. *)
Definition inner_body (self : IPM) (P : Problem) (LA : LinAlg) (fuel : nat)
           (outer inner : nat) (st : State) : res State :=
  let D := nvar P in
  let M := neq P in
  let N := nineq P in
  ' (dz0, delta1, lb1, x_old1, g1) <-
    direction self P LA fuel outer inner st ;;
  let dz :=
    if constrained P
    then firstn (D + N) dz0 ++ vneg (skipn (D + N) dz0)
    else dz0 in
  let nu1 :=
    if constrained P then
      let nu_thres :=
        dot (barrier_cost_grad self P (mu_host st) (x st) (s st))
            (firstn (D + N) dz)
        / (1 - rho self) / norm1 (con P (x st) (s st)) in
      if Rltb (nu_host st) nu_thres then nu_thres else nu_host st
    else nu_host st in
  ' (x1, s1, lda1) <-
    (if truthy N then
       alpha_smax <- step self fuel (s st) (slice D (D + N) dz) ;;
       alpha_lmax <- step self fuel (skipn M (lda st))
                          (skipn (D + N + M) dz) ;;
       search self P LA fuel (mu_host st) nu1 (x st) (s st) (lda st) dz
              alpha_smax alpha_lmax
     else
       search self P LA fuel (mu_host st) nu1 (x st) (s st) (lda st) dz
              1 1) ;;
  Ok (record
        {| x := x1; s := s1; lda := lda1;
           kkt := KKT self P (mu_host st) x1 s1 lda1;
           mu_host := mu_host st; nu_host := nu1; delta := delta1;
           lb := lb1; x_old := x_old1; g := g1;
           iter_count := S (iter_count st);
           outer_var := outer_var st; inner_var := inner_var st;
           trail := trail st |}).

(** [for inner in range(self.miter)], with [k] passes left. *)
Fixpoint inner_loop (self : IPM) (P : Problem) (LA : LinAlg) (fuel : nat)
         (outer : nat) (k inner : nat) (st : State) : res State :=
  match k with
  | O => Ok st
  | S k' =>
      let st1 := bind_inner inner st in
      let muTol := Rmax (Ktol self) (mu_host st1) in
      if kkt_within muTol (kkt st1) then Ok st1
      else
        st2 <- inner_body self P LA fuel outer inner st1 ;;
        inner_loop self P LA fuel outer k' (S inner) st2
  end.

(** The barrier update closing an outer iteration: lines 1160-1166.
    [mu_formula] is the value assigned at line 1162, given the minimum
    [lo] of the complementarity products. *)
Definition mu_formula (self : IPM) (P : Problem) (lo : R) (s lda : vec) : R :=
  let N := INR (nineq P) in
  let comp := dot s (skipn (neq P) lda) in
  let xi := N * lo / (comp + eps self) in
  1 / 10 * Rmin (5 / 100 * (1 - xi) / (xi + eps self)) 2 ^ 3 * comp / N.

Definition set_mu (m : R) (st : State) : State :=
  {| x := x st; s := s st; lda := lda st; kkt := kkt st;
     mu_host := m; nu_host := nu_host st; delta := delta st;
     lb := lb st; x_old := x_old st; g := g st;
     iter_count := iter_count st;
     outer_var := outer_var st; inner_var := inner_var st;
     trail := trail st |}.

Definition mu_update (self : IPM) (P : Problem) (st : State) : res State :=
  if truthy (nineq P) then
    lo <- np_min (vmul (s st) (skipn (neq P) (lda st))) ;;
    let m := mu_formula self P lo (s st) (lda st) in
    let m := if Rltb m 0 then 0 else m in
    Ok (record (set_mu m st))
  else Ok st.

(** [for outer in range(self.niter)], with [k] passes left. *)
Fixpoint outer_loop (self : IPM) (P : Problem) (LA : LinAlg) (fuel : nat)
         (k outer : nat) (st : State) : res State :=
  match k with
  | O => Ok st
  | S k' =>
      let st1 := bind_outer outer st in
      if kkt_within (Ktol self) (kkt st1) then Ok st1
      else
        st2 <- inner_loop self P LA fuel outer (miter self) 0 st1 ;;
        if Nat.leb (niter self - 1) outer then Ok st2
        else
          st3 <- mu_update self P st2 ;;
          outer_loop self P LA fuel k' (S outer) st3
  end.

(** Building the closing status message: lines 1174-1204.  With
    constraints present the message reads the loop variables [outer] and
    [inner]; reading an unbound local raises. *)
Definition report (self : IPM) (P : Problem) (st : State) : res unit :=
  if Z.leb 0 (verbosity self) then
    let '(outer, inner) :=
      if kkt_within (Ktol self) (kkt st)
      then (outer_var st, inner_var st)
      else (Some (niter self), Some 0%nat) in
    if constrained P then
      match outer, inner with
      | Some _, Some _ => Ok tt
      | _, _ => Raise UnboundLocalError
      end
    else Ok tt
  else Ok tt.

(** [solve(x0, s0, lda0)] returning [(x, s, lda, fval, kkt)]. *)
Definition solve (self : IPM) (P : Problem) (LA : LinAlg) (fuel : nat)
           (x0 : vec) (s0 lda0 : option vec)
  : res (vec * vec * vec * R * list block) :=
  st0 <- solve_init self P LA x0 s0 lda0 ;;
  st <- outer_loop self P LA fuel (niter self) 0 st0 ;;
  let fval := f P (x st) in
  _ <- report self P st ;;
  Ok (x st, s st, lda st, fval, kkt st).

(** The run of [solve] up to the end of the outer loop, with its trail. *)
Definition solve_run (self : IPM) (P : Problem) (LA : LinAlg) (fuel : nat)
           (x0 : vec) (s0 lda0 : option vec) : res State :=
  st0 <- solve_init self P LA x0 s0 lda0 ;;
  outer_loop self P LA fuel (niter self) 0 st0.

(* ------------------------------------------------------------------ *)
(** ** Properties of a run, read off the trail (newest entry first) *)




(* ------------------------------------------------------------------ *)
(** ** Concrete instances

    [default_args] are the defaults of [IPM.__init__] with
    [float_dtype = np.float32], whose machine epsilon is 2^-23. *)

Definition default_args : Args :=
  {| a_eps := / 8388608;
     a_mu := 2 / 10;
     a_nu := 10;
     a_rho := 1 / 10;
     a_tau := 995 / 1000;
     a_eta := 1 / 10000;
     a_beta := 4 / 10;
     a_miter := 20;
     a_niter := 10;
     a_Xtol := None;
     a_Ktol := 1 / 10000;
     a_lbfgs := 0;
     a_lbfgs_zeta := None;
     a_verbosity := 1%Z |}.

(** minimize x^2 subject to x >= 0: one variable, one inequality. *)
Definition bound_problem : Problem :=
  {| nvar := 1;
     neq := 0;
     nineq := 1;
     f := fun x => nth 0 x 0 * nth 0 x 0;
     df := fun x => [2 * nth 0 x 0];
     ce := fun _ => [];
     ci := fun x => [nth 0 x 0];
     dce := fun _ => [[]];
     dci := fun _ => [[1]];
     d2L := fun _ _ => [[2]] |}.

(** minimize x^2: one variable, no constraints. *)
Definition square_problem : Problem :=
  {| nvar := 1;
     neq := 0;
     nineq := 0;
     f := fun x => nth 0 x 0 * nth 0 x 0;
     df := fun x => [2 * nth 0 x 0];
     ce := fun _ => [];
     ci := fun _ => [];
     dce := fun _ => [[]];
     dci := fun _ => [[]];
     d2L := fun _ _ => [[2]] |}.

(** The defaults with L-BFGS switched on, memory 1. *)
Definition lbfgs_args : Args :=
  {| a_eps := a_eps default_args;
     a_mu := a_mu default_args;
     a_nu := a_nu default_args;
     a_rho := a_rho default_args;
     a_tau := a_tau default_args;
     a_eta := a_eta default_args;
     a_beta := a_beta default_args;
     a_miter := a_miter default_args;
     a_niter := a_niter default_args;
     a_Xtol := None;
     a_Ktol := a_Ktol default_args;
     a_lbfgs := 1;
     a_lbfgs_zeta := None;
     a_verbosity := a_verbosity default_args |}.

(** A storage holding the pair (dx, dg) = (1, 2) of [square_problem],
    after one rejected update. *)
Definition one_pair_one_failure : LBFGS :=
  {| zeta := 1 / 2;
     Smat := [[1]];
     Ymat := [[2]];
     SS := [[4]];
     Lmat := [[2]];
     Dmat := [[2]];
     lbfgs_fail := 1 |}.

(** On a diagonal matrix the eigenvalue routine returns the diagonal. *)
Definition diagonal (A : matrix) : vec :=
  map (fun i => entry A i i) (seq 0 (length A)).

Definition diag_kernel : LinAlg :=
  {| eigh := diagonal;
     sym_solve := fun _ _ => None;
     lstsq := fun _ b => b;
     pinv_dot := fun _ g => g;
     lbfgs_dir := fun _ _ _ _ _ _ _ _ _ _ => None |}.

(** minimize eps/4 * (y^2 - x^2): two variables, no constraints; its
    Hessian is diag(-eps/2, eps/2) with eps = 2^-23. *)
Definition saddle_problem : Problem :=
  {| nvar := 2;
     neq := 0;
     nineq := 0;
     f := fun x => / 8388608 / 4
                   * (nth 1 x 0 * nth 1 x 0 - nth 0 x 0 * nth 0 x 0);
     df := fun x => [- (/ 8388608 / 2) * nth 0 x 0;
                     / 8388608 / 2 * nth 1 x 0];
     ce := fun _ => [];
     ci := fun _ => [];
     dce := fun _ => [[]; []];
     dci := fun _ => [[]; []];
     d2L := fun _ _ => [[- (/ 8388608 / 2); 0]; [0; / 8388608 / 2]] |}.

(** minimize x subject to x = 0: one variable, one equality. *)
Definition pinned_problem : Problem :=
  {| nvar := 1;
     neq := 1;
     nineq := 0;
     f := fun x => nth 0 x 0;
     df := fun _ => [1];
     ce := fun x => [nth 0 x 0];
     ci := fun _ => [];
     dce := fun _ => [[1]];
     dci := fun _ => [[]];
     d2L := fun _ _ => [[0]] |}.

(** minimize x subject to 0 <= x <= 10: one variable, two inequalities. *)
Definition box_problem : Problem :=
  {| nvar := 1;
     neq := 0;
     nineq := 2;
     f := fun x => nth 0 x 0;
     df := fun _ => [1];
     ce := fun _ => [];
     ci := fun x => [nth 0 x 0; 10 - nth 0 x 0];
     dce := fun _ => [[]];
     dci := fun _ => [[1; -1]];
     d2L := fun _ _ => [[0]] |}.

(** The defaults with two outer iterations and no inner iteration. *)
Definition outer_only_args : Args :=
  {| a_eps := a_eps default_args;
     a_mu := a_mu default_args;
     a_nu := a_nu default_args;
     a_rho := a_rho default_args;
     a_tau := a_tau default_args;
     a_eta := a_eta default_args;
     a_beta := a_beta default_args;
     a_miter := 0;
     a_niter := 2;
     a_Xtol := None;
     a_Ktol := a_Ktol default_args;
     a_lbfgs := 0;
     a_lbfgs_zeta := None;
     a_verbosity := a_verbosity default_args |}.


(** The dense routines specialised to the matrix ((0, 1), (1, 0)), the
    KKT matrix of [pinned_problem]: its eigenvalues are -1 and 1 and the
    solution of [A z = b] is [b] with its two entries swapped. *)
Definition swap_kernel : LinAlg :=
  {| eigh := fun _ => [-1; 1];
     sym_solve := fun _ b => Some (rev b);
     lstsq := fun _ b => b;
     pinv_dot := fun _ g => g;
     lbfgs_dir := fun _ _ _ _ _ _ _ _ _ _ => None |}.

(** The state in which the default solver enters its first inner
    iteration on [pinned_problem] when started at x = 1 with the
    multiplier 0. *)
Definition pinned_start : State :=
  bind_inner 0
    (bind_outer 0
       (record
          {| x := [1]; s := []; lda := [0];
             kkt := KKT (init default_args) pinned_problem
                        (Ktol (init default_args)) [1] [] [0];
             mu_host := Ktol (init default_args);
             nu_host := nu (init default_args);
             delta := 0; lb := None; x_old := []; g := [];
             iter_count := 0; outer_var := None; inner_var := None;
             trail := [] |})).


(** The state in which the box problem of the run above reaches its
    barrier update: x = 1, s = (1, 1), lda = (1, 1000), mu = 0.2. *)
Definition box_start : State :=
  bind_outer 0
    (record
       {| x := [1]; s := [1; 1]; lda := [1; 1000];
          kkt := KKT (init outer_only_args) box_problem (2 / 10)
                     [1] [1; 1] [1; 1000];
          mu_host := 2 / 10; nu_host := 10; delta := 0;
          lb := None; x_old := []; g := [];
          iter_count := 0; outer_var := None; inner_var := None;
          trail := [] |}).

(** The dense routines on 1 x 1 matrices: the eigenvalue is the entry
    and [A z = b] is solved by division. *)
Definition scalar_kernel : LinAlg :=
  {| eigh := diagonal;
     sym_solve := fun A b => Some [nth 0 b 0 / entry A 0 0];
     lstsq := fun _ b => b;
     pinv_dot := fun _ g => g;
     lbfgs_dir := fun _ _ _ _ _ _ _ _ _ _ => None |}.


(** A two-dimensional array of [r] rows and [c] columns. *)
Definition has_shape (r c : nat) (A : matrix) : Prop :=
  length A = r /\ Forall (fun row => length row = c) A.

(** The shapes of the L-BFGS arrays when [c] pairs are stored. *)
Definition storage_shape (P : Problem) (c : nat) (lb : LBFGS) : Prop :=
  has_shape (nvar P) c (Smat lb) /\ has_shape (nvar P) c (Ymat lb) /\
  has_shape c c (SS lb) /\ has_shape c c (Lmat lb) /\
  has_shape c c (Dmat lb).

(* ------------------------------------------------------------------ *)
(** ** The constrained set-up of [IPM.lbfgs_dir]: lines 609-673

    Before any of its linear solves, [lbfgs_dir] decides between the
    reduced and the general formulas and, for the general ones, forms
    [BT_invA] and [BT_invA_B] and tests the conditioning of the equality
    block.  The statement regularising that block reads the name [beta],
    which is bound neither in the function nor in the module.  The
    arithmetic after the set-up is what the field [lbfgs_dir] of the
    kernel stands for. *)

(** [np.min(np.abs(w))/np.max(np.abs(w))]: the outer [None] is the
    [ValueError] of an empty array, the inner one the [nan] of 0/0, for
    which every comparison is false. *)
Definition rcond (w : vec) : option (option R) :=
  match np_min (map Rabs w), np_max (map Rabs w) with
  | Ok lo, Ok hi => Some (if Req_dec_T hi 0 then None else Some (lo / hi))
  | _, _ => None
  end.

(** [np.dot(A, B)] for two-dimensional arrays. *)
Definition mat_mul (A B : matrix) : matrix :=
  map (fun r => map (fun j => dot r (map (fun row => nth j row 0) B))
                    (seq 0 (ncols B))) A.

(** [A[:n,:n]] *)
Definition leading_block (n : nat) (A : matrix) : matrix :=
  map (firstn n) (firstn n A).

(** [BT_invA]: [B.T] with its first D columns divided by [zeta] and,
    with inequality constraints, its lower right N x N block replaced by
    [-diag(s/(lda[M:] + eps))]. *)
Definition BT_invA (self : IPM) (P : Problem) (x s lda : vec) (zeta : R)
  : matrix :=
  let D := nvar P in
  let M := neq P in
  let N := nineq P in
  let BT := transpose (D + N) (M + N) (jaco P x) in
  mk_rect (M + N) (D + N) (fun i j =>
    if truthy N && Nat.leb M i && Nat.leb D j then
      (if Nat.eqb (i - M) (j - D)
       then - (nth (i - M) s 0 / (nth i lda 0 + eps self))
       else 0)
    else if Nat.ltb j D then entry BT i j / zeta
    else entry BT i j).

Inductive dir_setup : Type :=
| Reduced                                   (* lines 628-657 follow *)
| General (BT_invA BT_invA_B : matrix)      (* lines 674-707 follow *)
| Unconstrained.                            (* lines 728-740 follow *)

Inductive setup_result : Type :=
| Proceed (d : dir_setup)
| RaiseValueError
| RaiseNameError.

(** [reduce]: the constraint Jacobian is square and well conditioned.
    [None] is the [ValueError] of an empty spectrum. *)
Definition lbfgs_dir_reduce (self : IPM) (P : Problem) (LA : LinAlg)
           (x : vec) : option bool :=
  if Nat.eqb (nvar P + nineq P) (neq P + nineq P) then
    match rcond (eigh LA (jaco P x)) with
    | Some (Some r) => Some (Rltb (eps self) r)
    | Some None => Some false
    | None => None
    end
  else Some false.

Definition lbfgs_dir_setup (self : IPM) (P : Problem) (LA : LinAlg)
           (x s lda : vec) (zeta : R) : setup_result :=
  if constrained P then
    match lbfgs_dir_reduce self P LA x with
    | None => RaiseValueError
    | Some true => Proceed Reduced
    | Some false =>
        let BTA := BT_invA self P x s lda zeta in
        let BTAB := mat_mul BTA (jaco P x) in
        if truthy (neq P) then
          match rcond (eigh LA (leading_block (neq P) BTAB)) with
          | Some (Some r) =>
              if Rleb r (eps self) then RaiseNameError
              else Proceed (General BTA BTAB)
          | Some None => Proceed (General BTA BTAB)
          | None => RaiseValueError
          end
        else Proceed (General BTA BTAB)
    end
  else Proceed Unconstrained.

(** minimize x0 subject to x0 = 0, stated twice: three variables, two
    equality constraints with the same gradient. *)
Definition twin_problem : Problem :=
  {| nvar := 3;
     neq := 2;
     nineq := 0;
     f := fun x => nth 0 x 0;
     df := fun _ => [1; 0; 0];
     ce := fun x => [nth 0 x 0; nth 0 x 0];
     ci := fun _ => [];
     dce := fun _ => [[1; 1]; [0; 0]; [0; 0]];
     dci := fun _ => [[]; []; []];
     d2L := fun _ _ => [[0; 0; 0]; [0; 0; 0]; [0; 0; 0]] |}.

(** On a symmetric 2 x 2 matrix of rank one the eigenvalues are 0 and
    the trace. *)
Definition rank_one_kernel : LinAlg :=
  {| eigh := fun A => [0; entry A 0 0 + entry A 1 1];
     sym_solve := fun _ _ => None;
     lstsq := fun _ b => b;
     pinv_dot := fun _ g => g;
     lbfgs_dir := fun _ _ _ _ _ _ _ _ _ _ => None |}.

(* ------------------------------------------------------------------ *)
(** ** The unconstrained branch of [IPM.lbfgs_dir]: lines 728-740

    Without constraints the direction is the compact representation of
    the inverse BFGS matrix applied to [g]; the arrays [SS] and [L] then
    hold [Y.T Y] and the upper triangular [R].  A failing solve raises;
    [None] stands for that. *)

(** [A + B] for two arrays of the same shape. *)
Definition mat_add (A B : matrix) : matrix := zipWith vadd A B.

Definition lbfgs_dir_unconstrained (LA : LinAlg) (g : vec) (zeta : R)
           (S Y SS L D : matrix) : option vec :=
  let m_lbfgs := ncols S in
  let Hg := vscale zeta g in
  if truthy m_lbfgs then
    let W := zipWith (@app R) S (map (vscale zeta) Y) in
    let WT_g := matT_vec W g in
    match sym_solve LA L (firstn m_lbfgs WT_g) with
    | Some b0 =>
        let B := vneg b0 in
        let LT := transpose m_lbfgs m_lbfgs L in
        match sym_solve LA LT
                        (mat_vec (mat_add D (map (vscale zeta) SS)) B),
              sym_solve LA LT (skipn m_lbfgs WT_g) with
        | Some a1, Some a2 =>
            let A := vsub (vneg a1) a2 in
            Some (vadd Hg (mat_vec W (A ++ B)))
        | _, _ => None
        end
    | None => None
    end
  else Some Hg.

(** The n x 1 array holding [v] as its only column. *)
Definition column (v : vec) : matrix := map (fun a => [a]) v.

(** The defaults with a negative step tolerance. *)
Definition negative_Xtol_args : Args :=
  {| a_eps := a_eps default_args;
     a_mu := a_mu default_args;
     a_nu := a_nu default_args;
     a_rho := a_rho default_args;
     a_tau := a_tau default_args;
     a_eta := a_eta default_args;
     a_beta := a_beta default_args;
     a_miter := a_miter default_args;
     a_niter := a_niter default_args;
     a_Xtol := Some (-1);
     a_Ktol := a_Ktol default_args;
     a_lbfgs := 0;
     a_lbfgs_zeta := None;
     a_verbosity := a_verbosity default_args |}.


(** [A[:, j]]: column [j] of a two-dimensional array. *)
Definition col (j : nat) (A : matrix) : vec := map (fun row => nth j row 0) A.

(* ================================================================== *)
(** * Properties *)

(** ** Comparisons *)

Lemma Rleb_true (x y : R) : Rleb x y = true <-> x <= y.
Proof. unfold Rleb; destruct (Rle_dec x y); split; intros; try easy; lra. Qed.

Lemma Rleb_false (x y : R) : Rleb x y = false <-> y < x.
Proof. unfold Rleb; destruct (Rle_dec x y); split; intros; try easy; lra. Qed.

Lemma Rltb_true (x y : R) : Rltb x y = true <-> x < y.
Proof. unfold Rltb; destruct (Rlt_dec x y); split; intros; try easy; lra. Qed.

Lemma Rltb_false (x y : R) : Rltb x y = false <-> y <= x.
Proof. unfold Rltb; destruct (Rlt_dec x y); split; intros; try easy; lra. Qed.

(** ** The golden ratio *)

Lemma GOLD_bounds : 1 < GOLD < 2.
Proof.
  unfold GOLD.
  assert (H1 : 1 < sqrt 5).
  { rewrite <- sqrt_1 at 1. apply sqrt_lt_1_alt. lra. }
  assert (H3 : sqrt 5 < 3).
  { replace 3 with (sqrt (3 * 3)) by (apply sqrt_square; lra).
    apply sqrt_lt_1_alt. lra. }
  lra.
Qed.

Lemma inv_GOLD_bounds : / 2 < / GOLD < 1.
Proof.
  destruct GOLD_bounds as [H1 H2]. split.
  - apply Rinv_lt_contravar; lra.
  - rewrite <- Rinv_1. apply Rinv_lt_contravar; lra.
Qed.

(** ** Fraction to the boundary *)

Section StepFacts.
Variable self : IPM.
Hypothesis tau_range : 0 < tau self < 1.

Lemma all_ge_Admissible (p dp : vec) (a : R) :
  all_ge self p dp a = true <-> Admissible self p dp a.
Proof.
  unfold all_ge, Admissible. rewrite forallb_forall, Forall_forall.
  split; intros H q Hq; specialize (H q Hq); now apply Rleb_true.
Qed.

Lemma any_lt_Admissible (p dp : vec) (a : R) :
  any_lt self p dp a = false <-> Admissible self p dp a.
Proof.
  unfold any_lt, Admissible. rewrite Forall_forall. split.
  - intros H q Hq.
    destruct (Rle_dec ((1 - tau self) * fst q) (fst q + a * snd q)) as [|n];
      [assumption|].
    assert (E : existsb (fun p0 => Rltb (fst p0 + a * snd p0)
                                       ((1 - tau self) * fst p0))
                        (combine p dp) = true).
    { apply existsb_exists. exists q. split; [assumption|].
      apply Rltb_true. lra. }
    congruence.
  - intros H.
    destruct (existsb _ _) eqn:E; [|reflexivity].
    apply existsb_exists in E. destruct E as [q [Hq Hlt]].
    apply Rltb_true in Hlt. specialize (H q Hq). lra.
Qed.

Lemma any_lt_not_Admissible (p dp : vec) (a : R) :
  any_lt self p dp a = true <-> ~ Admissible self p dp a.
Proof.
  rewrite <- any_lt_Admissible.
  destruct (any_lt self p dp a); split; intros; congruence.
Qed.

Lemma positive_combine (p dp : vec) :
  positive p -> Forall (fun q => 0 < fst q) (combine p dp).
Proof.
  intros Hp. revert dp. induction Hp; intros [|b dp]; simpl; constructor.
  - assumption.
  - apply IHHp.
Qed.

(** The admissible step lengths form an initial segment of [[0, +oo)]. *)
Lemma Admissible_downward (p dp : vec) (a a' : R) :
  positive p -> 0 <= a' <= a ->
  Admissible self p dp a -> Admissible self p dp a'.
Proof.
  intros Hp Ha H. unfold Admissible in *.
  pose proof (positive_combine p dp Hp) as Hpos.
  rewrite Forall_forall in *. intros q Hq.
  specialize (H q Hq). specialize (Hpos q Hq).
  destruct (Rle_dec 0 (snd q)); nra.
Qed.

Lemma Admissible_0 (p dp : vec) : positive p -> Admissible self p dp 0.
Proof.
  intros Hp. unfold Admissible.
  pose proof (positive_combine p dp Hp) as Hpos.
  rewrite Forall_forall in *. intros q Hq. specialize (Hpos q Hq). nra.
Qed.

(** One pass through the loop body keeps the bracket [a < b] with [a]
    admissible and [b] not, and shrinks it by the factor [1/GOLD]. *)
Lemma step_loop_terminates (p dp : vec) (Hp : positive p) (n : nat) :
  forall (fuel : nat) (a b : R),
    (n <= fuel)%nat ->
    0 <= a -> a < b -> b <= 1 ->
    Admissible self p dp a -> ~ Admissible self p dp b ->
    b - a <= GOLD * Xtol self * GOLD ^ n ->
    exists r,
      step_loop self fuel p dp a b
                (b - (b - a) / GOLD) (a + (b - a) / GOLD) = Ok r /\
      0 <= r <= 1 /\ Admissible self p dp r /\
      (forall t, 0 <= t -> Admissible self p dp t ->
                 t <= r + GOLD * Xtol self).
Proof.
  pose proof GOLD_bounds as HG. pose proof inv_GOLD_bounds as HiG.
  induction n as [|n IH]; intros fuel a b Hfuel Ha Hab Hb Hadm Hnadm Hlen.
  - assert (E : Rltb (GOLD * Xtol self) (Rabs (b - a)) = false).
    { apply Rltb_false. rewrite Rabs_right by lra. simpl in Hlen. lra. }
    destruct fuel; simpl; rewrite E; exists a; repeat split; try lra;
      try assumption; intros t Ht Hat;
      destruct (Rle_dec b t) as [Hbt|Hbt]; try lra;
      exfalso; apply Hnadm;
      apply (Admissible_downward p dp t b Hp); (lra || assumption).
  - destruct (Rltb (GOLD * Xtol self) (Rabs (b - a))) eqn:E.
    + destruct fuel as [|fuel]; [lia|].
      simpl. rewrite E.
      set (c := b - (b - a) / GOLD). set (d := a + (b - a) / GOLD).
      assert (Hcd : a < c /\ c < d /\ d < b).
      { unfold c, d, Rdiv. nra. }
      assert (Hshrink : (b - a) / GOLD <= GOLD * Xtol self * GOLD ^ n).
      { simpl in Hlen. unfold Rdiv.
        apply (Rmult_le_reg_r GOLD); [lra|].
        rewrite Rmult_assoc, Rinv_l by lra. nra. }
      assert (Hlen_c : c - a <= (b - a) / GOLD) by (unfold c, Rdiv; nra).
      assert (Hlen_d : b - d <= (b - a) / GOLD) by (unfold d, Rdiv; nra).
      assert (Hlen_cd : d - c <= (b - a) / GOLD) by (unfold c, d, Rdiv; nra).
      assert (Hlen_ad : d - a <= (b - a) / GOLD) by (unfold d, Rdiv; nra).
      destruct (any_lt self p dp d) eqn:Ed.
      * apply any_lt_not_Admissible in Ed.
        assert (Eac : Rltb a c = true) by (apply Rltb_true; lra).
        rewrite Eac.
        destruct (any_lt self p dp c) eqn:Ec.
        -- apply any_lt_not_Admissible in Ec.
           apply IH; try lra; try assumption; lia.
        -- apply any_lt_Admissible in Ec.
           apply IH; try lra; try assumption; lia.
      * apply any_lt_Admissible in Ed.
        assert (Edc : Rltb d c = false) by (apply Rltb_false; lra).
        rewrite Edc.
        apply IH; try lra; try assumption; lia.
    + apply Rltb_false in E. rewrite Rabs_right in E by lra.
      assert (E' : Rltb (GOLD * Xtol self) (Rabs (b - a)) = false).
      { apply Rltb_false. rewrite Rabs_right by lra. lra. }
      destruct fuel; simpl; rewrite E'; exists a; repeat split; try lra;
        try assumption; intros t Ht Hat;
        destruct (Rle_dec b t) as [Hbt|Hbt]; try lra;
        exfalso; apply Hnadm;
        apply (Admissible_downward p dp t b Hp); (lra || assumption).
Qed.

Lemma GOLD_pow_unbounded (y : R) : 0 < y -> exists n, 1 <= y * GOLD ^ n.
Proof.
  intros Hy. pose proof GOLD_bounds as HG.
  destruct (Pow_x_infinity GOLD) with (b := / y) as [N HN].
  { rewrite Rabs_right; lra. }
  exists N. specialize (HN N (Nat.le_refl N)).
  rewrite Rabs_right in HN.
  - apply (Rmult_le_reg_l (/ y)); [now apply Rinv_0_lt_compat|].
    rewrite <- Rmult_assoc, Rinv_l by lra. lra.
  - apply Rle_ge. apply pow_le. lra.
Qed.
End StepFacts.

(** C7.  For a strictly positive vector [p] and any direction [dp] of the
    same length, with [tau] in (0,1) and a positive tolerance [Xtol], the
    golden-section loop of [step] terminates and returns a step length
    [alpha] in [[0,1]] that respects the fraction-to-boundary bound
    [p + alpha*dp >= (1-tau)*p]; [alpha] is exactly 1 when the full step
    is admissible, and no admissible step length in [[0,1]] exceeds
    [alpha] by more than [GOLD * Xtol]. *)
Theorem step_fraction_to_boundary (self : IPM) (p dp : vec) :
  0 < tau self < 1 -> 0 < Xtol self ->
  positive p -> length p = length dp ->
  exists n, forall fuel, (n <= fuel)%nat ->
    exists alpha,
      step self fuel p dp = Ok alpha /\
      0 <= alpha <= 1 /\
      Admissible self p dp alpha /\
      (Admissible self p dp 1 -> alpha = 1) /\
      (forall t, 0 <= t <= 1 -> Admissible self p dp t ->
                 t <= alpha + GOLD * Xtol self).
Proof.
  intros Htau HX Hp _. pose proof GOLD_bounds as HG.
  destruct (GOLD_pow_unbounded (GOLD * Xtol self)) as [n Hn]; [nra|].
  exists n. intros fuel Hfuel. unfold step.
  destruct (all_ge self p dp 1) eqn:E.
  - apply all_ge_Admissible in E. exists 1. repeat split; try lra.
    + assumption.
    + intros t Ht _. nra.
  - assert (Hn1 : ~ Admissible self p dp 1).
    { intros H. apply all_ge_Admissible in H. congruence. }
    destruct (step_loop_terminates self Htau p dp Hp n fuel 0 1)
      as [r [Hr [Hr01 [Hadm Hsup]]]];
      try lra; try assumption.
    { now apply Admissible_0. }
    exists r. repeat split; try lra; try assumption.
    + intros H; contradiction.
    + intros t Ht Hat. apply Hsup; [lra|assumption].
Qed.

(** Witness: p = (1), dp = (-2) with the default tau and Xtol. *)
Lemma step_fraction_to_boundary_witness :
  exists n, forall fuel, (n <= fuel)%nat ->
    exists alpha,
      step (init default_args) fuel [1] [-2] = Ok alpha /\
      0 <= alpha <= 1 /\
      Admissible (init default_args) [1] [-2] alpha /\
      (Admissible (init default_args) [1] [-2] 1 -> alpha = 1) /\
      (forall t, 0 <= t <= 1 -> Admissible (init default_args) [1] [-2] t ->
                 t <= alpha + GOLD * Xtol (init default_args)).
Proof.
  apply (step_fraction_to_boundary (init default_args) [1] [-2]).
  - simpl. lra.
  - simpl. lra.
  - repeat constructor. lra.
  - reflexivity.
Defined.

(** ** Vectors *)

Lemma zipWith_length {A B C : Type} (g : A -> B -> C) (u : list A)
      (v : list B) :
  length (zipWith g u v) = Nat.min (length u) (length v).
Proof.
  revert v. induction u as [|a u IH]; intros [|b v]; simpl; auto.
Qed.

Lemma zipWith_nil_r {A B C : Type} (g : A -> B -> C) (u : list A) :
  zipWith g u [] = [].
Proof. destruct u; reflexivity. Qed.

Lemma mat_vec_length (A : matrix) (v : vec) :
  length (mat_vec A v) = length A.
Proof. apply length_map. Qed.

Lemma mat_vec_nil (A : matrix) : mat_vec A [] = zeros (length A).
Proof.
  induction A as [|r A IH]; simpl; [reflexivity|].
  unfold zeros in *. simpl. rewrite <- IH. f_equal.
  unfold dot, vmul. now rewrite zipWith_nil_r.
Qed.

Lemma vsub_zeros (v : vec) (n : nat) :
  (length v <= n)%nat -> vsub v (zeros n) = v.
Proof.
  unfold vsub, zeros. revert n.
  induction v as [|a v IH]; intros [|n] H; simpl in *;
    try reflexivity; try lia.
  f_equal; [lra|]. apply IH. lia.
Qed.

Lemma length_nil_inv {A : Type} (l : list A) : length l = 0%nat -> l = [].
Proof. destruct l; simpl; [reflexivity|discriminate]. Qed.

Lemma set_subtensor_segment (lo hi : nat) (v a z c : vec) :
  length a = lo -> (lo + length z = hi)%nat ->
  set_subtensor lo hi v (a ++ z ++ c) = a ++ v ++ c.
Proof.
  intros Ha Hz. unfold set_subtensor.
  rewrite firstn_app, firstn_all2 by lia.
  replace (lo - length a)%nat with 0%nat by lia. simpl. rewrite app_nil_r.
  f_equal. f_equal.
  rewrite app_assoc, skipn_app, skipn_all2 by (rewrite length_app; lia).
  rewrite length_app. replace (hi - _)%nat with 0%nat by lia. reflexivity.
Qed.

Lemma slice_segment (lo hi : nat) (a z c : vec) :
  length a = lo -> (lo + length z = hi)%nat ->
  slice lo hi (a ++ z ++ c) = z.
Proof.
  intros Ha Hz. unfold slice.
  rewrite skipn_app, skipn_all2 by lia.
  replace (lo - length a)%nat with 0%nat by lia. simpl.
  rewrite firstn_app, firstn_all2 by lia.
  replace (hi - lo - length z)%nat with 0%nat by lia.
  simpl. apply app_nil_r.
Qed.

Lemma truthy_0 (n : nat) : truthy n = false <-> n = 0%nat.
Proof.
  unfold truthy. destruct n; simpl; split; intros; congruence.
Qed.

Lemma truthy_pos (n : nat) : truthy n = true <-> (0 < n)%nat.
Proof.
  unfold truthy. destruct n; simpl; split; intros; (congruence || lia).
Qed.

(** ** The stacked gradient and the four KKT blocks *)

Section KKTFacts.
Variables (self : IPM) (P : Problem) (mu_dev : R) (x s lda : vec).
Hypothesis shapes : well_shaped P x.
Hypothesis s_len : length s = nineq P.
Hypothesis lda_len : length lda = (neq P + nineq P)%nat.

Lemma primal_block_length : length (primal_block P x lda) = nvar P.
Proof.
  destruct shapes as (H1 & H2 & H3 & _). unfold primal_block, vsub.
  rewrite !zipWith_length, !mat_vec_length. lia.
Qed.

Lemma slack_block_length :
  length (slack_block self P mu_dev s lda) = nineq P.
Proof.
  unfold slack_block, vsub, div_shift.
  rewrite zipWith_length, length_skipn, length_map. lia.
Qed.

Lemma ineq_block_length : length (ineq_block P x s) = nineq P.
Proof.
  destruct shapes as (_ & _ & _ & _ & H5). unfold ineq_block, vsub.
  rewrite zipWith_length. lia.
Qed.

(** The compiled gradient is the concatenation of the four blocks of
    section 4.2, in the order primal, slack, equality, inequality. *)
Lemma grad_stacked :
  grad self P mu_dev x s lda
  = primal_block P x lda ++ slack_block self P mu_dev s lda
    ++ ce P x ++ ineq_block P x s.
Proof.
  pose proof primal_block_length as L1. pose proof slack_block_length as L2.
  pose proof ineq_block_length as L4.
  set (blk1 := primal_block P x lda) in *.
  set (blk2 := slack_block self P mu_dev s lda) in *.
  set (blk3 := ce P x) in *.
  set (blk4 := ineq_block P x s) in *.
  destruct shapes as (H1 & H2 & H3 & H4 & H5).
  assert (L3 : length blk3 = neq P) by exact H4.
  unfold grad.
  set (D := nvar P) in *. set (M := neq P) in *. set (N := nineq P) in *.
  assert (Z : zeros (D + 2 * N + M)
              = zeros 0 ++ zeros D ++ zeros N ++ zeros M ++ zeros N).
  { unfold zeros. rewrite <- !repeat_app. f_equal. lia. }
  assert (G1 : forall v, length v = D ->
             set_subtensor 0 D v (zeros (D + 2 * N + M))
             = v ++ zeros N ++ zeros M ++ zeros N).
  { intros v Hv. rewrite Z.
    rewrite (set_subtensor_segment 0 D v (zeros 0) (zeros D)); auto.
    unfold zeros. rewrite repeat_length. lia. }
  assert (First :
    (if truthy M && truthy N then
       set_subtensor 0 D
         (vsub (vsub (df P x) (mat_vec (dce P x) (firstn M lda)))
               (mat_vec (dci P x) (skipn M lda))) (zeros (D + 2 * N + M))
     else if truthy M then
       set_subtensor 0 D (vsub (df P x) (mat_vec (dce P x) lda))
                     (zeros (D + 2 * N + M))
     else if truthy N then
       set_subtensor 0 D (vsub (df P x) (mat_vec (dci P x) lda))
                     (zeros (D + 2 * N + M))
     else set_subtensor 0 D (df P x) (zeros (D + 2 * N + M)))
    = blk1 ++ zeros N ++ zeros M ++ zeros N).
  { destruct (truthy M) eqn:EM; destruct (truthy N) eqn:EN; simpl.
    - apply G1. exact L1.
    - apply truthy_0 in EN.
      assert (E1 : firstn M lda = lda) by (apply firstn_all2; lia).
      assert (E2 : skipn M lda = []) by (apply skipn_all2; lia).
      rewrite G1.
      + unfold blk1, primal_block. fold M. rewrite E1, E2, mat_vec_nil, vsub_zeros;
          [reflexivity|].
        unfold vsub. rewrite zipWith_length, mat_vec_length. lia.
      + unfold vsub. rewrite zipWith_length, mat_vec_length. lia.
    - apply truthy_0 in EM.
      assert (E1 : firstn M lda = []) by (rewrite EM; reflexivity).
      assert (E2 : skipn M lda = lda) by (rewrite EM; reflexivity).
      rewrite G1.
      + unfold blk1, primal_block. fold M. rewrite E1, E2, mat_vec_nil, vsub_zeros;
          [reflexivity|]. lia.
      + unfold vsub. rewrite zipWith_length, mat_vec_length. lia.
    - apply truthy_0 in EM. apply truthy_0 in EN.
      assert (E0 : lda = []) by (apply length_nil_inv; lia).
      rewrite G1 by exact H1.
      unfold blk1, primal_block. fold M. rewrite E0, firstn_nil, skipn_nil.
      rewrite !mat_vec_nil, !vsub_zeros; [reflexivity| |]; try lia.
      rewrite vsub_zeros; lia. }
  rewrite First. clear First G1 Z.
  assert (Second :
    (if truthy N then
       set_subtensor (D + N + M)
         (length (set_subtensor D (D + N)
                    (vsub (skipn M lda) (div_shift self mu_dev s))
                    (blk1 ++ zeros N ++ zeros M ++ zeros N)))
         (vsub (ci P x) s)
         (set_subtensor D (D + N)
            (vsub (skipn M lda) (div_shift self mu_dev s))
            (blk1 ++ zeros N ++ zeros M ++ zeros N))
     else blk1 ++ zeros N ++ zeros M ++ zeros N)
    = blk1 ++ blk2 ++ zeros M ++ blk4).
  { destruct (truthy N) eqn:EN.
    - rewrite (set_subtensor_segment D (D + N));
        [|exact L1|unfold zeros; rewrite repeat_length; lia].
      change (vsub (skipn M lda) (div_shift self mu_dev s)) with blk2.
      change (vsub (ci P x) s) with blk4.
      replace (blk1 ++ blk2 ++ zeros M ++ zeros N)
        with ((blk1 ++ blk2 ++ zeros M) ++ zeros N ++ [])
        by (rewrite app_nil_r, <- !app_assoc; reflexivity).
      rewrite set_subtensor_segment.
      + rewrite app_nil_r, <- !app_assoc. reflexivity.
      + rewrite !length_app. unfold zeros. rewrite repeat_length. lia.
      + rewrite !length_app. unfold zeros. rewrite !repeat_length.
        simpl. lia.
    - apply truthy_0 in EN.
      assert (B2 : blk2 = []) by (apply length_nil_inv; lia).
      assert (B4 : blk4 = []) by (apply length_nil_inv; lia).
      rewrite B2, B4, EN. reflexivity. }
  rewrite Second. clear Second.
  destruct (truthy M) eqn:EM.
  - replace (blk1 ++ blk2 ++ zeros M ++ blk4)
      with ((blk1 ++ blk2) ++ zeros M ++ blk4)
      by (rewrite <- !app_assoc; reflexivity).
    rewrite (set_subtensor_segment (D + N) (D + N + M) (ce P x)
               (blk1 ++ blk2) (zeros M) blk4).
    + rewrite <- !app_assoc. reflexivity.
    + rewrite length_app. lia.
    + unfold zeros. rewrite repeat_length. lia.
  - apply truthy_0 in EM.
    assert (B3 : blk3 = []) by (apply length_nil_inv; lia).
    rewrite B3, EM. reflexivity.
Qed.
End KKTFacts.

Lemma slice_prefix (n : nat) (a c : vec) :
  length a = n -> slice 0 n (a ++ c) = a.
Proof.
  intros H. change (a ++ c) with ([] ++ a ++ c).
  apply slice_segment; simpl; auto.
Qed.

Lemma skipn_suffix (n : nat) (a c : vec) : length a = n -> skipn n (a ++ c) = c.
Proof.
  intros H. rewrite skipn_app, skipn_all2 by lia.
  replace (n - length a)%nat with 0%nat by lia. reflexivity.
Qed.

(** Slicing the stacked gradient at the block boundaries gives the four
    residuals back. *)
Lemma grad_slices (self : IPM) (P : Problem) (mu_dev : R) (x s lda : vec) :
  well_shaped P x ->
  length s = nineq P ->
  length lda = (neq P + nineq P)%nat ->
  let D := nvar P in
  let M := neq P in
  let N := nineq P in
  let kkts := grad self P mu_dev x s lda in
  slice 0 D kkts = primal_block P x lda /\
  slice D (D + N) kkts = slack_block self P mu_dev s lda /\
  slice (D + N) (D + N + M) kkts = ce P x /\
  skipn (D + N + M) kkts = ineq_block P x s.
Proof.
  intros Hw Hs Hl D M N kkts. unfold kkts, D, M, N.
  rewrite (grad_stacked self P mu_dev x s lda Hw Hs Hl).
  pose proof (primal_block_length P x s lda Hw Hs Hl) as L1.
  pose proof (slack_block_length self P mu_dev s lda Hs Hl) as L2.
  pose proof (ineq_block_length P x s lda Hw Hs Hl) as L4.
  destruct Hw as (_ & _ & _ & H4 & _).
  set (b1 := primal_block P x lda) in *.
  set (b2 := slack_block self P mu_dev s lda) in *.
  set (b4 := ineq_block P x s) in *.
  repeat split.
  - apply slice_prefix; exact L1.
  - apply slice_segment; lia.
  - rewrite app_assoc. apply slice_segment; rewrite ?length_app; lia.
  - rewrite 2!app_assoc. apply skipn_suffix. rewrite !length_app. lia.
Qed.

(** C2 (as amended).  For an oracle returning arrays of the declared
    sizes, [KKT(x, s, lda)] returns, in this order, the Lagrangian gradient
    [df - dce.lda[:M] - dci.lda[M:]], the slack block
    [(lda[M:] - mu/(s + eps)) * s], the equality residual [ce(x)] and the
    inequality residual [ci(x) - s]; blocks 2 and 4 are the scalar 0 when
    N = 0 and block 3 is the scalar 0 when M = 0. *)
Theorem KKT_returns_shifted_blocks (self : IPM) (P : Problem) (mu_dev : R)
        (x s lda : vec) :
  well_shaped P x ->
  length s = nineq P ->
  length lda = (neq P + nineq P)%nat ->
  KKT self P mu_dev x s lda = KKT_shifted self P mu_dev x s lda.
Proof.
  intros Hw Hs Hl.
  destruct (grad_slices self P mu_dev x s lda Hw Hs Hl)
    as (S1 & S2 & S3 & S4).
  unfold KKT, KKT_shifted, kkt_blocks.
  rewrite S1, S2, S3, S4.
  unfold primal_block, slack_block, ineq_block.
  destruct (truthy (neq P)), (truthy (nineq P)); reflexivity.
Qed.

(** Witness: the bound-constrained problem at x = 1, s = 1, lda = 1. *)
Lemma KKT_returns_shifted_blocks_witness :
  KKT (init default_args) bound_problem (2 / 10) [1] [1] [1]
  = KKT_shifted (init default_args) bound_problem (2 / 10) [1] [1] [1].
Proof.
  apply KKT_returns_shifted_blocks.
  - repeat split; reflexivity.
  - reflexivity.
  - reflexivity.
Defined.

(** C2 (as stated) fails: with one inequality, s = 1, lda = 1 and
    mu = 0.2 the second block is [1 - 0.2/(1 + eps)], not [1 - 0.2]. *)
Lemma KKT_spec_counterexample :
  well_shaped bound_problem [1] /\
  KKT (init default_args) bound_problem (2 / 10) [1] [1] [1]
  <> KKT_spec bound_problem (2 / 10) [1] [1] [1].
Proof.
  assert (Hw : well_shaped bound_problem [1]) by (repeat split; reflexivity).
  split; [exact Hw|].
  destruct (grad_slices (init default_args) bound_problem (2 / 10)
              [1] [1] [1] Hw eq_refl eq_refl) as (_ & S2 & _).
  unfold KKT, KKT_spec, kkt_blocks.
  change (truthy (neq bound_problem)) with false.
  change (truthy (nineq bound_problem)) with true.
  cbv iota. simpl andb. cbv iota. intros H.
  apply (f_equal (fun k => nth 1 k (Scal 0))) in H. cbn [nth] in H.
  rewrite S2 in H.
  unfold slack_block, div_shift, vmul, vsub in H. simpl in H.
  injection H as H. lra.
Qed.

(** ** L-BFGS storage update *)

Lemma last_snoc (r : vec) (a : R) : last (r ++ [a]) 0 = a.
Proof. apply last_last. Qed.

Lemma last_col_set_last_col (A : matrix) (v : vec) :
  (length v <= length A)%nat -> last_col (set_last_col A v) = v.
Proof.
  unfold last_col, set_last_col. revert v.
  induction A as [|r A IH]; intros [|a v] H; simpl in *;
    try reflexivity; try lia.
  rewrite last_snoc. f_equal. apply IH. lia.
Qed.

Lemma ncols_set_last_col (A : matrix) (v : vec) :
  (0 < length v)%nat -> (0 < length A)%nat ->
  (0 < ncols (set_last_col A v))%nat.
Proof.
  destruct A as [|r A], v as [|a v]; simpl; try lia.
  intros _ _. rewrite length_app. simpl. lia.
Qed.

Lemma shift_cols_length (A : matrix) : length (shift_cols A) = length A.
Proof. apply length_map. Qed.

Lemma append_zero_col_length (A : matrix) :
  length (append_zero_col A) = length A.
Proof. apply length_map. Qed.

Lemma curvature_ok_true (self : IPM) (P : Problem) (dx dg : vec) :
  curvature_ok self P dx dg = true <->
  sqrt (eps self) < dot dx dg /\ sqrt (eps self) < zeta_new self P dx dg.
Proof.
  unfold curvature_ok. rewrite andb_true_iff, !Rltb_true. tauto.
Qed.

Section UpdateFacts.
Variables (self : IPM) (P : Problem).
Variables (x_old x_new g_old g_new : vec) (lb : LBFGS).

Variables (dx dg : vec).
Hypothesis dx_def : dx = vsub x_new x_old.
Hypothesis dg_def :
  dg = vsub (firstn (nvar P) g_old) (firstn (nvar P) g_new).

Hypothesis nvar_pos : (0 < nvar P)%nat.
Hypothesis x_old_len : length x_old = nvar P.
Hypothesis x_new_len : length x_new = nvar P.
Hypothesis g_old_len : (nvar P <= length g_old)%nat.
Hypothesis g_new_len : (nvar P <= length g_new)%nat.
Hypothesis S_rows : length (Smat lb) = nvar P.
Hypothesis Y_rows : length (Ymat lb) = nvar P.

Lemma dx_length : length dx = nvar P.
Proof. rewrite dx_def. unfold vsub. rewrite zipWith_length. lia. Qed.

Lemma dg_length : length dg = nvar P.
Proof.
  rewrite dg_def. unfold vsub. rewrite zipWith_length, !length_firstn. lia.
Qed.

(** An accepted pair becomes the last column of [S] and [Y]. *)
Lemma lbfgs_update_accept :
  curvature_ok self P dx dg = true ->
  exists lb',
    lbfgs_update self P x_old x_new g_old g_new lb = Ok lb' /\
    committed dx dg lb' /\
    zeta lb' = zeta_new self P dx dg /\
    products_stored P dx dg lb'.
Proof.
  intros Hok. pose proof dx_length as Ldx. pose proof dg_length as Ldg.
  unfold lbfgs_update. rewrite <- dx_def, <- dg_def, Hok.
  assert (Hprod : forall S2 Y2 SS1 L1 D1,
    products_stored P dx dg
      {| zeta := zeta_new self P dx dg;
         Smat := S2; Ymat := Y2;
         SS := set_last_row
                 (set_last_col SS1
                    (if constrained P then matT_vec S2 dx
                     else matT_vec Y2 dg))
                 (if constrained P then matT_vec S2 dx else matT_vec Y2 dg);
         Lmat := if constrained P
                 then set_last_entry (set_last_row L1 (matT_vec Y2 dx)) 0
                 else set_last_col L1 (matT_vec S2 dg);
         Dmat := set_last_entry D1 (dot dx dg);
         lbfgs_fail := 0 |}).
  { intros S2 Y2 SS1 L1 D1. unfold products_stored. simpl.
    unfold set_last_row, set_last_entry. rewrite !last_last.
    repeat split. intros ->. rewrite !last_last. reflexivity. }
  destruct (Nat.ltb (lbfgs self) (ncols (Smat lb))) eqn:Efull;
    cbv zeta; cbv beta iota; simpl lbfgs_fail;
    rewrite (proj2 (Nat.ltb_ge _ _) (Nat.le_0_l (lbfgs_fail_max self)));
    simpl andb; cbv iota;
    eexists; (split; [reflexivity|]);
    (split; [|split; [reflexivity|apply Hprod]]);
    unfold committed; simpl;
    (split; [reflexivity|]); split.
  - apply ncols_set_last_col; rewrite ?shift_cols_length; lia.
  - split; apply last_col_set_last_col; rewrite shift_cols_length; lia.
  - apply ncols_set_last_col; rewrite ?append_zero_col_length; lia.
  - split; apply last_col_set_last_col;
      rewrite append_zero_col_length; lia.
Qed.

(** A rejected pair only counts a failure, or empties the storage when
    the counter passes [lbfgs_fail_max] with columns stored. *)
Lemma lbfgs_update_reject :
  curvature_ok self P dx dg = false ->
  lbfgs_update self P x_old x_new g_old g_new lb
  = if Nat.ltb (lbfgs_fail_max self) (S (lbfgs_fail lb))
       && Nat.ltb 0 (ncols (Smat lb))
    then lbfgs_init self P
    else Ok (rejected lb).
Proof.
  intros Hno. unfold lbfgs_update. rewrite <- dx_def, <- dg_def, Hno.
  reflexivity.
Qed.
End UpdateFacts.

Lemma lbfgs_init_not_committed (self : IPM) (P : Problem) (dx dg : vec)
      (lb' : LBFGS) :
  lbfgs_init self P = Ok lb' -> ~ committed dx dg lb'.
Proof.
  unfold lbfgs_init. destruct (lbfgs_zeta self); [|discriminate].
  intros H; injection H as <-. unfold committed; simpl.
  intros (_ & Hc & _). destruct (nvar P); simpl in Hc; lia.
Qed.

(** C8 (as amended).  With [dx = x_new - x_old] and
    [dg = g_old[:D] - g_new[:D]], [lbfgs_update] commits the pair to the
    storage (it becomes the last column of S and Y, its products enter
    SS, L and D, zeta becomes [zeta_new] and the failure counter is
    reset) if and only if
    [dx.dg > sqrt(eps)] and [zeta_new > sqrt(eps)].  On rejection the
    counter is incremented and arrays and zeta are unchanged, unless the
    incremented counter exceeds [lbfgs_fail_max] while a column is stored:
    then the storage is re-initialised by [lbfgs_init]. *)
Theorem lbfgs_update_commit_iff (self : IPM) (P : Problem)
        (x_old x_new g_old g_new : vec) (lb : LBFGS) :
  (0 < nvar P)%nat ->
  length x_old = nvar P -> length x_new = nvar P ->
  (nvar P <= length g_old)%nat -> (nvar P <= length g_new)%nat ->
  length (Smat lb) = nvar P -> length (Ymat lb) = nvar P ->
  let dx := vsub x_new x_old in
  let dg := vsub (firstn (nvar P) g_old) (firstn (nvar P) g_new) in
  let accept := sqrt (eps self) < dot dx dg /\
                sqrt (eps self) < zeta_new self P dx dg in
  let out := lbfgs_update self P x_old x_new g_old g_new lb in
  (accept <-> exists lb', out = Ok lb' /\ committed dx dg lb') /\
  (accept ->
   exists lb', out = Ok lb' /\ zeta lb' = zeta_new self P dx dg /\
               products_stored P dx dg lb') /\
  (~ accept ->
   out = if Nat.ltb (lbfgs_fail_max self) (S (lbfgs_fail lb))
            && Nat.ltb 0 (ncols (Smat lb))
         then lbfgs_init self P
         else Ok (rejected lb)).
Proof.
  intros Hn Hxo Hxn Hgo Hgn HS HY dx dg accept out.
  assert (Hacc : accept <-> curvature_ok self P dx dg = true).
  { unfold accept. symmetry. apply curvature_ok_true. }
  split; [split|split].
  - intros Ha. apply Hacc in Ha.
    destruct (lbfgs_update_accept self P x_old x_new g_old g_new lb
                dx dg eq_refl eq_refl Hn Hxo Hxn Hgo Hgn HS HY Ha)
      as [lb' [H1 [H2 _]]].
    exists lb'. split; assumption.
  - intros [lb' [Hout Hc]]. apply Hacc.
    destruct (curvature_ok self P dx dg) eqn:E; [reflexivity|exfalso].
    unfold out in Hout.
    rewrite (lbfgs_update_reject self P x_old x_new g_old g_new lb
               dx dg eq_refl eq_refl E) in Hout.
    destruct (_ && _).
    + exact (lbfgs_init_not_committed self P dx dg lb' Hout Hc).
    + injection Hout as <-. destruct Hc as [Hc _]. discriminate Hc.
  - intros Ha. apply Hacc in Ha.
    destruct (lbfgs_update_accept self P x_old x_new g_old g_new lb
                dx dg eq_refl eq_refl Hn Hxo Hxn Hgo Hgn HS HY Ha)
      as [lb' [H1 [_ H3]]].
    exists lb'. split; assumption.
  - intros Hna.
    assert (E : curvature_ok self P dx dg = false).
    { destruct (curvature_ok self P dx dg); [|reflexivity].
      exfalso. apply Hna, Hacc. reflexivity. }
    exact (lbfgs_update_reject self P x_old x_new g_old g_new lb
             dx dg eq_refl eq_refl E).
Qed.

(** Witness: a zero displacement offered to a storage holding one pair. *)
Lemma lbfgs_update_commit_iff_witness :
  let self := init lbfgs_args in
  let P := square_problem in
  let lb := one_pair_one_failure in
  let dx := vsub [0] [0] in
  let dg := vsub (firstn (nvar P) [0]) (firstn (nvar P) [0]) in
  let accept := sqrt (eps self) < dot dx dg /\
                sqrt (eps self) < zeta_new self P dx dg in
  let out := lbfgs_update self P [0] [0] [0] [0] lb in
  (accept <-> exists lb', out = Ok lb' /\ committed dx dg lb') /\
  (accept ->
   exists lb', out = Ok lb' /\ zeta lb' = zeta_new self P dx dg /\
               products_stored P dx dg lb') /\
  (~ accept ->
   out = if Nat.ltb (lbfgs_fail_max self) (S (lbfgs_fail lb))
            && Nat.ltb 0 (ncols (Smat lb))
         then lbfgs_init self P
         else Ok (rejected lb)).
Proof.
  apply (lbfgs_update_commit_iff (init lbfgs_args) square_problem
           [0] [0] [0] [0] one_pair_one_failure);
    simpl; lia.
Defined.

Lemma zero_displacement_rejected :
  curvature_ok (init lbfgs_args) square_problem
               (vsub [0] [0]) (vsub (firstn 1 [0]) (firstn 1 [0])) = false.
Proof.
  unfold curvature_ok. apply andb_false_iff. left. apply Rltb_false.
  unfold dot, vmul, vsub. simpl.
  pose proof (sqrt_pos (/ 8388608)). lra.
Qed.

(** C8 (as stated) fails: with memory 1, one stored pair and one earlier
    failure, a rejected pair does not leave the storage unchanged with the
    counter at 2; the storage comes back empty with the counter at 0. *)
Lemma lbfgs_update_reject_counterexample :
  curvature_ok (init lbfgs_args) square_problem
               (vsub [0] [0]) (vsub (firstn 1 [0]) (firstn 1 [0])) = false /\
  lbfgs_update (init lbfgs_args) square_problem [0] [0] [0] [0]
               one_pair_one_failure
  = Ok {| zeta := 1; Smat := [[]]; Ymat := [[]]; SS := []; Lmat := [];
          Dmat := []; lbfgs_fail := 0 |} /\
  lbfgs_update (init lbfgs_args) square_problem [0] [0] [0] [0]
               one_pair_one_failure
  <> Ok (rejected one_pair_one_failure).
Proof.
  pose proof zero_displacement_rejected as Hrej.
  assert (E : lbfgs_update (init lbfgs_args) square_problem [0] [0] [0] [0]
                           one_pair_one_failure
              = Ok {| zeta := 1; Smat := [[]]; Ymat := [[]]; SS := [];
                      Lmat := []; Dmat := []; lbfgs_fail := 0 |}).
  { unfold lbfgs_update.
    change (nvar square_problem) with 1%nat. rewrite Hrej. reflexivity. }
  split; [exact Hrej|]. split; [exact E|].
  rewrite E. intros H. injection H as _ H. discriminate H.
Qed.

(** ** Hessian regularisation *)

Lemma reghess_loop_count (self : IPM) (P : Problem) (LA : LinAlg)
      (fuel : nat) :
  forall (Hc : matrix) (delta : R) (H' : matrix) (delta' : R),
    reghess_loop self P LA fuel Hc delta = Ok (H', delta') ->
    count_below self (eigh LA H') = (neq P + nineq P)%nat.
Proof.
  induction fuel as [|fuel IH]; intros Hc delta H' delta' Hrun;
    simpl in Hrun;
    destruct (Nat.eqb (neq P + nineq P) (count_below self (eigh LA Hc)))
      eqn:E; try discriminate.
  - injection Hrun as <- <-. symmetry. now apply Nat.eqb_eq.
  - injection Hrun as <- <-. symmetry. now apply Nat.eqb_eq.
  - eapply IH. exact Hrun.
Qed.

(** C4 (as amended).  Whenever [reghess] returns, exactly M + N of the
    eigenvalues the kernel computes for the returned matrix lie below
    [-eps]; this count is the only condition the regulariser tests. *)
Theorem reghess_count_below (self : IPM) (P : Problem) (LA : LinAlg)
        (fuel : nat) (mu_host delta : R) (Hc H' : matrix) (delta' : R) :
  reghess self P LA fuel mu_host delta Hc = Ok (H', delta') ->
  count_below self (eigh LA H') = (neq P + nineq P)%nat.
Proof.
  unfold reghess. intros Hrun.
  destruct (np_min (map Rabs (eigh LA Hc))) as [lo| |]; try discriminate.
  destruct (np_max (map Rabs (eigh LA Hc))) as [hi| |]; try discriminate.
  simpl in Hrun.
  destruct (Rleb (lo / hi) (eps self)) eqn:Ec; simpl in Hrun.
  - eapply reghess_loop_count. exact Hrun.
  - destruct (Nat.eqb (neq P + nineq P)
                      (count_below self (eigh LA Hc))) eqn:E;
      simpl in Hrun.
    + injection Hrun as <- <-. symmetry. now apply Nat.eqb_eq.
    + eapply reghess_loop_count. exact Hrun.
Qed.

Lemma saddle_hess :
  hess (init default_args) saddle_problem [0; 0] [] []
  = [[- (/ 8388608 / 2); 0]; [0; / 8388608 / 2]].
Proof. reflexivity. Qed.

(** On the saddle Hessian the regulariser changes nothing: both
    eigenvalues have modulus eps/2, so rcond = 1 > eps, and none of them
    is below -eps. *)
Lemma saddle_reghess :
  reghess (init default_args) saddle_problem diag_kernel 0 (2 / 10) 0
          [[- (/ 8388608 / 2); 0]; [0; / 8388608 / 2]]
  = Ok ([[- (/ 8388608 / 2); 0]; [0; / 8388608 / 2]], 0).
Proof.
  unfold reghess.
  change (eigh diag_kernel [[- (/ 8388608 / 2); 0]; [0; / 8388608 / 2]])
    with [- (/ 8388608 / 2); / 8388608 / 2].
  assert (A1 : Rabs (- (/ 8388608 / 2)) = / 8388608 / 2).
  { rewrite Rabs_Ropp. apply Rabs_right. lra. }
  assert (A2 : Rabs (/ 8388608 / 2) = / 8388608 / 2).
  { apply Rabs_right. lra. }
  unfold np_min, np_max, bind. simpl map.
  rewrite A1, A2. unfold fold_left.
  rewrite Rmin_left, Rmax_left by lra.
  assert (E1 : Rleb (/ 8388608 / 2 / (/ 8388608 / 2))
                    (eps (init default_args)) = false).
  { apply Rleb_false. simpl. 
    replace (/ 8388608 / 2 / (/ 8388608 / 2)) with 1 by (field; lra). lra. }
  rewrite E1.
  assert (E2 : count_below (init default_args)
                 [- (/ 8388608 / 2); / 8388608 / 2] = 0%nat).
  { unfold count_below. simpl.
    rewrite (proj2 (Rltb_false _ _)) by lra.
    rewrite (proj2 (Rltb_false _ _)) by lra. reflexivity. }
  rewrite E2. reflexivity.
Qed.

(** Witness: the saddle Hessian, returned unchanged. *)
Lemma reghess_count_below_witness :
  count_below (init default_args)
    (eigh diag_kernel [[- (/ 8388608 / 2); 0]; [0; / 8388608 / 2]])
  = (neq saddle_problem + nineq saddle_problem)%nat.
Proof.
  apply (reghess_count_below (init default_args) saddle_problem diag_kernel
           0 (2 / 10) 0
           [[- (/ 8388608 / 2); 0]; [0; / 8388608 / 2]]
           [[- (/ 8388608 / 2); 0]; [0; / 8388608 / 2]] 0).
  exact saddle_reghess.
Defined.

(** C4 (as stated) fails.  For f = eps/4 (y^2 - x^2), D = 2 and
    M = N = 0, the Hessian diag(-eps/2, eps/2) has the eigenpairs shown,
    [reghess] returns it as it is, and its inertia is (1, 1, 0), not
    (D, M+N, 0) = (2, 0, 0). *)
Lemma reghess_inertia_counterexample :
  let Hc := hess (init default_args) saddle_problem [0; 0] [] [] in
  mat_vec Hc [1; 0] = vscale (- (/ 8388608 / 2)) [1; 0] /\
  mat_vec Hc [0; 1] = vscale (/ 8388608 / 2) [0; 1] /\
  exists H' delta',
    reghess (init default_args) saddle_problem diag_kernel 0 (2 / 10) 0 Hc
    = Ok (H', delta') /\
    inertia (eigh diag_kernel H') = (1%nat, 1%nat, 0%nat) /\
    inertia (eigh diag_kernel H')
    <> (nvar saddle_problem,
        (neq saddle_problem + nineq saddle_problem)%nat, 0%nat).
Proof.
  intros Hc. unfold Hc. rewrite saddle_hess.
  split; [|split].
  - unfold mat_vec, dot, vmul, vscale. simpl.
    f_equal; [lra|f_equal; lra].
  - unfold mat_vec, dot, vmul, vscale. simpl.
    f_equal; [lra|f_equal; lra].
  - eexists; eexists. split; [exact saddle_reghess|].
    assert (I : inertia (eigh diag_kernel
                  [[- (/ 8388608 / 2); 0]; [0; / 8388608 / 2]])
                = (1%nat, 1%nat, 0%nat)).
    { change (eigh diag_kernel
                [[- (/ 8388608 / 2); 0]; [0; / 8388608 / 2]])
        with [- (/ 8388608 / 2); / 8388608 / 2].
      unfold inertia. simpl.
      rewrite (proj2 (Rltb_false 0 (- (/ 8388608 / 2)))) by lra.
      rewrite (proj2 (Rltb_true 0 (/ 8388608 / 2))) by lra.
      rewrite (proj2 (Rltb_true (- (/ 8388608 / 2)) 0)) by lra.
      rewrite (proj2 (Rltb_false (/ 8388608 / 2) 0)) by lra.
      destruct (Req_dec_T (- (/ 8388608 / 2)) 0); [lra|].
      destruct (Req_dec_T (/ 8388608 / 2) 0); [lra|].
      reflexivity. }
    split; [exact I|]. rewrite I. simpl. discriminate.
Qed.

(** ** The initial L-BFGS scaling *)



(** ** Exceptions in the line search *)

Lemma step_loop_no_raise (self : IPM) (fuel : nat) :
  forall (p dp : vec) (a b c d : R) (e : exn),
    step_loop self fuel p dp a b c d <> Raise e.
Proof.
  induction fuel as [|fuel IH]; intros p dp a b c d e; simpl;
    destruct (Rltb (GOLD * Xtol self) (Rabs (b - a))); try discriminate.
  destruct (any_lt self p dp d);
    [destruct (Rltb a c)|destruct (Rltb d c)];
    try destruct (any_lt self p dp c); apply IH.
Qed.

Lemma step_no_raise (self : IPM) (fuel : nat) (p dp : vec) (e : exn) :
  step self fuel p dp <> Raise e.
Proof.
  unfold step. destruct (all_ge self p dp 1); [discriminate|].
  apply step_loop_no_raise.
Qed.

Lemma backtrack_no_raise (self : IPM) (fuel : nat) (merit : R -> R)
      (phi0 dphi0 : R) :
  forall (a al : R) (e : exn),
    backtrack self fuel merit phi0 dphi0 a al <> Raise e.
Proof.
  induction fuel as [|fuel IH]; intros a al e; simpl;
    destruct (Rltb (phi0 + a * eta self * dphi0) (merit a));
    try discriminate.
  apply IH.
Qed.

Lemma bind_no_raise {A B : Type} (m : res A) (k : A -> res B) :
  (forall e, m <> Raise e) -> (forall a e, k a <> Raise e) ->
  forall e, bind m k <> Raise e.
Proof.
  intros Hm Hk e. destruct m as [a|e'|]; simpl.
  - apply Hk.
  - exfalso. exact (Hm e' eq_refl).
  - discriminate.
Qed.




(** ** The driver loops *)

Lemma bind_Ok {A B : Type} (m : res A) (k : A -> res B) (b : B) :
  bind m k = Ok b -> exists a, m = Ok a /\ k a = Ok b.
Proof.
  destruct m as [a| |]; simpl; intros H; try discriminate.
  exists a. split; [reflexivity|assumption].
Qed.

(** What one pass of the inner loop body does to the state. *)
Lemma inner_body_Ok (self : IPM) (P : Problem) (LA : LinAlg) (fuel : nat)
      (outer inner : nat) (st st' : State) :
  inner_body self P LA fuel outer inner st = Ok st' ->
  exists dz nu1 x1 s1 lda1 delta1 lb1 x_old1 g1 alpha_smax alpha_lmax,
    search self P LA fuel (mu_host st) nu1 (x st) (s st) (lda st) dz
           alpha_smax alpha_lmax = Ok (x1, s1, lda1) /\
    (truthy (nineq P) = true ->
     step self fuel (s st) (slice (nvar P) (nvar P + nineq P) dz)
     = Ok alpha_smax /\
     step self fuel (skipn (neq P) (lda st))
          (skipn (nvar P + nineq P + neq P) dz) = Ok alpha_lmax) /\
    nu_host st <= nu1 /\
    st' = record
            {| x := x1; s := s1; lda := lda1;
               kkt := KKT self P (mu_host st) x1 s1 lda1;
               mu_host := mu_host st; nu_host := nu1; delta := delta1;
               lb := lb1; x_old := x_old1; g := g1;
               iter_count := S (iter_count st);
               outer_var := outer_var st; inner_var := inner_var st;
               trail := trail st |}.
Proof.
  unfold inner_body. intros H.
  apply bind_Ok in H. destruct H as [[[[[dz0 delta1] lb1] x_old1] g1] [_ H]].
  apply bind_Ok in H. destruct H as [[[x1 s1] lda1] [Hs H]].
  injection H as <-.
  match type of Hs with
  | context [search self P LA fuel (mu_host st) ?n (x st) (s st) (lda st)
                    ?d _ _] => set (nu1 := n) in *; set (dz := d) in *
  end.
  assert (Hnu : nu_host st <= nu1).
  { unfold nu1. destruct (constrained P); [|lra].
    destruct (Rltb (nu_host st) _) eqn:E; [|lra].
    apply Rltb_true in E. lra. }
  destruct (truthy (nineq P)) eqn:EN.
  - apply bind_Ok in Hs. destruct Hs as [a [Ha Hs]].
    apply bind_Ok in Hs. destruct Hs as [al [Hal Hs]].
    exists dz, nu1, x1, s1, lda1, delta1, lb1, x_old1, g1, a, al.
    repeat split; try assumption.
  - exists dz, nu1, x1, s1, lda1, delta1, lb1, x_old1, g1, 1, 1.
    repeat split; try assumption; discriminate.
Qed.

Lemma mu_update_Ok (self : IPM) (P : Problem) (st st' : State) :
  mu_update self P st = Ok st' ->
  (truthy (nineq P) = false /\ st' = st) \/
  (truthy (nineq P) = true /\
   exists lo,
     np_min (vmul (s st) (skipn (neq P) (lda st))) = Ok lo /\
     let m := mu_formula self P lo (s st) (lda st) in
     st' = record (set_mu (if Rltb m 0 then 0 else m) st)).
Proof.
  unfold mu_update. destruct (truthy (nineq P)).
  - intros H. apply bind_Ok in H. destruct H as [lo [Hlo H]].
    injection H as <-. right. split; [reflexivity|].
    exists lo. split; [assumption|reflexivity].
  - intros H. injection H as <-. left. split; reflexivity.
Qed.

(** Invariants of the two [for] loops. *)
Section LoopInvariant.
Variables (self : IPM) (P : Problem) (LA : LinAlg) (fuel : nat).
Variable Inv : State -> Prop.
Hypothesis Inv_bind_inner : forall i st, Inv st -> Inv (bind_inner i st).
Hypothesis Inv_bind_outer : forall o st, Inv st -> Inv (bind_outer o st).
Hypothesis Inv_body :
  forall outer inner st st',
    Inv st -> inner_body self P LA fuel outer inner st = Ok st' -> Inv st'.
Hypothesis Inv_mu :
  forall st st', Inv st -> mu_update self P st = Ok st' -> Inv st'.

Lemma inner_loop_invariant (outer k : nat) :
  forall inner st st',
    Inv st -> inner_loop self P LA fuel outer k inner st = Ok st' -> Inv st'.
Proof.
  induction k as [|k IH]; intros inner st st' HI H; simpl in H.
  - injection H as <-. assumption.
  - destruct (kkt_within _ _).
    + injection H as <-. now apply Inv_bind_inner.
    + apply bind_Ok in H. destruct H as [st2 [Hb H]].
      apply (IH (S inner) st2 st'); [|assumption].
      eapply Inv_body; [|exact Hb]. now apply Inv_bind_inner.
Qed.

Lemma outer_loop_invariant (k : nat) :
  forall outer st st',
    Inv st -> outer_loop self P LA fuel k outer st = Ok st' -> Inv st'.
Proof.
  induction k as [|k IH]; intros outer st st' HI H; simpl in H.
  - injection H as <-. assumption.
  - destruct (kkt_within _ _).
    + injection H as <-. now apply Inv_bind_outer.
    + apply bind_Ok in H. destruct H as [st2 [Hin H]].
      assert (HI2 : Inv st2).
      { eapply inner_loop_invariant; [|exact Hin].
        now apply Inv_bind_outer. }
      destruct (Nat.leb (niter self - 1) outer).
      * injection H as <-. assumption.
      * apply bind_Ok in H. destruct H as [st3 [Hmu H]].
        apply (IH (S outer) st3 st'); [|assumption].
        eapply Inv_mu; [exact HI2|exact Hmu].
Qed.
End LoopInvariant.

(** ** The barrier parameter *)

Lemma clamp_Rmax (m : R) : (if Rltb m 0 then 0 else m) = Rmax 0 m.
Proof.
  unfold Rmax. destruct (Rltb m 0) eqn:E; destruct (Rle_dec 0 m);
    try reflexivity.
  - apply Rltb_true in E. lra.
  - apply Rltb_false in E. lra.
Qed.

Lemma solve_init_Ok (self : IPM) (P : Problem) (LA : LinAlg) (x0 : vec)
      (s0 lda0 : option vec) (st0 : State) :
  solve_init self P LA x0 s0 lda0 = Ok st0 ->
  mu_host st0 = (if truthy (nineq P) then mu self else Ktol self) /\
  nu_host st0 = nu self /\
  trail st0 = [snapshot st0].
Proof.
  unfold solve_init. destruct (Nat.eqb (length x0) 0); [discriminate|].
  intros H. apply bind_Ok in H. destruct H as [lbs [_ H]].
  injection H as <-. repeat split.
Qed.

(** C6.  With inequality constraints the barrier update assigns
    [mu = 0.1 * min(0.05 (1-xi)/(xi+eps), 2)^3 * (s.lda[M:]/N)],
    [xi = N * min(s*lda[M:]) / (s.lda[M:] + eps)], clamped below at 0,
    and this update is what every outer iteration but the last ends with
    (second part); without inequality constraints mu equals Ktol at every
    recorded point of the run. *)
Theorem barrier_update_rule (self : IPM) (P : Problem) (LA : LinAlg)
        (fuel : nat) :
  (truthy (nineq P) = true ->
   forall st st',
     mu_update self P st = Ok st' ->
     exists lo,
       np_min (vmul (s st) (skipn (neq P) (lda st))) = Ok lo /\
       let comp := dot (s st) (skipn (neq P) (lda st)) in
       let xi := INR (nineq P) * lo / (comp + eps self) in
       mu_host st'
       = Rmax 0 (1 / 10 * Rmin (5 / 100 * (1 - xi) / (xi + eps self)) 2 ^ 3
                 * (comp / INR (nineq P)))) /\
  (forall k outer st st2,
     kkt_within (Ktol self) (kkt st) = false ->
     inner_loop self P LA fuel outer (miter self) 0 (bind_outer outer st)
     = Ok st2 ->
     (S outer < niter self)%nat ->
     outer_loop self P LA fuel (S k) outer st
     = (st3 <- mu_update self P st2 ;;
        outer_loop self P LA fuel k (S outer) st3)) /\
  (truthy (nineq P) = false ->
   forall x0 s0 lda0 st,
     solve_run self P LA fuel x0 s0 lda0 = Ok st ->
     mu_host st = Ktol self /\
     Forall (fun sn => sn_mu sn = Ktol self) (trail st)).
Proof.
  split; [|split].
  - intros HN st st' H.
    destruct (mu_update_Ok self P st st' H) as [[HN' _]|[_ [lo [Hlo Hst]]]];
      [congruence|].
    exists lo. split; [assumption|]. cbv zeta in Hst |- *.
    rewrite Hst. simpl. rewrite clamp_Rmax. f_equal.
    unfold mu_formula, Rdiv. ring.
  - intros k outer st st2 Hk Hin Hout. simpl.
    change (kkt (bind_outer outer st)) with (kkt st). rewrite Hk, Hin.
    simpl. replace (Nat.leb (niter self - 1) outer) with false; [reflexivity|].
    symmetry. apply Nat.leb_gt. lia.
  - intros HN x0 s0 lda0 st H. unfold solve_run in H.
    apply bind_Ok in H. destruct H as [st0 [H0 H]].
    destruct (solve_init_Ok self P LA x0 s0 lda0 st0 H0) as (Hmu & _ & Htr).
    rewrite HN in Hmu.
    apply (outer_loop_invariant self P LA fuel
             (fun st => mu_host st = Ktol self /\
                        Forall (fun sn => sn_mu sn = Ktol self) (trail st)))
      with (k := niter self) (outer := 0%nat) (st := st0);
      try assumption.
    + intros i st1 HI. exact HI.
    + intros o st1 HI. exact HI.
    + intros o i st1 st1' [HI1 HI2] Hb.
      apply inner_body_Ok in Hb.
      destruct Hb as (dz & nu1 & x1 & s1 & lda1 & d1 & lb1 & xo1 & g1 & a & al
                      & _ & _ & _ & ->).
      simpl. split; [assumption|]. constructor; assumption.
    + intros st1 st1' HI Hm.
      destruct (mu_update_Ok self P st1 st1' Hm) as [[_ ->]|[HN' _]];
        [assumption|congruence].
    + split; [assumption|]. rewrite Htr. constructor; [|constructor].
      simpl. assumption.
Qed.

(** ** A run with no inner iteration *)

Lemma box_kkt_far (mu_dev : R) :
  kkt_within (Ktol (init outer_only_args))
             (KKT (init outer_only_args) box_problem mu_dev
                  [1] [1; 1] [1; 1000]) = false.
Proof.
  assert (Hw : well_shaped box_problem [1]) by (repeat split; reflexivity).
  destruct (grad_slices (init outer_only_args) box_problem mu_dev
              [1] [1; 1] [1; 1000] Hw eq_refl eq_refl) as (S1 & _).
  unfold kkt_within, KKT.
  change (truthy (neq box_problem)) with false.
  change (truthy (nineq box_problem)) with true.
  simpl andb. cbv iota.
  cbn [nvar box_problem] in S1. rewrite S1.
  replace (Rleb _ _) with false; [reflexivity|].
  symmetry. apply Rleb_false.
  unfold block_norm, norm2.
  replace (dot _ _) with (1000 * 1000).
  - rewrite sqrt_square by lra. simpl. lra.
  - unfold primal_block, dot, vmul, vsub, mat_vec, dot, vmul. simpl. lra.
Qed.

Lemma box_mu_value :
  let self := init outer_only_args in
  (if Rltb (mu_formula self box_problem 1 [1; 1] [1; 1000]) 0 then 0
   else mu_formula self box_problem 1 [1; 1] [1; 1000]) = 4004 / 10.
Proof.
  intros self.
  assert (Hm : mu_formula self box_problem 1 [1; 1] [1; 1000] = 4004 / 10).
  { unfold mu_formula, self. simpl eps. simpl neq. simpl nineq.
    unfold skipn, dot, vmul, vsum. simpl zipWith. simpl fold_right.
    change (INR 2) with (1 + 1).
    replace (1 * 1 + (1 * 1000 + 0)) with 1001 by lra.
    set (X := / (1001 + / 8388608)).
    assert (HX : 0 < X < / 1001).
    { unfold X. split.
      - apply Rinv_0_lt_compat. lra.
      - apply Rinv_lt_contravar; lra. }
    unfold Rdiv. fold X.
    set (xi := (1 + 1) * 1 * X).
    assert (Hxi : 0 < xi < 2 / 1001) by (unfold xi; lra).
    assert (Hr : Rmin (5 * / 100 * (1 - xi) * / (xi + / 8388608)) 2 = 2).
    { apply Rmin_right.
      apply (Rmult_le_reg_r (xi + / 8388608)); [lra|].
      rewrite Rmult_assoc, Rinv_l by lra. lra. }
    rewrite Hr. lra. }
  rewrite Hm. rewrite (proj2 (Rltb_false _ _)) by lra. reflexivity.
Qed.

Lemma mu_update_kkt (self : IPM) (P : Problem) (st st' : State) :
  mu_update self P st = Ok st' ->
  kkt st' = kkt st /\ outer_var st' = outer_var st /\
  inner_var st' = inner_var st.
Proof.
  intros H. destruct (mu_update_Ok self P st st' H)
    as [[_ ->]|[_ [lo [_ ->]]]]; repeat split.
Qed.

(** With [miter = 0] and [niter = 2] a run that does not start converged
    consists of one barrier update. *)
Lemma outer_only_run (self : IPM) (P : Problem) (LA : LinAlg) (fuel : nat)
      (st0 st3 : State) :
  miter self = 0%nat -> niter self = 2%nat ->
  kkt_within (Ktol self) (kkt st0) = false ->
  mu_update self P (bind_outer 0 st0) = Ok st3 ->
  outer_loop self P LA fuel (niter self) 0 st0 = Ok (bind_outer 1 st3).
Proof.
  intros Hm Hn Hk Hmu.
  destruct (mu_update_kkt self P _ _ Hmu) as (Hk3 & _ & _).
  rewrite Hn. simpl.
  change (kkt (bind_outer 0 st0)) with (kkt st0). rewrite Hk, Hm. simpl.
  rewrite Hn. simpl. rewrite Hmu. simpl.
  change (kkt (bind_outer 1 st3)) with (kkt st3).
  rewrite Hk3. change (kkt (bind_outer 0 st0)) with (kkt st0).
  rewrite Hk. simpl. reflexivity.
Qed.

Lemma box_run (LA : LinAlg) (fuel : nat) :
  exists st,
    solve_run (init outer_only_args) box_problem LA fuel
              [1] (Some [1; 1]) (Some [1; 1000]) = Ok st /\
    map sn_mu (trail st) = [4004 / 10; 2 / 10] /\
    map sn_nu (trail st) = [10; 10] /\
    map sn_s (trail st) = [[1; 1]; [1; 1]] /\
    map sn_lda (trail st) = [[1; 1000]; [1; 1000]] /\
    kkt_within (Ktol (init outer_only_args)) (kkt st) = false.
Proof.
  unfold solve_run.
  assert (H0 : exists st0,
             solve_init (init outer_only_args) box_problem LA
                        [1] (Some [1; 1]) (Some [1; 1000]) = Ok st0 /\
             s st0 = [1; 1] /\ lda st0 = [1; 1000] /\
             mu_host st0 = 2 / 10 /\ nu_host st0 = 10 /\
             kkt st0 = KKT (init outer_only_args) box_problem (2 / 10)
                           [1] [1; 1] [1; 1000] /\
             trail st0 = [snapshot st0]).
  { eexists. split; [reflexivity|]. repeat split. }
  destruct H0 as (st0 & Hinit & Hs & Hl & Hmu & Hnu & Hk & Htr).
  rewrite Hinit. unfold bind. cbv beta iota.
  assert (Hfar : kkt_within (Ktol (init outer_only_args)) (kkt st0) = false).
  { rewrite Hk. apply box_kkt_far. }
  assert (Hupd : mu_update (init outer_only_args) box_problem
                           (bind_outer 0 st0)
                 = Ok (record (set_mu (4004 / 10) (bind_outer 0 st0)))).
  { unfold mu_update. change (truthy (nineq box_problem)) with true.
    cbv iota. change (s (bind_outer 0 st0)) with (s st0).
    change (lda (bind_outer 0 st0)) with (lda st0).
    rewrite Hs, Hl. change (neq box_problem) with 0%nat.
    unfold skipn, vmul, zipWith, np_min, fold_left, bind.
    replace (Rmin (1 * 1) (1 * 1000)) with 1
      by (rewrite Rmin_left; lra).
    rewrite box_mu_value. reflexivity. }
  rewrite (outer_only_run (init outer_only_args) box_problem LA fuel st0 _
             eq_refl eq_refl Hfar Hupd).
  eexists. split; [reflexivity|]. simpl. rewrite Htr. simpl.
  rewrite Hs, Hl, Hmu, Hnu, Hk. repeat split. apply box_kkt_far.
Qed.

(** ** The merit penalty *)




(** ** Strict interiority of the iterates *)








Lemma constrained_ineq (P : Problem) :
  truthy (nineq P) = true -> constrained P = true.
Proof. unfold constrained. intros ->. apply orb_true_r. Qed.





(** ** What [solve] returns *)

Lemma sqrt_zero_le (e t : R) : e = 0 -> 0 <= t -> Rleb (sqrt e) t = true.
Proof. intros -> Ht. rewrite sqrt_0. now apply Rleb_true. Qed.

Lemma pinned_kkt_converged (mu_dev : R) :
  kkt_within (Ktol (init default_args))
             (KKT (init default_args) pinned_problem mu_dev [0] [] [1])
  = true.
Proof.
  assert (Hw : well_shaped pinned_problem [0]) by (repeat split; reflexivity).
  destruct (grad_slices (init default_args) pinned_problem mu_dev
              [0] [] [1] Hw eq_refl eq_refl) as (S1 & _ & S3 & _).
  unfold kkt_within, KKT.
  change (truthy (neq pinned_problem)) with true.
  change (truthy (nineq pinned_problem)) with false.
  simpl andb. cbv iota.
  cbn [nvar neq nineq pinned_problem Nat.add] in S1, S3.
  rewrite S1, S3. unfold norm2.
  rewrite !sqrt_zero_le;
    first [ reflexivity
          | simpl; lra
          | unfold primal_block, dot, vmul, vsub, mat_vec, dot, vmul;
            simpl; lra ].
Qed.

(** Whatever ends the outer loop, a run that is not converged at the end
    is reported and returned normally. *)
Lemma solve_returns_unconverged (self : IPM) (P : Problem) (LA : LinAlg)
      (fuel : nat) (x0 : vec) (s0 lda0 : option vec) (st : State) :
  solve_run self P LA fuel x0 s0 lda0 = Ok st ->
  kkt_within (Ktol self) (kkt st) = false ->
  solve self P LA fuel x0 s0 lda0
  = Ok (x st, s st, lda st, f P (x st), kkt st).
Proof.
  unfold solve_run, solve. intros H Hk.
  apply bind_Ok in H. destruct H as [st0 [H0 H]].
  rewrite H0. simpl. rewrite H. simpl.
  unfold report. rewrite Hk.
  destruct (Z.leb 0 (verbosity self)), (constrained P); reflexivity.
Qed.

(** The fifth component of a returned tuple is [f] at the first, and
    the loop variables are bound only once their loop has been entered. *)
Lemma solve_returns_objective (self : IPM) (P : Problem) (LA : LinAlg)
      (fuel : nat) (x0 : vec) (s0 lda0 : option vec)
      (x1 s1 lda1 : vec) (fval : R) (k : list block) :
  solve self P LA fuel x0 s0 lda0 = Ok (x1, s1, lda1, fval, k) ->
  fval = f P x1 /\
  exists st, solve_run self P LA fuel x0 s0 lda0 = Ok st /\
             x1 = x st /\ s1 = s st /\ lda1 = lda st /\ k = kkt st.
Proof.
  unfold solve, solve_run. intros H.
  apply bind_Ok in H. destruct H as [st0 [H0 H]].
  apply bind_Ok in H. destruct H as [st [Hrun H]].
  apply bind_Ok in H. destruct H as [u [_ H]].
  injection H as <- <- <- <- <-.
  split; [reflexivity|]. exists st. rewrite H0. simpl.
  repeat split. exact Hrun.
Qed.

(** C1: the failing input.  Started at x = 0 with lda = 1 on
    "minimize x subject to x = 0", all four block norms are 0 at the first
    convergence test, the outer loop stops with [inner] never assigned,
    and building the status message raises [UnboundLocalError] instead of
    returning the tuple. *)
Theorem solve_converged_start_raises (LA : LinAlg) (fuel : nat) :
  kkt_within (Ktol (init default_args))
             (KKT (init default_args) pinned_problem
                  (Ktol (init default_args)) [0] [] [1]) = true /\
  solve (init default_args) pinned_problem LA fuel [0] None (Some [1])
  = Raise UnboundLocalError.
Proof.
  split; [apply pinned_kkt_converged|].
  unfold solve.
  assert (H0 : exists st0,
             solve_init (init default_args) pinned_problem LA
                        [0] None (Some [1]) = Ok st0 /\
             kkt st0 = KKT (init default_args) pinned_problem
                           (Ktol (init default_args)) [0] [] [1] /\
             outer_var st0 = None /\ inner_var st0 = None).
  { eexists. split; [reflexivity|]. repeat split. }
  destruct H0 as (st0 & Hinit & Hk & Ho & Hi).
  assert (Hconv : kkt_within (Ktol (init default_args)) (kkt st0) = true).
  { rewrite Hk. apply pinned_kkt_converged. }
  rewrite Hinit. unfold bind at 1. cbv beta iota.
  change (niter (init default_args)) with 10%nat.
  unfold outer_loop.
  change (kkt (bind_outer 0 st0)) with (kkt st0). rewrite Hconv.
  unfold bind at 1. cbv beta iota.
  unfold report.
  change (Z.leb 0 (verbosity (init default_args))) with true.
  change (kkt (bind_outer 0 st0)) with (kkt st0). rewrite Hconv.
  change (constrained pinned_problem) with true.
  change (inner_var (bind_outer 0 st0)) with (inner_var st0).
  rewrite Hi. reflexivity.
Qed.

Lemma inner_loop_outer_var (self : IPM) (P : Problem) (LA : LinAlg)
      (fuel outer k inner : nat) (st st' : State) (o : option nat) :
  outer_var st = o ->
  inner_loop self P LA fuel outer k inner st = Ok st' ->
  outer_var st' = o.
Proof.
  revert inner st. induction k as [|k IH]; intros inner st Ho H;
    simpl in H.
  - injection H as <-. assumption.
  - destruct (kkt_within _ _).
    + injection H as <-. assumption.
    + apply bind_Ok in H. destruct H as [st2 [Hb H]].
      apply (IH (S inner) st2); [|assumption].
      apply inner_body_Ok in Hb.
      destruct Hb as (dz & nu1 & x1 & s1 & lda1 & d1 & lb1 & xo1 & g1
                      & a & al & _ & _ & _ & ->).
      exact Ho.
Qed.

(** The outer loop is left either at a convergence test that passed or
    in its last pass, [outer = niter - 1]. *)
Lemma outer_loop_exit (self : IPM) (P : Problem) (LA : LinAlg)
      (fuel : nat) (k : nat) :
  forall outer st st',
    (0 < k)%nat -> (k + outer = niter self)%nat ->
    outer_loop self P LA fuel k outer st = Ok st' ->
    kkt_within (Ktol self) (kkt st') = true \/
    outer_var st' = Some (niter self - 1)%nat.
Proof.
  induction k as [|k IH]; intros outer st st' Hk Hsum H; [lia|].
  simpl in H.
  destruct (kkt_within (Ktol self) (kkt st)) eqn:E.
  - injection H as <-. left. exact E.
  - apply bind_Ok in H. destruct H as [st2 [Hin H]].
    pose proof (inner_loop_outer_var self P LA fuel outer (miter self) 0
                  (bind_outer outer st) st2 (Some outer) eq_refl Hin) as Ho.
    destruct (Nat.leb (niter self - 1) outer) eqn:El.
    + injection H as <-. right. rewrite Ho. f_equal.
      apply Nat.leb_le in El. lia.
    + apply Nat.leb_gt in El.
      apply bind_Ok in H. destruct H as [st3 [Hmu H]].
      apply (IH (S outer) st3 st'); [lia|lia|assumption].
Qed.

(* ================================================================== *)
(** * Further properties *)

(** ** The compiled expressions *)

Lemma dot_nil_r (u : vec) : dot u [] = 0.
Proof. unfold dot, vmul. now rewrite zipWith_nil_r. Qed.

Lemma dot_cons (a b : R) (u v : vec) :
  dot (a :: u) (b :: v) = a * b + dot u v.
Proof. reflexivity. Qed.

Lemma dot_app (u w v : vec) :
  dot (u ++ w) v
  = dot u (firstn (length u) v) + dot w (skipn (length u) v).
Proof.
  revert v. induction u as [|a u IH]; intros v; simpl.
  - unfold dot at 2. simpl. lra.
  - destruct v as [|b v]; simpl.
    + rewrite !dot_nil_r. lra.
    + rewrite !dot_cons, IH. lra.
Qed.

Lemma dot_firstn_length (u v : vec) :
  dot u (firstn (length u) v) = dot u v.
Proof.
  revert v. induction u as [|a u IH]; intros [|b v]; simpl;
    try reflexivity.
  rewrite !dot_cons, IH. reflexivity.
Qed.

Lemma dot_vneg_l (u v : vec) : dot (vneg u) v = - dot u v.
Proof.
  revert v. induction u as [|a u IH]; intros [|b v]; simpl;
    try (unfold dot; simpl; lra).
  change (vneg (a :: u)) with (- a :: vneg u).
  rewrite !dot_cons, IH. lra.
Qed.

Lemma norm1_app (u v : vec) : norm1 (u ++ v) = norm1 u + norm1 v.
Proof.
  unfold norm1, vsum. induction u as [|a u IH]; simpl; [lra|].
  rewrite IH. lra.
Qed.

Lemma norm1_nonneg (u : vec) : 0 <= norm1 u.
Proof.
  unfold norm1, vsum. induction u as [|a u IH]; simpl; [lra|].
  pose proof (Rabs_pos a). lra.
Qed.

(** The compiled constraint vector is [ce(x)] followed by [ci(x) - s]. *)
Lemma con_app (P : Problem) (x s : vec) :
  well_shaped P x ->
  length s = nineq P ->
  con P x s = ce P x ++ vsub (ci P x) s.
Proof.
  intros (_ & _ & _ & Hce & Hci) Hs.
  assert (Hlen : length (vsub (ci P x) s) = nineq P).
  { unfold vsub. rewrite zipWith_length. lia. }
  unfold con.
  set (M := neq P) in *. set (N := nineq P) in *.
  assert (Z : zeros (M + N) = [] ++ zeros M ++ zeros N).
  { unfold zeros. rewrite <- repeat_app. reflexivity. }
  assert (C1 : (if truthy M then set_subtensor 0 M (ce P x) (zeros (M + N))
                else zeros (M + N)) = ce P x ++ zeros N ++ []).
  { rewrite app_nil_r. destruct (truthy M) eqn:EM.
    - rewrite Z. apply set_subtensor_segment; [reflexivity|].
      unfold zeros. rewrite repeat_length. lia.
    - apply truthy_0 in EM.
      rewrite (length_nil_inv (ce P x)) by lia. rewrite EM. reflexivity. }
  rewrite C1. destruct (truthy N) eqn:EN.
  - rewrite set_subtensor_segment; [now rewrite app_nil_r|lia|].
    rewrite !length_app. unfold zeros. rewrite repeat_length. simpl. lia.
  - apply truthy_0 in EN.
    rewrite (length_nil_inv (vsub (ci P x) s)) by lia.
    rewrite EN. reflexivity.
Qed.

(** X1.  For an oracle returning arrays of the declared sizes the
    compiled constraint vector [con(x, s)] is [ce(x)] followed by
    [ci(x) - s]; its l1 norm, the infeasibility measure of the line
    search, is the sum of the two l1 norms. *)
Theorem con_stacked (P : Problem) (x s : vec) :
  well_shaped P x ->
  length s = nineq P ->
  con P x s = ce P x ++ vsub (ci P x) s /\
  length (con P x s) = (neq P + nineq P)%nat /\
  norm1 (con P x s) = norm1 (ce P x) + norm1 (vsub (ci P x) s).
Proof.
  intros Hw Hs. rewrite (con_app P x s Hw Hs).
  destruct Hw as (_ & _ & _ & Hce & Hci).
  repeat split.
  - rewrite length_app. unfold vsub. rewrite zipWith_length. lia.
  - apply norm1_app.
Qed.

(** Witness: the box problem at x = 1 with slacks (1, 1). *)
Lemma con_stacked_witness :
  con box_problem [1] [1; 1]
  = ce box_problem [1] ++ vsub (ci box_problem [1]) [1; 1] /\
  length (con box_problem [1] [1; 1])
  = (neq box_problem + nineq box_problem)%nat /\
  norm1 (con box_problem [1] [1; 1])
  = norm1 (ce box_problem [1]) + norm1 (vsub (ci box_problem [1]) [1; 1]).
Proof.
  apply (con_stacked box_problem [1] [1; 1]).
  - repeat split; reflexivity.
  - reflexivity.
Defined.

Lemma barrier_cost_grad_stacked (self : IPM) (P : Problem) (mu_dev : R)
      (x s : vec) :
  well_shaped P x ->
  length s = nineq P ->
  barrier_cost_grad self P mu_dev x s
  = df P x ++ vneg (div_shift self mu_dev s).
Proof.
  intros (Hdf & _) Hs. unfold barrier_cost_grad.
  set (D := nvar P) in *. set (N := nineq P) in *.
  assert (Hl : length (vneg (div_shift self mu_dev s)) = N).
  { unfold vneg, div_shift. rewrite !length_map. exact Hs. }
  assert (B0 : set_subtensor 0 D (df P x) (zeros (D + N))
               = df P x ++ zeros N ++ []).
  { rewrite app_nil_r.
    replace (zeros (D + N)) with ([] ++ zeros D ++ zeros N)
      by (unfold zeros; rewrite <- repeat_app; reflexivity).
    apply set_subtensor_segment; [reflexivity|].
    unfold zeros. rewrite repeat_length. lia. }
  rewrite B0. destruct (truthy N) eqn:EN.
  - rewrite set_subtensor_segment; [now rewrite app_nil_r|lia|].
    rewrite !length_app. unfold zeros. rewrite repeat_length. simpl. lia.
  - apply truthy_0 in EN.
    rewrite (length_nil_inv (vneg (div_shift self mu_dev s))) by lia.
    rewrite EN. reflexivity.
Qed.

(** The compiled directional derivative as barrier-cost slope minus
    penalised infeasibility. *)
Lemma dphi_split (self : IPM) (P : Problem) (mu_dev nu_dev : R)
      (x s dz : vec) :
  well_shaped P x ->
  length s = nineq P ->
  dphi self P mu_dev nu_dev x s dz
  = dot (barrier_cost_grad self P mu_dev x s) dz
    - nu_dev * norm1 (con P x s).
Proof.
  intros Hw Hs.
  rewrite (barrier_cost_grad_stacked self P mu_dev x s Hw Hs).
  rewrite (con_app P x s Hw Hs), norm1_app.
  destruct Hw as (Hdf & _ & _ & Hce & Hci).
  rewrite dot_app, Hdf, dot_vneg_l. unfold dphi.
  assert (Hci0 : nineq P = 0%nat -> norm1 (vsub (ci P x) s) = 0).
  { intros E. rewrite (length_nil_inv s) by lia.
    unfold vsub. rewrite zipWith_nil_r. reflexivity. }
  assert (Hce0 : neq P = 0%nat -> norm1 (ce P x) = 0).
  { intros E. rewrite (length_nil_inv (ce P x)) by lia. reflexivity. }
  assert (Hds0 : nineq P = 0%nat ->
                 dot (div_shift self mu_dev s) (skipn (nvar P) dz) = 0).
  { intros E. rewrite (length_nil_inv s) by lia. reflexivity. }
  destruct (truthy (neq P)) eqn:EM; destruct (truthy (nineq P)) eqn:EN;
    simpl;
    try (apply truthy_0 in EM; rewrite (Hce0 EM));
    try (apply truthy_0 in EN; rewrite (Hci0 EN), (Hds0 EN));
    lra.
Qed.

(** X2.  The compiled directional derivative of the merit function is
    the barrier-cost gradient applied to the direction minus nu times
    the l1 constraint violation,
    [dphi(x, s, dz) = barrier_cost_grad(x, s).dz - nu * |con(x, s)|_1],
    and the barrier-cost gradient is [df(x)] followed by
    [- mu / (s + eps)]. *)
Theorem dphi_decomposition (self : IPM) (P : Problem) (mu_dev nu_dev : R)
        (x s dz : vec) :
  well_shaped P x ->
  length s = nineq P ->
  dphi self P mu_dev nu_dev x s dz
  = dot (barrier_cost_grad self P mu_dev x s) dz
    - nu_dev * norm1 (con P x s) /\
  barrier_cost_grad self P mu_dev x s
  = df P x ++ map (fun si => - (mu_dev / (si + eps self))) s.
Proof.
  intros Hw Hs. split.
  - apply dphi_split; assumption.
  - rewrite (barrier_cost_grad_stacked self P mu_dev x s Hw Hs).
    unfold vneg, div_shift. rewrite map_map. reflexivity.
Qed.

(** Witness: the box problem at x = 1, s = (1, 1). *)
Lemma dphi_decomposition_witness :
  dphi (init default_args) box_problem (2 / 10) 10 [1] [1; 1] [1; 0; 0]
  = dot (barrier_cost_grad (init default_args) box_problem (2 / 10)
                           [1] [1; 1]) [1; 0; 0]
    - 10 * norm1 (con box_problem [1] [1; 1]) /\
  barrier_cost_grad (init default_args) box_problem (2 / 10) [1] [1; 1]
  = df box_problem [1]
    ++ map (fun si => - (2 / 10 / (si + eps (init default_args)))) [1; 1].
Proof.
  apply (dphi_decomposition (init default_args) box_problem (2 / 10) 10
           [1] [1; 1] [1; 0; 0]).
  - repeat split; reflexivity.
  - reflexivity.
Defined.

(** X3.  The compiled merit function is the objective, minus the log
    barrier on the slacks, plus nu times the l1 constraint violation:
    [phi(x, s) = f(x) - mu * sum(log s) + nu * |con(x, s)|_1]. *)
Theorem phi_decomposition (P : Problem) (mu_dev nu_dev : R) (x s : vec) :
  well_shaped P x ->
  length s = nineq P ->
  phi P mu_dev nu_dev x s
  = f P x - mu_dev * vsum (map ln s) + nu_dev * norm1 (con P x s).
Proof.
  intros Hw Hs.
  rewrite (con_app P x s Hw Hs), norm1_app.
  destruct Hw as (_ & _ & _ & Hce & Hci). unfold phi.
  destruct (truthy (neq P)) eqn:EM; destruct (truthy (nineq P)) eqn:EN;
    try (apply truthy_0 in EM;
         rewrite (length_nil_inv (ce P x)) by lia);
    try (apply truthy_0 in EN;
         rewrite (length_nil_inv s) by lia;
         unfold vsub; rewrite zipWith_nil_r);
    unfold norm1; simpl; lra.
Qed.

(** Witness: the box problem at x = 1, s = (1, 1). *)
Lemma phi_decomposition_witness :
  phi box_problem (2 / 10) 10 [1] [1; 1]
  = f box_problem [1] - 2 / 10 * vsum (map ln [1; 1])
    + 10 * norm1 (con box_problem [1] [1; 1]).
Proof.
  apply (phi_decomposition box_problem (2 / 10) 10 [1] [1; 1]).
  - repeat split; reflexivity.
  - reflexivity.
Defined.

(** ** The KKT matrix and the constraint Jacobian *)

Lemma nth_map_seq {A : Type} (F : nat -> A) (n i : nat) (d : A) :
  nth i (map F (seq 0 n)) d = if Nat.ltb i n then F i else d.
Proof.
  destruct (Nat.ltb_spec i n) as [Hlt|Hge].
  - rewrite (nth_indep _ d (F 0%nat)) by (rewrite length_map, length_seq; lia).
    rewrite map_nth, seq_nth by lia. reflexivity.
  - apply nth_overflow. rewrite length_map, length_seq. lia.
Qed.

Lemma entry_mk_rect (rows cols : nat) (h : nat -> nat -> R) (i j : nat) :
  entry (mk_rect rows cols h) i j
  = if Nat.ltb i rows && Nat.ltb j cols then h i j else 0.
Proof.
  unfold entry, mk_rect. rewrite nth_map_seq.
  destruct (Nat.ltb i rows); simpl.
  - apply nth_map_seq.
  - destruct j; reflexivity.
Qed.

Lemma entry_mk_matrix (n : nat) (h : nat -> nat -> R) (i j : nat) :
  entry (mk_matrix n h) i j
  = if Nat.ltb i n && Nat.ltb j n then h i j else 0.
Proof. apply (entry_mk_rect n n). Qed.

Ltac split_ltb :=
  repeat match goal with
         | |- context [Nat.ltb ?a ?b] => destruct (Nat.ltb_spec a b)
         | |- context [Nat.leb ?a ?b] => destruct (Nat.leb_spec a b)
         | |- context [Nat.eqb ?a ?b] => destruct (Nat.eqb_spec a b)
         end.

(** X4.  The compiled KKT matrix [hess] is square of order D + 2N + M
    and symmetric; its rows 0..D+N-1 carry the constraint Jacobian
    [jaco] in the columns from D+N on, its trailing (M+N) x (M+N) block
    is zero, the slack block is diagonal with entries
    [lda[M+i] / (s[i] + eps)], and the primal block reads only the upper
    triangle of the Lagrangian Hessian [d2L]. *)
Theorem hess_structure (self : IPM) (P : Problem) (x s lda : vec) :
  let D := nvar P in
  let M := neq P in
  let N := nineq P in
  let n := (D + 2 * N + M)%nat in
  let H := hess self P x s lda in
  length H = n /\
  (forall r, In r H -> length r = n) /\
  (forall i j, entry H i j = entry H j i) /\
  (forall i j, (i < D + N)%nat -> (j < M + N)%nat ->
               entry H i (D + N + j) = entry (jaco P x) i j) /\
  (forall i j, (D + N <= i)%nat -> (D + N <= j)%nat -> entry H i j = 0) /\
  (forall i j, (i < N)%nat -> (j < N)%nat ->
               entry H (D + i) (D + j)
               = if Nat.eqb i j
                 then nth (M + i) lda 0 / (nth i s 0 + eps self)
                 else 0) /\
  (forall i j, (i <= j)%nat -> (j < D)%nat ->
               entry H i j = entry (d2L P x lda) i j).
Proof.
  intros D M N n H. unfold H, hess. fold D M N. fold n.
  split; [|split; [|split; [|split; [|split; [|split]]]]].
  - unfold mk_matrix. rewrite length_map, length_seq. reflexivity.
  - intros r Hr. unfold mk_matrix in Hr. apply in_map_iff in Hr.
    destruct Hr as [i [<- _]]. rewrite length_map, length_seq. reflexivity.
  - intros i j. rewrite !entry_mk_matrix.
    rewrite (andb_comm (Nat.ltb j n)), Nat.min_comm, Nat.max_comm.
    reflexivity.
  - intros i j Hi Hj. rewrite entry_mk_matrix. unfold jaco. fold D M N.
    rewrite entry_mk_rect.
    replace (Nat.min i (D + N + j)) with i by lia.
    replace (Nat.max i (D + N + j)) with (D + N + j)%nat by lia.
    unfold hess_upper. fold D M N.
    split_ltb; simpl; try lia; try reflexivity; f_equal; lia.
  - intros i j Hi Hj. rewrite entry_mk_matrix.
    destruct (_ && _); [|reflexivity].
    unfold hess_upper. fold D M N. split_ltb; try lia; reflexivity.
  - intros i j Hi Hj. rewrite entry_mk_matrix. unfold hess_upper.
    fold D M N.
    destruct (Nat.eqb_spec i j) as [->|Hne].
    + replace (Nat.min (D + j) (D + j)) with (D + j)%nat by lia.
      replace (Nat.max (D + j) (D + j)) with (D + j)%nat by lia.
      split_ltb; simpl; try lia.
      replace (D + j - D)%nat with j by lia. reflexivity.
    + split_ltb; simpl; try lia; reflexivity.
  - intros i j Hij Hj. rewrite entry_mk_matrix.
    replace (Nat.min i j) with i by lia.
    replace (Nat.max i j) with j by lia.
    unfold hess_upper. fold D M N. split_ltb; simpl; try lia; reflexivity.
Qed.

(** ** A Newton step on the pinned problem *)

Lemma pinned_hess (x0 l0 : R) :
  hess (init default_args) pinned_problem [x0] [] [l0] = [[0; 1]; [1; 0]].
Proof. reflexivity. Qed.

Lemma swap_reghess (fuel : nat) (mu_host delta : R) (Hc : matrix) :
  reghess (init default_args) pinned_problem swap_kernel fuel mu_host delta Hc
  = Ok (Hc, delta).
Proof.
  unfold reghess.
  change (eigh swap_kernel Hc) with [-1; 1].
  unfold np_min, np_max, bind. simpl map. unfold fold_left.
  replace (Rabs (-1)) with 1 by (rewrite Rabs_left; lra).
  rewrite Rabs_R1, Rmin_left, Rmax_left by lra.
  rewrite (proj2 (Rleb_false _ _)) by (simpl; lra).
  assert (E : count_below (init default_args) [-1; 1] = 1%nat).
  { unfold count_below. simpl.
    rewrite (proj2 (Rltb_true _ _)) by lra.
    rewrite (proj2 (Rltb_false _ _)) by lra. reflexivity. }
  rewrite E. reflexivity.
Qed.

Lemma pinned_grad (mu_dev x0 l0 : R) :
  grad (init default_args) pinned_problem mu_dev [x0] [] [l0]
  = [1 - (1 * l0 + 0); x0].
Proof. reflexivity. Qed.

Lemma pinned_direction (fuel outer inner : nat) (st : State) (x0 l0 : R) :
  x st = [x0] -> s st = [] -> lda st = [l0] ->
  direction (init default_args) pinned_problem swap_kernel fuel outer inner st
  = Ok ([- x0; - (1 - (1 * l0 + 0))], delta st, lb st, x_old st,
        [- (1 - (1 * l0 + 0)); - x0]).
Proof.
  intros Hx Hs Hl. unfold direction.
  change (truthy (lbfgs (init default_args))) with false. cbv iota.
  rewrite Hx, Hs, Hl, pinned_hess, swap_reghess, pinned_grad.
  reflexivity.
Qed.

Lemma pinned_search (fuel : nat) (mu_dev : R) :
  search (init default_args) pinned_problem swap_kernel fuel mu_dev 10
         [1] [] [0] [- (1); - - (1 - (1 * 0 + 0))] 1 1
  = Ok ([1 + 1 * - (1)], [], [0 + 1 * - - (1 - (1 * 0 + 0))]).
Proof.
  unfold search. cbv zeta.
  change (truthy (nineq pinned_problem)) with false.
  change (constrained pinned_problem) with true.
  change (truthy (neq pinned_problem)) with true.
  cbv iota.
  rewrite (proj2 (Rltb_false _ _)).
  - reflexivity.
  - unfold phi, dphi. simpl. unfold norm1, dot, vsum, vmul. simpl.
    replace (1 + 1 * - (1)) with 0 by lra.
    rewrite Rabs_R0, Rabs_R1. lra.
Qed.

(** One Newton iteration of the default solver on [pinned_problem] from
    x = 1 with multiplier 0: the full step is accepted and lands on the
    solution x = 0 with multiplier 1; the penalty stays at 10. *)
Lemma pinned_inner_body (fuel outer inner : nat) (st : State) :
  x st = [1] -> s st = [] -> lda st = [0] -> nu_host st = 10 ->
  exists st',
    inner_body (init default_args) pinned_problem swap_kernel fuel outer inner
               st = Ok st' /\
    x st' = [1 + 1 * - (1)] /\ s st' = [] /\
    lda st' = [0 + 1 * - - (1 - (1 * 0 + 0))] /\
    nu_host st' = 10 /\ mu_host st' = mu_host st /\
    iter_count st' = S (iter_count st).
Proof.
  intros Hx Hs Hl Hnu. unfold inner_body.
  rewrite (pinned_direction fuel outer inner st 1 0 Hx Hs Hl).
  unfold bind. cbv beta iota zeta.
  change (constrained pinned_problem) with true.
  change (truthy (nineq pinned_problem)) with false.
  cbv iota. rewrite Hx, Hs, Hl, Hnu.
  match goal with
  | |- context [Rltb 10 ?t] =>
      assert (E : Rltb 10 t = false);
      [ apply Rltb_false; simpl;
        unfold norm1, dot, vsum, vmul; simpl; rewrite Rabs_R1; lra
      | rewrite E ]
  end.
  change (firstn (nvar pinned_problem + nineq pinned_problem)
            [- (1); - (1 - (1 * 0 + 0))] ++
          vneg (skipn (nvar pinned_problem + nineq pinned_problem)
                  [- (1); - (1 - (1 * 0 + 0))]))
    with [- (1); - - (1 - (1 * 0 + 0))].
  rewrite pinned_search. eexists. split; [reflexivity|].
  simpl. repeat split.
Qed.

(** ** The penalty update of an inner iteration *)

(** The inner body with its penalty update spelled out. *)
Lemma inner_body_penalty (self : IPM) (P : Problem) (LA : LinAlg)
      (fuel outer inner : nat) (st st' : State) :
  inner_body self P LA fuel outer inner st = Ok st' ->
  exists dz alpha_smax alpha_lmax,
    let nu_thres :=
      dot (barrier_cost_grad self P (mu_host st) (x st) (s st))
          (firstn (nvar P + nineq P) dz)
      / (1 - rho self) / norm1 (con P (x st) (s st)) in
    nu_host st'
    = (if constrained P
       then (if Rltb (nu_host st) nu_thres then nu_thres else nu_host st)
       else nu_host st) /\
    mu_host st' = mu_host st /\
    iter_count st' = S (iter_count st) /\
    kkt st' = KKT self P (mu_host st) (x st') (s st') (lda st') /\
    search self P LA fuel (mu_host st) (nu_host st') (x st) (s st) (lda st)
           dz alpha_smax alpha_lmax = Ok (x st', s st', lda st').
Proof.
  unfold inner_body. intros H.
  apply bind_Ok in H. destruct H as [[[[[dz0 delta1] lb1] x_old1] g1] [_ H]].
  apply bind_Ok in H. destruct H as [[[x1 s1] lda1] [Hs H]].
  injection H as <-.
  match type of Hs with
  | context [search self P LA fuel (mu_host st) ?n (x st) (s st) (lda st)
                    ?d _ _] => set (nu1 := n) in *; set (dz := d) in *
  end.
  destruct (truthy (nineq P)) eqn:EN.
  - apply bind_Ok in Hs. destruct Hs as [a [Ha Hs]].
    apply bind_Ok in Hs. destruct Hs as [al [Hal Hs]].
    exists dz, a, al. simpl. repeat split. exact Hs.
  - exists dz, 1, 1. simpl. repeat split. exact Hs.
Qed.

(** X5.  With constraints present, rho < 1 and a positive l1 violation
    at the current iterate, the penalty nu left by an inner iteration
    makes the direction it searched along a descent direction of the
    merit function: the compiled [dphi] there is at most
    [- rho * nu * |con|_1]. *)
Theorem penalty_gives_descent (self : IPM) (P : Problem) (LA : LinAlg)
        (fuel outer inner : nat) (st st' : State) :
  constrained P = true ->
  rho self < 1 ->
  0 < norm1 (con P (x st) (s st)) ->
  well_shaped P (x st) ->
  length (s st) = nineq P ->
  inner_body self P LA fuel outer inner st = Ok st' ->
  exists dz alpha_smax alpha_lmax,
    search self P LA fuel (mu_host st) (nu_host st') (x st) (s st) (lda st)
           dz alpha_smax alpha_lmax = Ok (x st', s st', lda st') /\
    dphi self P (mu_host st) (nu_host st') (x st) (s st)
         (firstn (nvar P + nineq P) dz)
    <= - rho self * nu_host st' * norm1 (con P (x st) (s st)).
Proof.
  intros Hc Hrho Hcon Hw Hs Hb.
  destruct (inner_body_penalty self P LA fuel outer inner st st' Hb)
    as (dz & a & al & Hnu & _ & _ & _ & Hsearch).
  exists dz, a, al. split; [exact Hsearch|].
  rewrite (dphi_split self P _ _ _ _ _ Hw Hs).
  cbv zeta in Hnu. rewrite Hc in Hnu.
  set (B := dot (barrier_cost_grad self P (mu_host st) (x st) (s st))
                (firstn (nvar P + nineq P) dz)) in *.
  set (C := norm1 (con P (x st) (s st))) in *.
  assert (Hthres : B / (1 - rho self) / C <= nu_host st').
  { rewrite Hnu. destruct (Rltb (nu_host st) _) eqn:E; [lra|].
    apply Rltb_false in E. exact E. }
  assert (HB : B <= nu_host st' * ((1 - rho self) * C)).
  { assert (Hpos : 0 < (1 - rho self) * C) by nra.
    apply (Rmult_le_compat_r ((1 - rho self) * C)) in Hthres; [|lra].
    replace (B / (1 - rho self) / C * ((1 - rho self) * C)) with B
      in Hthres by (field; lra).
    exact Hthres. }
  nra.
Qed.

(** ** The line search as Armijo backtracking *)

(** [backtrack] stops at the first power of tau that passes the Armijo
    test, and scales both step lengths by that same power. *)
Lemma backtrack_first_pass (self : IPM) (merit : R -> R) (phi0 dphi0 : R)
      (fuel : nat) :
  forall a al a' al',
    backtrack self fuel merit phi0 dphi0 a al = Ok (a', al') ->
    exists k,
      (k <= fuel)%nat /\
      a' = a * tau self ^ k /\ al' = al * tau self ^ k /\
      merit a' <= phi0 + a' * eta self * dphi0 /\
      forall j, (j < k)%nat ->
        phi0 + a * tau self ^ j * eta self * dphi0
        < merit (a * tau self ^ j).
Proof.
  induction fuel as [|fuel IH]; intros a al a' al' H; simpl in H;
    destruct (Rltb (phi0 + a * eta self * dphi0) (merit a)) eqn:E;
    try discriminate.
  - injection H as <- <-. apply Rltb_false in E.
    exists 0%nat. simpl. repeat split; try lra; try lia.
  - apply IH in H. destruct H as (k & Hk & Ha & Hal & Hm & Hfail).
    exists (S k). simpl. repeat split; try lia.
    + rewrite Ha. ring.
    + rewrite Hal. ring.
    + exact Hm.
    + intros [|j] Hj; simpl.
      * apply Rltb_true in E. replace (a * 1) with a by ring. exact E.
      * replace (a * (tau self * tau self ^ j))
          with (a * tau self * tau self ^ j) by ring.
        apply Hfail. lia.
  - injection H as <- <-. apply Rltb_false in E.
    exists 0%nat. simpl. repeat split; try lra; try lia.
Qed.

(** The step lengths left by the backtracking part of [search]: the
    trial lengths when the first Armijo test passes, else the loop
    started one factor tau further down. *)
Lemma search_lengths_first_pass (self : IPM) (merit : R -> R)
      (phi0 dphi0 : R) (fuel : nat) (a al a' al' : R) :
  (if Rltb (phi0 + a * eta self * dphi0) (merit a)
   then backtrack self fuel merit phi0 dphi0 (a * tau self) (al * tau self)
   else Ok (a, al)) = Ok (a', al') ->
  exists k,
    (k <= S fuel)%nat /\
    a' = a * tau self ^ k /\ al' = al * tau self ^ k /\
    merit a' <= phi0 + a' * eta self * dphi0 /\
    forall j, (j < k)%nat ->
      phi0 + a * tau self ^ j * eta self * dphi0 < merit (a * tau self ^ j).
Proof.
  destruct (Rltb (phi0 + a * eta self * dphi0) (merit a)) eqn:E; intros H.
  - apply backtrack_first_pass in H.
    destruct H as (k & Hk & Ha & Hal & Hm & Hfail).
    exists (S k). simpl. repeat split; try lia.
    + rewrite Ha. ring.
    + rewrite Hal. ring.
    + exact Hm.
    + intros [|j] Hj; simpl.
      * apply Rltb_true in E. replace (a * 1) with a by ring. exact E.
      * replace (a * (tau self * tau self ^ j))
          with (a * tau self * tau self ^ j) by ring.
        apply Hfail. lia.
  - injection H as <- <-. apply Rltb_false in E.
    exists 0%nat. simpl. repeat split; try lra; try lia.
Qed.

(** X6.  If the trial point at the capped step lengths already passes
    the Armijo test, [search] returns exactly that trial point, for
    every loop budget and whatever the linear solver would do. *)
Theorem search_accepts_trial (self : IPM) (P : Problem) (LA : LinAlg)
        (fuel : nat) (mu_dev nu_dev : R) (x0 s0 lda0 dz : vec)
        (alpha_smax alpha_lmax : R) :
  let D := nvar P in
  let N := nineq P in
  let x1 := vadd x0 (vscale alpha_smax (firstn D dz)) in
  let s1 := if truthy N
            then vadd s0 (vscale alpha_smax (slice D (D + N) dz))
            else s0 in
  let lda1 := if constrained P
              then vadd lda0 (vscale alpha_lmax (skipn (D + N) dz))
              else lda0 in
  phi P mu_dev nu_dev x1 s1
  <= phi P mu_dev nu_dev x0 s0
     + alpha_smax * eta self
       * dphi self P mu_dev nu_dev x0 s0 (firstn (D + N) dz) ->
  search self P LA fuel mu_dev nu_dev x0 s0 lda0 dz alpha_smax alpha_lmax
  = Ok (x1, s1, lda1).
Proof.
  intros D N x1 s1 lda1 Harm. subst x1 s1 lda1 D N.
  unfold search. cbv zeta.
  destruct (truthy (nineq P)) eqn:EN.
  - assert (Hc : constrained P = true) by (apply constrained_ineq; exact EN).
    rewrite Hc. rewrite (proj2 (Rltb_false _ _) Harm).
    unfold bind. reflexivity.
  - rewrite (proj2 (Rltb_false _ _) Harm).
    unfold bind. destruct (constrained P); reflexivity.
Qed.

(** Witness: the full Newton step of [pinned_problem] from x = 1. *)
Lemma search_accepts_trial_witness :
  search (init default_args) pinned_problem swap_kernel 0 (1 / 10000) 10
         [1] [] [0] [-1; 1] 1 1
  = Ok ([1 + 1 * -1], [], [0 + 1 * 1]).
Proof.
  apply (search_accepts_trial (init default_args) pinned_problem swap_kernel
           0 (1 / 10000) 10 [1] [] [0] [-1; 1] 1 1).
  unfold phi, dphi. simpl. unfold norm1, dot, vsum, vmul. simpl.
  replace (1 + 1 * -1) with 0 by lra.
  rewrite Rabs_R0, Rabs_R1. lra.
Defined.

(** X7.  Without constraints [search] is Armijo backtracking on the
    objective alone: it returns [x0 + alpha * tau^k * dx] for the first
    k with [f(x) <= f(x0) + alpha*tau^k * eta * df(x0).dx], and hands
    back the slacks and multipliers it was given. *)
Theorem search_unconstrained_armijo (self : IPM) (P : Problem) (LA : LinAlg)
        (fuel : nat) (mu_dev nu_dev : R) (x0 s0 lda0 dz : vec)
        (alpha_smax alpha_lmax : R) (x1 s1 lda1 : vec) :
  constrained P = false ->
  search self P LA fuel mu_dev nu_dev x0 s0 lda0 dz alpha_smax alpha_lmax
  = Ok (x1, s1, lda1) ->
  let dx := firstn (nvar P) dz in
  let slope := dot (df P x0) dx in
  s1 = s0 /\ lda1 = lda0 /\
  exists k,
    (k <= S fuel)%nat /\
    x1 = vadd x0 (vscale (alpha_smax * tau self ^ k) dx) /\
    f P x1 <= f P x0 + alpha_smax * tau self ^ k * eta self * slope /\
    forall j, (j < k)%nat ->
      f P x0 + alpha_smax * tau self ^ j * eta self * slope
      < f P (vadd x0 (vscale (alpha_smax * tau self ^ j) dx)).
Proof.
  intros Hc H dx slope. unfold search in H. cbv zeta in H.
  unfold constrained in Hc. apply orb_false_iff in Hc.
  destruct Hc as [EM EN].
  unfold constrained in H. rewrite EN, EM in H.
  cbn [orb andb] in H.
  assert (Hphi : forall y, phi P mu_dev nu_dev y s0 = f P y).
  { intros y. unfold phi. rewrite EN, EM. reflexivity. }
  assert (Hd : dphi self P mu_dev nu_dev x0 s0
                 (firstn (nvar P + nineq P) dz) = slope).
  { unfold dphi. rewrite EN, EM. cbn [andb].
    apply truthy_0 in EN. rewrite EN, Nat.add_0_r, firstn_firstn, Nat.min_id.
    reflexivity. }
  rewrite Hd in H.
  assert (Hcorr : forall b : bool,
            (if b then @None (vec * R) else None) = None)
    by (intros []; reflexivity).
  rewrite Hcorr in H.
  apply bind_Ok in H. destruct H as [[a al] [Hb H]].
  injection H as <- <- <-.
  apply (search_lengths_first_pass self
           (fun t => phi P mu_dev nu_dev
                         (vadd x0 (vscale t (firstn (nvar P) dz))) s0))
    in Hb.
  destruct Hb as (k & Hk & Ha & _ & Hm & Hfail).
  cbv beta in Hm, Hfail.
  repeat split. exists k. rewrite !Hphi in Hm. subst a.
  repeat split; try assumption.
  intros j Hj. specialize (Hfail j Hj). rewrite !Hphi in Hfail. exact Hfail.
Qed.

(** Witness: the Newton step of [square_problem] from x = 1. *)
Lemma search_unconstrained_armijo_witness :
  [] = @nil R /\ [] = @nil R /\
  exists k,
    (k <= 1)%nat /\
    [1 + 1 * -1]
    = vadd [1] (vscale (1 * tau (init default_args) ^ k)
                       (firstn (nvar square_problem) [-1])) /\
    f square_problem [1 + 1 * -1]
    <= f square_problem [1]
       + 1 * tau (init default_args) ^ k * eta (init default_args)
         * dot (df square_problem [1]) (firstn (nvar square_problem) [-1]) /\
    forall j, (j < k)%nat ->
      f square_problem [1]
      + 1 * tau (init default_args) ^ j * eta (init default_args)
        * dot (df square_problem [1]) (firstn (nvar square_problem) [-1])
      < f square_problem
          (vadd [1] (vscale (1 * tau (init default_args) ^ j)
                            (firstn (nvar square_problem) [-1]))).
Proof.
  apply (search_unconstrained_armijo (init default_args) square_problem
           diag_kernel 0 (1 / 10000) 10 [1] [] [] [-1] 1 1
           [1 + 1 * -1] [] []).
  - reflexivity.
  - unfold search. cbv zeta.
    change (truthy (nineq square_problem)) with false.
    change (truthy (neq square_problem)) with false.
    change (constrained square_problem) with false.
    cbv iota.
    rewrite (proj2 (Rltb_false _ _)); [reflexivity|].
    unfold phi, dphi. simpl. unfold dot, vsum, vmul. simpl. lra.
Defined.


Lemma pinned_start_init :
  solve_init (init default_args) pinned_problem swap_kernel [1] None
             (Some [0])
  = Ok (record
          {| x := [1]; s := []; lda := [0];
             kkt := KKT (init default_args) pinned_problem
                        (Ktol (init default_args)) [1] [] [0];
             mu_host := Ktol (init default_args);
             nu_host := nu (init default_args);
             delta := 0; lb := None; x_old := []; g := [];
             iter_count := 0; outer_var := None; inner_var := None;
             trail := [] |}).
Proof. reflexivity. Qed.

(** Witness for X5: the first inner iteration on [pinned_problem]. *)
Lemma penalty_gives_descent_witness :
  exists st' dz alpha_smax alpha_lmax,
    search (init default_args) pinned_problem swap_kernel 0
           (mu_host pinned_start) (nu_host st')
           (x pinned_start) (s pinned_start) (lda pinned_start)
           dz alpha_smax alpha_lmax
    = Ok (x st', s st', lda st') /\
    dphi (init default_args) pinned_problem (mu_host pinned_start)
         (nu_host st') (x pinned_start) (s pinned_start)
         (firstn (nvar pinned_problem + nineq pinned_problem) dz)
    <= - rho (init default_args) * nu_host st'
       * norm1 (con pinned_problem (x pinned_start) (s pinned_start)).
Proof.
  destruct (pinned_inner_body 0 0 0 pinned_start
              eq_refl eq_refl eq_refl eq_refl) as (st' & Hb & _).
  exists st'.
  apply (penalty_gives_descent (init default_args) pinned_problem
           swap_kernel 0 0 0 pinned_start st').
  - reflexivity.
  - simpl. lra.
  - simpl. unfold norm1, vsum. simpl. rewrite Rabs_R1. lra.
  - repeat split; reflexivity.
  - reflexivity.
  - exact Hb.
Defined.


(** ** The net effect of the Hessian regularisation *)

Lemma add_at_add_at (i : nat) (c1 c2 : R) :
  forall r, add_at i c2 (add_at i c1 r) = add_at i (c1 + c2) r.
Proof.
  unfold add_at. induction i as [|i IH]; intros [|a r]; simpl;
    try reflexivity.
  - f_equal. ring.
  - f_equal. apply IH.
Qed.

Lemma add_diag_from_compose (lo hi : nat) (c1 c2 : R) (A : matrix) :
  forall i,
    add_diag_from i lo hi c2 (add_diag_from i lo hi c1 A)
    = add_diag_from i lo hi (c1 + c2) A.
Proof.
  induction A as [|r A IH]; intros i; simpl; [reflexivity|].
  rewrite IH. f_equal.
  destruct (Nat.leb lo i && Nat.ltb i hi); [apply add_at_add_at|reflexivity].
Qed.

Lemma add_diag_compose (lo hi : nat) (c1 c2 : R) (A : matrix) :
  add_diag lo hi c2 (add_diag lo hi c1 A) = add_diag lo hi (c1 + c2) A.
Proof. apply add_diag_from_compose. Qed.

(** The loop keeps the matrix equal to its base plus the current
    [delta] on the primal diagonal, and multiplies [delta] by ten per
    pass. *)
Lemma reghess_loop_shift (self : IPM) (P : Problem) (LA : LinAlg)
      (Hb : matrix) (fuel : nat) :
  forall (d : R) (H' : matrix) (d' : R),
    reghess_loop self P LA fuel (add_diag 0 (nvar P) d Hb) d = Ok (H', d') ->
    exists k,
      (k <= fuel)%nat /\ d' = d * 10 ^ k /\
      H' = add_diag 0 (nvar P) d' Hb.
Proof.
  induction fuel as [|fuel IH]; intros d H' d' Hrun; simpl in Hrun;
    destruct (Nat.eqb (neq P + nineq P) _); try discriminate.
  - injection Hrun as <- <-. exists 0%nat. simpl.
    repeat split; [lia|ring].
  - injection Hrun as <- <-. exists 0%nat. simpl.
    repeat split; [lia|ring].
  - rewrite !add_diag_compose in Hrun.
    replace (d + (- d + d * 10)) with (d * 10) in Hrun by ring.
    apply IH in Hrun. destruct Hrun as (k & Hk & -> & ->).
    exists (S k). simpl. repeat split; [lia|ring].
Qed.

(** X9.  What a returning [reghess] hands back.  Either the matrix and
    the offset as given; or the matrix with one net shift on its primal
    diagonal, equal to the returned offset, which is the starting offset
    ([delta0], or the larger of [delta0] and half the previous offset)
    times a power of ten -- on top of the equality block's shift
    [- reg_coef * eta * mu^beta] when there are equality constraints. *)
Theorem reghess_net_shift (self : IPM) (P : Problem) (LA : LinAlg)
        (fuel : nat) (mu_host delta : R) (Hc H' : matrix) (delta' : R) :
  reghess self P LA fuel mu_host delta Hc = Ok (H', delta') ->
  let D := nvar P in
  let ind1 := (nvar P + nineq P)%nat in
  let delta1 := if Req_dec_T delta 0 then delta0 self
                else Rmax (delta / 2) (delta0 self) in
  (H' = Hc /\ delta' = delta)
  \/
  (exists k,
      (k <= fuel)%nat /\ delta' = delta1 * 10 ^ k /\
      (H' = add_diag 0 D delta' Hc
       \/ (neq P <> 0%nat /\
           H' = add_diag 0 D delta'
                  (add_diag ind1 (ind1 + neq P)
                     (- (reg_coef self * eta self
                         * power mu_host (beta self))) Hc)))).
Proof.
  intros Hrun D ind1 delta1. unfold reghess in Hrun. cbv zeta in Hrun.
  apply bind_Ok in Hrun. destruct Hrun as [lo [_ Hrun]].
  apply bind_Ok in Hrun. destruct Hrun as [hi [_ Hrun]].
  destruct (Rleb (lo / hi) (eps self)
            || negb (Nat.eqb (neq P + nineq P)
                       (count_below self (eigh LA Hc)))).
  - right. apply reghess_loop_shift in Hrun.
    destruct Hrun as (k & Hk & Hd & HH).
    exists k. fold delta1 in Hd. repeat split; try assumption.
    destruct (Rleb (lo / hi) (eps self) && truthy (neq P)) eqn:E.
    + right. apply andb_true_iff in E. destruct E as [_ E].
      split; [|exact HH].
      intros E0. rewrite E0 in E. discriminate.
    + left. exact HH.
  - left. injection Hrun as <- <-. split; reflexivity.
Qed.

Lemma sqrt_eps_lower : / 4096 < sqrt (/ 8388608).
Proof.
  rewrite <- (sqrt_square (/ 4096)) at 1 by lra.
  apply sqrt_lt_1; lra.
Qed.

(** A regularising call: the 1 x 1 matrix (-2^-12) has its one
    eigenvalue below -eps, the offset starts at [delta0 = sqrt eps] and
    that already lifts the eigenvalue above -eps. *)
Lemma small_reghess :
  reghess (init default_args) square_problem diag_kernel 0 (2 / 10) 0
          [[- / 4096]]
  = Ok ([[- / 4096 + sqrt (/ 8388608)]], sqrt (/ 8388608)).
Proof.
  pose proof sqrt_eps_lower as Hs.
  unfold reghess.
  change (eigh diag_kernel [[- / 4096]]) with [- / 4096].
  unfold np_min, np_max, bind. simpl map. unfold fold_left.
  rewrite Rabs_Ropp, (Rabs_right (/ 4096)) by lra.
  rewrite (proj2 (Rleb_false _ _))
    by (simpl; replace (/ 4096 / / 4096) with 1 by (field; lra); lra).
  assert (E : count_below (init default_args) [- / 4096] = 1%nat).
  { unfold count_below. simpl.
    rewrite (proj2 (Rltb_true _ _)) by lra. reflexivity. }
  rewrite E. cbn [Nat.eqb neq nineq square_problem Nat.add negb orb andb].
  destruct (Req_dec_T 0 0) as [_|n]; [|exfalso; apply n; reflexivity].
  change (delta0 (init default_args)) with (sqrt (/ 8388608)).
  change (add_diag 0 (nvar square_problem) (sqrt (/ 8388608)) [[- / 4096]])
    with [[- / 4096 + sqrt (/ 8388608)]].
  unfold reghess_loop.
  change (eigh diag_kernel [[- / 4096 + sqrt (/ 8388608)]])
    with [- / 4096 + sqrt (/ 8388608)].
  assert (E2 : count_below (init default_args)
                 [- / 4096 + sqrt (/ 8388608)] = 0%nat).
  { unfold count_below. simpl.
    rewrite (proj2 (Rltb_false _ _)) by lra. reflexivity. }
  rewrite E2. reflexivity.
Qed.

(** Witness: the regularising call above. *)
Lemma reghess_net_shift_witness :
  ([[- / 4096 + sqrt (/ 8388608)]] = [[- / 4096]] /\
   sqrt (/ 8388608) = 0)
  \/
  (exists k,
      (k <= 0)%nat /\
      sqrt (/ 8388608)
      = (if Req_dec_T 0 0 then delta0 (init default_args)
         else Rmax (0 / 2) (delta0 (init default_args))) * 10 ^ k /\
      ([[- / 4096 + sqrt (/ 8388608)]]
       = add_diag 0 (nvar square_problem) (sqrt (/ 8388608)) [[- / 4096]]
       \/ (neq square_problem <> 0%nat /\
           [[- / 4096 + sqrt (/ 8388608)]]
           = add_diag 0 (nvar square_problem) (sqrt (/ 8388608))
               (add_diag (nvar square_problem + nineq square_problem)
                  (nvar square_problem + nineq square_problem
                   + neq square_problem)
                  (- (reg_coef (init default_args) * eta (init default_args)
                      * power (2 / 10) (beta (init default_args))))
                  [[- / 4096]])))).
Proof.
  apply (reghess_net_shift (init default_args) square_problem diag_kernel
           0 (2 / 10) 0 [[- / 4096]]
           [[- / 4096 + sqrt (/ 8388608)]] (sqrt (/ 8388608))).
  exact small_reghess.
Defined.

(** ** Which exceptions leave [solve] *)

Lemma bind_Raise {A B : Type} (m : res A) (k : A -> res B) (e : exn) :
  bind m k = Raise e -> m = Raise e \/ exists a, m = Ok a /\ k a = Raise e.
Proof.
  destruct m as [a|e'|]; simpl; intros H; try discriminate.
  - right. exists a. split; [reflexivity|assumption].
  - left. injection H as ->. reflexivity.
Qed.

Lemma np_min_Raise (v : vec) (e : exn) : np_min v = Raise e -> e = ValueError.
Proof. destruct v; simpl; intros H; [injection H as <-|]; easy. Qed.

Lemma np_max_Raise (v : vec) (e : exn) : np_max v = Raise e -> e = ValueError.
Proof. destruct v; simpl; intros H; [injection H as <-|]; easy. Qed.

Lemma reghess_loop_no_raise (self : IPM) (P : Problem) (LA : LinAlg)
      (fuel : nat) :
  forall (Hc : matrix) (delta : R) (e : exn),
    reghess_loop self P LA fuel Hc delta <> Raise e.
Proof.
  induction fuel as [|fuel IH]; intros Hc delta e; simpl;
    destruct (Nat.eqb _ _); try discriminate.
  apply IH.
Qed.

Lemma reghess_Raise (self : IPM) (P : Problem) (LA : LinAlg) (fuel : nat)
      (mu_host delta : R) (Hc : matrix) (e : exn) :
  reghess self P LA fuel mu_host delta Hc = Raise e -> e = ValueError.
Proof.
  unfold reghess. intros H.
  apply bind_Raise in H. destruct H as [H|[lo [_ H]]];
    [now apply np_min_Raise in H|].
  apply bind_Raise in H. destruct H as [H|[hi [_ H]]];
    [now apply np_max_Raise in H|].
  destruct (_ || _); [|discriminate].
  exfalso. exact (reghess_loop_no_raise _ _ _ _ _ _ _ H).
Qed.

Lemma lbfgs_init_Raise (self : IPM) (P : Problem) (e : exn) :
  lbfgs_init self P = Raise e -> e = AttributeError.
Proof.
  unfold lbfgs_init. destruct (lbfgs_zeta self); intros H;
    [discriminate|]. now injection H as <-.
Qed.

Lemma lbfgs_update_Raise (self : IPM) (P : Problem)
      (x_old x_new g_old g_new : vec) (lb : LBFGS) (e : exn) :
  lbfgs_update self P x_old x_new g_old g_new lb = Raise e ->
  e = AttributeError.
Proof.
  unfold lbfgs_update.
  destruct (_ && _); [apply lbfgs_init_Raise|discriminate].
Qed.

(** The exceptions of the loops come from the linear algebra and from
    [np.min] / [np.max] of an empty array, or from a missing attribute;
    never from an assertion or an unbound local. *)
Lemma direction_Raise (self : IPM) (P : Problem) (LA : LinAlg)
      (fuel outer inner : nat) (st : State) (e : exn) :
  direction self P LA fuel outer inner st = Raise e ->
  e <> UnboundLocalError /\ e <> AssertionError.
Proof.
  unfold direction. destruct (truthy (lbfgs self)).
  - destruct (lb st) as [lb0|]; [|intros H; injection H as <-; easy].
    intros H. apply bind_Raise in H.
    destruct H as [H|[[[lb1 xo1] g1] [_ H]]].
    + destruct (_ || _); [|discriminate].
      apply bind_Raise in H. destruct H as [H|[lb1 [_ H]]]; [|discriminate].
      apply lbfgs_update_Raise in H. subst e. easy.
    + destruct (lbfgs_dir LA _ _ _ _ _ _ _ _ _ _); [discriminate|].
      injection H as <-. easy.
  - intros H. apply bind_Raise in H. destruct H as [H|[[Hc d1] [_ H]]].
    + apply reghess_Raise in H. subst e. easy.
    + destruct (sym_solve LA Hc _); [discriminate|].
      injection H as <-. easy.
Qed.

Lemma search_never_raises (self : IPM) (P : Problem) (LA : LinAlg)
      (fuel : nat) (mu_dev nu_dev : R) (x0 s0 lda0 dz : vec)
      (alpha_smax alpha_lmax : R) (e : exn) :
  search self P LA fuel mu_dev nu_dev x0 s0 lda0 dz alpha_smax alpha_lmax
  <> Raise e.
Proof.
  unfold search. destruct (truthy (nineq P)).
  - apply bind_no_raise.
    + intros e'.
      repeat match goal with
             | |- (if ?b then _ else _) <> _ => destruct b
             end; try discriminate.
      apply bind_no_raise; [intros e''; apply step_no_raise|].
      intros ac e''. destruct (Rleb _ _); discriminate.
    + intros [[dz_p ac]|] e'; [discriminate|].
      apply bind_no_raise.
      * intros e''. destruct (Rltb _ _); [|discriminate].
        apply backtrack_no_raise.
      * intros [a' al'] e''. discriminate.
  - match goal with
    | |- match ?c with _ => _ end <> _ => destruct c as [[dz_p ac]|]
    end; [discriminate|].
    apply bind_no_raise.
    + intros e''. destruct (Rltb _ _); [|discriminate].
      apply backtrack_no_raise.
    + intros [a' al'] e''. discriminate.
Qed.

Lemma inner_body_Raise (self : IPM) (P : Problem) (LA : LinAlg)
      (fuel outer inner : nat) (st : State) (e : exn) :
  inner_body self P LA fuel outer inner st = Raise e ->
  e <> UnboundLocalError /\ e <> AssertionError.
Proof.
  unfold inner_body. intros H.
  apply bind_Raise in H.
  destruct H as [H|[[[[[dz0 d1] lb1] xo1] g1] [_ H]]];
    [now apply direction_Raise in H|].
  apply bind_Raise in H. destruct H as [H|[[[x1 s1] lda1] [_ H]]];
    [|discriminate].
  exfalso. destruct (truthy (nineq P)).
  - apply bind_Raise in H. destruct H as [H|[a [_ H]]];
      [exact (step_no_raise _ _ _ _ _ H)|].
    apply bind_Raise in H. destruct H as [H|[al [_ H]]];
      [exact (step_no_raise _ _ _ _ _ H)|].
    exact (search_never_raises _ _ _ _ _ _ _ _ _ _ _ _ _ H).
  - exact (search_never_raises _ _ _ _ _ _ _ _ _ _ _ _ _ H).
Qed.

Lemma inner_loop_Raise (self : IPM) (P : Problem) (LA : LinAlg)
      (fuel outer : nat) (k : nat) :
  forall (inner : nat) (st : State) (e : exn),
    inner_loop self P LA fuel outer k inner st = Raise e ->
    e <> UnboundLocalError /\ e <> AssertionError.
Proof.
  induction k as [|k IH]; intros inner st e H; simpl in H;
    [discriminate|].
  destruct (kkt_within _ _); [discriminate|].
  apply bind_Raise in H. destruct H as [H|[st2 [_ H]]].
  - now apply inner_body_Raise in H.
  - now apply IH in H.
Qed.

Lemma mu_update_Raise (self : IPM) (P : Problem) (st : State) (e : exn) :
  mu_update self P st = Raise e -> e = ValueError.
Proof.
  unfold mu_update. destruct (truthy (nineq P)); [|discriminate].
  intros H. apply bind_Raise in H. destruct H as [H|[lo [_ H]]];
    [now apply np_min_Raise in H|discriminate].
Qed.

Lemma outer_loop_Raise (self : IPM) (P : Problem) (LA : LinAlg)
      (fuel : nat) (k : nat) :
  forall (outer : nat) (st : State) (e : exn),
    outer_loop self P LA fuel k outer st = Raise e ->
    e <> UnboundLocalError /\ e <> AssertionError.
Proof.
  induction k as [|k IH]; intros outer st e H; simpl in H;
    [discriminate|].
  destruct (kkt_within _ _); [discriminate|].
  apply bind_Raise in H. destruct H as [H|[st2 [_ H]]].
  - now apply inner_loop_Raise in H.
  - destruct (Nat.leb _ _); [discriminate|].
    apply bind_Raise in H. destruct H as [H|[st3 [_ H]]].
    + apply mu_update_Raise in H. subst e. easy.
    + now apply IH in H.
Qed.

(** What [solve_init] leaves in the state, and when it raises. *)
Lemma solve_init_fresh (self : IPM) (P : Problem) (LA : LinAlg) (x0 : vec)
      (s0 lda0 : option vec) (st0 : State) :
  solve_init self P LA x0 s0 lda0 = Ok st0 ->
  x0 <> [] /\ x st0 = x0 /\ iter_count st0 = 0%nat /\
  outer_var st0 = None /\ inner_var st0 = None.
Proof.
  unfold solve_init. destruct x0 as [|a x0]; [discriminate|].
  simpl Nat.eqb. cbv iota.
  intros H. apply bind_Ok in H. destruct H as [lbs [_ H]].
  injection H as <-. repeat split. discriminate.
Qed.

Lemma solve_init_Raise (self : IPM) (P : Problem) (LA : LinAlg) (x0 : vec)
      (s0 lda0 : option vec) (e : exn) :
  solve_init self P LA x0 s0 lda0 = Raise e ->
  (e = AssertionError /\ x0 = []) \/ (e = AttributeError /\ x0 <> []).
Proof.
  unfold solve_init. destruct x0 as [|a x0]; simpl Nat.eqb; cbv iota.
  - intros H. injection H as <-. left. split; reflexivity.
  - intros H. right. split; [|discriminate].
    apply bind_Raise in H. destruct H as [H|[lbs [_ H]]]; [|discriminate].
    destruct (truthy (lbfgs self)); [|discriminate].
    apply bind_Raise in H. destruct H as [H|[lb0 [_ H]]]; [|discriminate].
    now apply lbfgs_init_Raise in H.
Qed.

(** A loop variable, once bound, stays bound. *)
Lemma outer_loop_inner_bound (self : IPM) (P : Problem) (LA : LinAlg)
      (fuel k outer : nat) (st st' : State) :
  inner_var st <> None ->
  outer_loop self P LA fuel k outer st = Ok st' ->
  inner_var st' <> None.
Proof.
  apply (outer_loop_invariant self P LA fuel
           (fun st => inner_var st <> None)).
  - intros i st1 _. discriminate.
  - intros o st1 H. exact H.
  - intros o i st1 st2 H Hb. apply inner_body_Ok in Hb.
    destruct Hb as (dz & nu1 & x1 & s1 & lda1 & d1 & lb1 & xo1 & g1
                    & a & al & _ & _ & _ & ->). exact H.
  - intros st1 st2 H Hm.
    destruct (mu_update_Ok self P st1 st2 Hm) as [[_ ->]|[_ [lo [_ ->]]]];
      exact H.
Qed.

Lemma outer_loop_outer_bound (self : IPM) (P : Problem) (LA : LinAlg)
      (fuel k outer : nat) (st st' : State) :
  outer_var st <> None ->
  outer_loop self P LA fuel k outer st = Ok st' ->
  outer_var st' <> None.
Proof.
  apply (outer_loop_invariant self P LA fuel
           (fun st => outer_var st <> None)).
  - intros i st1 H. exact H.
  - intros o st1 _. discriminate.
  - intros o i st1 st2 H Hb. apply inner_body_Ok in Hb.
    destruct Hb as (dz & nu1 & x1 & s1 & lda1 & d1 & lb1 & xo1 & g1
                    & a & al & _ & _ & _ & ->). exact H.
  - intros st1 st2 H Hm.
    destruct (mu_update_Ok self P st1 st2 Hm) as [[_ ->]|[_ [lo [_ ->]]]];
      exact H.
Qed.

(** The inner loop either does nothing at all or leaves [inner] bound. *)
Lemma inner_loop_binds (self : IPM) (P : Problem) (LA : LinAlg)
      (fuel outer : nat) (k : nat) :
  forall (inner : nat) (st st' : State),
    inner_loop self P LA fuel outer k inner st = Ok st' ->
    (k = 0%nat /\ st' = st) \/ inner_var st' <> None.
Proof.
  induction k as [|k IH]; intros inner st st' H; simpl in H.
  - injection H as <-. left. split; reflexivity.
  - right. destruct (kkt_within _ _).
    + injection H as <-. discriminate.
    + apply bind_Ok in H. destruct H as [st2 [Hb H]].
      assert (H2 : inner_var st2 <> None).
      { apply inner_body_Ok in Hb.
        destruct Hb as (dz & nu1 & x1 & s1 & lda1 & d1 & lb1 & xo1 & g1
                        & a & al & _ & _ & _ & ->). discriminate. }
      destruct (IH _ _ _ H) as [[_ ->]|H3]; assumption.
Qed.

(** At the end of the outer loop either the KKT residuals are still the
    ones the loop started with, or both loop variables are bound. *)
Lemma outer_loop_bound_or_idle (self : IPM) (P : Problem) (LA : LinAlg)
      (fuel : nat) (k : nat) :
  forall (outer : nat) (st st' : State),
    outer_loop self P LA fuel k outer st = Ok st' ->
    kkt st' = kkt st \/ (outer_var st' <> None /\ inner_var st' <> None).
Proof.
  induction k as [|k IH]; intros outer st st' H; simpl in H.
  - injection H as <-. left. reflexivity.
  - destruct (kkt_within _ _).
    + injection H as <-. left. reflexivity.
    + apply bind_Ok in H. destruct H as [st2 [Hin H]].
      pose proof (inner_loop_outer_var self P LA fuel outer (miter self) 0
                    (bind_outer outer st) st2 (Some outer) eq_refl Hin)
        as Ho.
      destruct (inner_loop_binds _ _ _ _ _ _ _ _ _ Hin) as [[_ E]|Hi].
      * subst st2. destruct (Nat.leb _ _).
        -- injection H as <-. left. reflexivity.
        -- apply bind_Ok in H. destruct H as [st3 [Hmu H]].
           assert (E3 : kkt st3 = kkt st).
           { destruct (mu_update_Ok self P _ st3 Hmu)
               as [[_ ->]|[_ [lo [_ ->]]]]; reflexivity. }
           destruct (IH _ _ _ H) as [E|B]; [left|right; exact B].
           rewrite E. exact E3.
      * right. destruct (Nat.leb _ _).
        -- injection H as <-. split; [rewrite Ho; discriminate|exact Hi].
        -- apply bind_Ok in H. destruct H as [st3 [Hmu H]].
           assert (B3 : outer_var st3 <> None /\ inner_var st3 <> None).
           { destruct (mu_update_Ok self P _ st3 Hmu)
               as [[_ ->]|[_ [lo [_ ->]]]];
               (split; [simpl; rewrite Ho; discriminate|exact Hi]). }
           split.
           ++ eapply outer_loop_outer_bound; [exact (proj1 B3)|exact H].
           ++ eapply outer_loop_inner_bound; [exact (proj2 B3)|exact H].
Qed.

(** X10.  [solve] raises [UnboundLocalError] exactly when the problem
    has constraints, the verbosity is not negative, and the starting
    point already passes the convergence test; it raises
    [AssertionError] exactly when the starting point is empty. *)
Theorem solve_raises_iff (self : IPM) (P : Problem) (LA : LinAlg)
        (fuel : nat) (x0 : vec) (s0 lda0 : option vec) :
  (solve self P LA fuel x0 s0 lda0 = Raise UnboundLocalError <->
   constrained P = true /\ (0 <= verbosity self)%Z /\
   exists st0,
     solve_init self P LA x0 s0 lda0 = Ok st0 /\
     kkt_within (Ktol self) (kkt st0) = true) /\
  (solve self P LA fuel x0 s0 lda0 = Raise AssertionError <-> x0 = []).
Proof.
  split; split.
  - (* only the status message can raise it *)
    unfold solve. intros H.
    apply bind_Raise in H. destruct H as [H|[st0 [H0 H]]].
    { apply solve_init_Raise in H. destruct H as [[H _]|[H _]];
        discriminate. }
    apply bind_Raise in H. destruct H as [H|[st [Hrun H]]].
    { apply outer_loop_Raise in H. destruct H as [H _]. now elim H. }
    apply bind_Raise in H. destruct H as [H|[u [_ H]]]; [|discriminate].
    unfold report in H.
    destruct (Z.leb 0 (verbosity self)) eqn:Ev; [|discriminate].
    destruct (constrained P) eqn:Ec.
    2:{ destruct (kkt_within _ _); discriminate. }
    destruct (kkt_within (Ktol self) (kkt st)) eqn:Ek; [|discriminate].
    repeat split; [now apply Z.leb_le|].
    exists st0. split; [exact H0|].
    destruct (outer_loop_bound_or_idle _ _ _ _ _ _ _ _ Hrun) as [E|[Bo Bi]].
    + rewrite <- E. exact Ek.
    + destruct (outer_var st); [|now elim Bo].
      destruct (inner_var st); [discriminate|now elim Bi].
  - (* a converged start leaves [inner] unbound *)
    intros (Hc & Hv & st0 & H0 & Hk). unfold solve. rewrite H0.
    unfold bind at 1. cbv beta iota.
    destruct (solve_init_fresh _ _ _ _ _ _ _ H0) as (_ & _ & _ & Ho & Hi).
    assert (Hrun : exists st,
               outer_loop self P LA fuel (niter self) 0 st0 = Ok st /\
               kkt st = kkt st0 /\ inner_var st = None).
    { destruct (niter self) as [|n]; simpl.
      - exists st0. repeat split. exact Hi.
      - rewrite Hk. exists (bind_outer 0 st0). repeat split. exact Hi. }
    destruct Hrun as (st & -> & Ek & Ei).
    unfold bind at 1. cbv beta iota. unfold report.
    rewrite (proj2 (Z.leb_le _ _) Hv), Ek, Hk, Hc, Ei.
    destruct (outer_var st); reflexivity.
  - unfold solve. intros H.
    apply bind_Raise in H. destruct H as [H|[st0 [H0 H]]].
    { apply solve_init_Raise in H. destruct H as [[_ H]|[H _]];
        [exact H|discriminate]. }
    apply bind_Raise in H. destruct H as [H|[st [Hrun H]]].
    { apply outer_loop_Raise in H. destruct H as [_ H]. now elim H. }
    apply bind_Raise in H. destruct H as [H|[u [_ H]]]; [|discriminate].
    unfold report in H.
    repeat match type of H with
           | context [if ?b then _ else _] => destruct b
           | context [match ?o with Some _ => _ | None => _ end] =>
               destruct o
           end; discriminate.
  - intros ->. reflexivity.
Qed.

(** ** A complete unconstrained run *)

Lemma square_kkt_at (a : R) (mu_dev tol : R) :
  kkt_within tol (KKT (init default_args) square_problem mu_dev [a] [] [])
  = Rleb (sqrt (2 * a * (2 * a) + 0)) tol && Rleb (sqrt (0 * 0)) tol
    && Rleb (sqrt (0 * 0)) tol && Rleb (sqrt (0 * 0)) tol.
Proof. reflexivity. Qed.

Lemma square_direction (fuel outer inner : nat) (st : State) (a : R) :
  x st = [a] -> s st = [] -> lda st = [] ->
  direction (init default_args) square_problem scalar_kernel fuel outer inner
            st
  = Ok ([- (2 * a) / 2], delta st, lb st, x_old st, [- (2 * a)]).
Proof.
  intros Hx Hs Hl. unfold direction.
  change (truthy (lbfgs (init default_args))) with false. cbv iota.
  rewrite Hx, Hs, Hl.
  change (hess (init default_args) square_problem [a] [] []) with [[2]].
  assert (E : reghess (init default_args) square_problem scalar_kernel fuel
                      (mu_host st) (delta st) [[2]] = Ok ([[2]], delta st)).
  { unfold reghess. change (eigh scalar_kernel [[2]]) with [2].
    unfold np_min, np_max, bind. simpl map. unfold fold_left.
    rewrite (Rabs_right 2) by lra.
    rewrite (proj2 (Rleb_false _ _))
      by (simpl; replace (2 / 2) with 1 by lra; lra).
    assert (C : count_below (init default_args) [2] = 0%nat).
    { unfold count_below. simpl.
      rewrite (proj2 (Rltb_false _ _)) by lra. reflexivity. }
    rewrite C. reflexivity. }
  rewrite E. reflexivity.
Qed.

Lemma square_inner_body (fuel outer inner : nat) (st : State) :
  x st = [1] -> s st = [] -> lda st = [] ->
  inner_body (init default_args) square_problem scalar_kernel fuel outer inner
             st
  = Ok (record
          {| x := [1 + 1 * (- (2 * 1) / 2)]; s := []; lda := [];
             kkt := KKT (init default_args) square_problem (mu_host st)
                        [1 + 1 * (- (2 * 1) / 2)] [] [];
             mu_host := mu_host st; nu_host := nu_host st;
             delta := delta st; lb := lb st; x_old := x_old st;
             g := [- (2 * 1)];
             iter_count := S (iter_count st);
             outer_var := outer_var st; inner_var := inner_var st;
             trail := trail st |}).
Proof.
  intros Hx Hs Hl. unfold inner_body.
  rewrite (square_direction fuel outer inner st 1 Hx Hs Hl).
  unfold bind at 1. cbv beta iota zeta.
  change (constrained square_problem) with false.
  change (truthy (nineq square_problem)) with false.
  cbv iota. rewrite Hx, Hs, Hl.
  assert (E : search (init default_args) square_problem scalar_kernel fuel
                     (mu_host st) (nu_host st) [1] [] [] [- (2 * 1) / 2] 1 1
              = Ok ([1 + 1 * (- (2 * 1) / 2)], [], [])).
  { unfold search. cbv zeta.
    change (truthy (nineq square_problem)) with false.
    change (truthy (neq square_problem)) with false.
    change (constrained square_problem) with false.
    cbv iota.
    rewrite (proj2 (Rltb_false _ _)); [reflexivity|].
    unfold phi, dphi. simpl. unfold dot, vsum, vmul. simpl. lra. }
  rewrite E. reflexivity.
Qed.

(** A complete run: from x = 1 the default solver minimises x^2 in one
    Newton step. *)
Lemma square_run (fuel : nat) :
  exists st,
    solve_run (init default_args) square_problem scalar_kernel fuel
              [1] None None = Ok st /\
    x st = [1 + 1 * (- (2 * 1) / 2)] /\ iter_count st = 1%nat.
Proof.
  unfold solve_run.
  assert (H0 : exists st0,
             solve_init (init default_args) square_problem scalar_kernel
                        [1] None None = Ok st0 /\
             x st0 = [1] /\ s st0 = [] /\ lda st0 = [] /\
             mu_host st0 = 1 / 10000 /\ iter_count st0 = 0%nat /\
             kkt st0 = KKT (init default_args) square_problem (1 / 10000)
                           [1] [] []).
  { eexists. split; [reflexivity|]. repeat split. }
  destruct H0 as (st0 & -> & Hx & Hs & Hl & Hmu & Hit & Hk).
  unfold bind at 1. cbv beta iota.
  assert (Far : forall tol, tol = 1 / 10000 ->
            kkt_within tol (KKT (init default_args) square_problem
                                (1 / 10000) [1] [] []) = false).
  { intros tol ->. rewrite square_kkt_at.
    rewrite (proj2 (Rleb_false _ _)); [reflexivity|].
    replace (2 * 1 * (2 * 1) + 0) with (2 * 2) by ring.
    rewrite sqrt_square; lra. }
  assert (Near : forall tol m, tol = 1 / 10000 ->
            kkt_within tol (KKT (init default_args) square_problem m
                                [1 + 1 * (- (2 * 1) / 2)] [] []) = true).
  { intros tol m ->. rewrite square_kkt_at.
    replace (2 * (1 + 1 * (- (2 * 1) / 2)) * (2 * (1 + 1 * (- (2 * 1) / 2)))
             + 0) with 0 by field.
    replace (0 * 0) with 0 by ring. rewrite sqrt_0.
    rewrite !(proj2 (Rleb_true _ _)) by lra. reflexivity. }
  change (niter (init default_args)) with 10%nat.
  cbn [outer_loop].
  change (kkt (bind_outer 0 st0)) with (kkt st0).
  change (Ktol (init default_args)) with (1 / 10000).
  rewrite Hk, (Far _ eq_refl).
  change (miter (init default_args)) with 20%nat.
  cbn [inner_loop].
  change (kkt (bind_inner 0 (bind_outer 0 st0))) with (kkt st0).
  change (mu_host (bind_inner 0 (bind_outer 0 st0))) with (mu_host st0).
  change (Ktol (init default_args)) with (1 / 10000).
  rewrite Hk, Hmu, (Far (Rmax (1 / 10000) (1 / 10000)))
    by (apply Rmax_left; lra).
  rewrite (square_inner_body fuel 0 0 (bind_inner 0 (bind_outer 0 st0))
             Hx Hs Hl).
  unfold bind at 2. cbv beta iota.
  change (mu_host (bind_inner 0 (bind_outer 0 st0))) with (mu_host st0).
  rewrite Hmu.
  match goal with
  | |- context [kkt_within ?t (kkt (bind_inner 1 (record ?r)))] =>
      change (kkt (bind_inner 1 (record r)))
        with (KKT (init default_args) square_problem (1 / 10000)
                  [1 + 1 * (- (2 * 1) / 2)] [] []);
      change (mu_host (bind_inner 1 (record r))) with (1 / 10000)
  end.
  rewrite (Near (Rmax (1 / 10000) (1 / 10000)))
    by (apply Rmax_left; lra).
  unfold bind at 1. cbv beta iota.
  change (Nat.leb (niter (init default_args) - 1) 0) with false. cbv iota.
  unfold mu_update at 1.
  change (truthy (nineq square_problem)) with false. cbv iota.
  unfold bind at 1. cbv beta iota.
  match goal with
  | |- context [kkt_within ?t (kkt (bind_outer 1 ?r))] =>
      change (kkt (bind_outer 1 r))
        with (KKT (init default_args) square_problem (1 / 10000)
                  [1 + 1 * (- (2 * 1) / 2)] [] [])
  end.
  rewrite (Near _ _ eq_refl).
  eexists. split; [reflexivity|]. simpl. rewrite Hit. split; reflexivity.
Qed.

(** ** The iteration budget *)

Lemma inner_loop_count (self : IPM) (P : Problem) (LA : LinAlg)
      (fuel outer : nat) (k : nat) :
  forall (inner : nat) (st st' : State),
    inner_loop self P LA fuel outer k inner st = Ok st' ->
    (iter_count st <= iter_count st' <= iter_count st + k)%nat.
Proof.
  induction k as [|k IH]; intros inner st st' H; simpl in H.
  - injection H as <-. lia.
  - destruct (kkt_within _ _).
    + injection H as <-. simpl. lia.
    + apply bind_Ok in H. destruct H as [st2 [Hb H]].
      apply IH in H. apply inner_body_Ok in Hb.
      destruct Hb as (dz & nu1 & x1 & s1 & lda1 & d1 & lb1 & xo1 & g1
                      & a & al & _ & _ & _ & ->).
      simpl in H. lia.
Qed.

Lemma outer_loop_count (self : IPM) (P : Problem) (LA : LinAlg)
      (fuel : nat) (k : nat) :
  forall (outer : nat) (st st' : State),
    outer_loop self P LA fuel k outer st = Ok st' ->
    (iter_count st <= iter_count st' <= iter_count st + k * miter self)%nat.
Proof.
  induction k as [|k IH]; intros outer st st' H; simpl in H.
  - injection H as <-. lia.
  - destruct (kkt_within _ _).
    + injection H as <-. simpl. lia.
    + apply bind_Ok in H. destruct H as [st2 [Hin H]].
      apply inner_loop_count in Hin. simpl in Hin.
      destruct (Nat.leb _ _).
      * injection H as <-. lia.
      * apply bind_Ok in H. destruct H as [st3 [Hmu H]].
        apply IH in H.
        assert (E : iter_count st3 = iter_count st2).
        { destruct (mu_update_Ok self P st2 st3 Hmu)
            as [[_ ->]|[_ [lo [_ ->]]]]; reflexivity. }
        lia.
Qed.

(** X11.  A run of [solve] performs at most [niter * miter] line
    searches: the iteration counter printed in the closing message never
    exceeds the product of the two budgets. *)
Theorem solve_iteration_budget (self : IPM) (P : Problem) (LA : LinAlg)
        (fuel : nat) (x0 : vec) (s0 lda0 : option vec) (st : State) :
  solve_run self P LA fuel x0 s0 lda0 = Ok st ->
  (iter_count st <= niter self * miter self)%nat.
Proof.
  unfold solve_run. intros H.
  apply bind_Ok in H. destruct H as [st0 [H0 H]].
  apply outer_loop_count in H.
  destruct (solve_init_fresh _ _ _ _ _ _ _ H0) as (_ & _ & E & _).
  lia.
Qed.

(** Witness: the one-step run on [square_problem]. *)
Lemma solve_iteration_budget_witness :
  exists st,
    solve_run (init default_args) square_problem scalar_kernel 0
              [1] None None = Ok st /\
    (iter_count st
     <= niter (init default_args) * miter (init default_args))%nat.
Proof.
  destruct (square_run 0) as (st & Hrun & _).
  exists st. split; [exact Hrun|].
  apply (solve_iteration_budget (init default_args) square_problem
           scalar_kernel 0 [1] None None st).
  exact Hrun.
Defined.

(** ** The residuals [solve] keeps *)

(** X12.  At the end of a run the stored KKT residuals are the compiled
    residuals at the final iterate, evaluated with a barrier value the
    run has gone through -- not necessarily the current one, since a
    barrier update does not re-evaluate them. *)
Theorem solve_kkt_consistent (self : IPM) (P : Problem) (LA : LinAlg)
        (fuel : nat) (x0 : vec) (s0 lda0 : option vec) (st : State) :
  solve_run self P LA fuel x0 s0 lda0 = Ok st ->
  exists m,
    In m (map sn_mu (trail st)) /\
    kkt st = KKT self P m (x st) (s st) (lda st).
Proof.
  unfold solve_run. intros H.
  apply bind_Ok in H. destruct H as [st0 [H0 H]].
  revert H.
  apply (outer_loop_invariant self P LA fuel
           (fun st => exists m, In m (map sn_mu (trail st)) /\
                                kkt st = KKT self P m (x st) (s st) (lda st))).
  - intros i st1 Hi. exact Hi.
  - intros o st1 Hi. exact Hi.
  - intros o i st1 st2 _ Hb. apply inner_body_Ok in Hb.
    destruct Hb as (dz & nu1 & x1 & s1 & lda1 & d1 & lb1 & xo1 & g1
                    & a & al & _ & _ & _ & ->).
    exists (mu_host st1). split; [left; reflexivity|reflexivity].
  - intros st1 st2 (m & Hm & Hk) Hmu.
    destruct (mu_update_Ok self P st1 st2 Hmu) as [[_ ->]|[_ [lo [_ ->]]]].
    + exists m. split; assumption.
    + exists m. split; [right; exact Hm|exact Hk].
  - unfold solve_init in H0.
    destruct (Nat.eqb (length x0) 0); [discriminate|].
    apply bind_Ok in H0. destruct H0 as [lbs [_ H0]].
    injection H0 as <-.
    eexists. split; [left; reflexivity|reflexivity].
Qed.

(** Witness: on the box problem run the residuals kept at the end are
    those of the starting barrier value. *)
Lemma solve_kkt_consistent_witness :
  exists st,
    solve_run (init outer_only_args) box_problem diag_kernel 0
              [1] (Some [1; 1]) (Some [1; 1000]) = Ok st /\
    exists m,
      In m (map sn_mu (trail st)) /\
      kkt st = KKT (init outer_only_args) box_problem m
                   (x st) (s st) (lda st).
Proof.
  destruct (box_run diag_kernel 0) as (st & Hrun & _).
  exists st. split; [exact Hrun|].
  apply (solve_kkt_consistent (init outer_only_args) box_problem
           diag_kernel 0 [1] (Some [1; 1]) (Some [1; 1000]) st).
  exact Hrun.
Defined.

(** ** A bound on the barrier update *)

Lemma cube_le_8 (r : R) : r <= 2 -> r ^ 3 <= 8.
Proof.
  intros H.
  assert (E : 8 - r ^ 3 = (2 - r) * ((r + 1) * (r + 1) + 3)) by ring.
  assert (0 <= (2 - r) * ((r + 1) * (r + 1) + 3)); [|lra].
  apply Rmult_le_pos; [lra|]. nra.
Qed.

(** X13.  With inequality constraints and a nonnegative complementarity
    product [s . lda[M:]], the barrier update leaves a barrier value
    between 0 and 0.8 times the average complementarity
    [s . lda[M:] / N], and changes nothing else of the iterate. *)
Theorem barrier_update_bounded (self : IPM) (P : Problem) (st st' : State) :
  truthy (nineq P) = true ->
  0 <= dot (s st) (skipn (neq P) (lda st)) ->
  mu_update self P st = Ok st' ->
  0 <= mu_host st'
  <= 8 / 10 * (dot (s st) (skipn (neq P) (lda st)) / INR (nineq P)) /\
  x st' = x st /\ s st' = s st /\ lda st' = lda st /\ kkt st' = kkt st /\
  nu_host st' = nu_host st.
Proof.
  intros HN Hcomp H.
  destruct (mu_update_Ok self P st st' H) as [[E _]|[_ [lo [_ E]]]];
    [congruence|].
  cbv zeta in E. subst st'. simpl. rewrite clamp_Rmax.
  repeat split; [apply Rmax_l|].
  assert (HNpos : 0 < INR (nineq P)).
  { apply lt_0_INR. apply truthy_pos in HN. exact HN. }
  set (comp := dot (s st) (skipn (neq P) (lda st))) in *.
  assert (Havg : 0 <= comp / INR (nineq P)).
  { apply Rmult_le_pos; [exact Hcomp|].
    apply Rlt_le, Rinv_0_lt_compat, HNpos. }
  unfold mu_formula. fold comp.
  set (r := Rmin _ 2).
  assert (Hr : r ^ 3 <= 8) by (apply cube_le_8; apply Rmin_r).
  apply Rmax_lub; [lra|].
  replace (1 / 10 * r ^ 3 * comp / INR (nineq P))
    with (1 / 10 * r ^ 3 * (comp / INR (nineq P))) by (unfold Rdiv; ring).
  nra.
Qed.

(** Witness: the barrier update of the box problem run, where the bound
    is attained: 0.8 * 1001 / 2 = 400.4. *)
Lemma barrier_update_bounded_witness :
  exists st',
    mu_update (init outer_only_args) box_problem box_start = Ok st' /\
    0 <= mu_host st'
    <= 8 / 10 * (dot (s box_start) (skipn (neq box_problem) (lda box_start))
                 / INR (nineq box_problem)) /\
    x st' = x box_start /\ s st' = s box_start /\
    lda st' = lda box_start /\ kkt st' = kkt box_start /\
    nu_host st' = nu_host box_start.
Proof.
  assert (Hupd : mu_update (init outer_only_args) box_problem box_start
                 = Ok (record (set_mu (4004 / 10) box_start))).
  { unfold mu_update. change (truthy (nineq box_problem)) with true.
    cbv iota. change (s box_start) with [1; 1].
    change (lda box_start) with [1; 1000].
    change (skipn (neq box_problem) [1; 1000]) with [1; 1000].
    unfold vmul, np_min. simpl zipWith. unfold fold_left.
    replace (Rmin (1 * 1) (1 * 1000)) with 1
      by (rewrite Rmin_left; lra).
    unfold bind. rewrite box_mu_value. reflexivity. }
  exists (record (set_mu (4004 / 10) box_start)).
  split; [exact Hupd|].
  apply (barrier_update_bounded (init outer_only_args) box_problem
           box_start (record (set_mu (4004 / 10) box_start))).
  - reflexivity.
  - unfold dot, vmul, vsum. simpl. lra.
  - exact Hupd.
Defined.

(** ** Runs without constraints *)

Lemma search_unconstrained_keeps (self : IPM) (P : Problem) (LA : LinAlg)
      (fuel : nat) (mu_dev nu_dev : R) (x0 s0 lda0 dz : vec)
      (alpha_smax alpha_lmax : R) (x1 s1 lda1 : vec) :
  constrained P = false ->
  search self P LA fuel mu_dev nu_dev x0 s0 lda0 dz alpha_smax alpha_lmax
  = Ok (x1, s1, lda1) ->
  s1 = s0 /\ lda1 = lda0.
Proof.
  intros Hc H. unfold search in H. cbv zeta in H.
  pose proof Hc as Hc'. unfold constrained in Hc'.
  apply orb_false_iff in Hc'. destruct Hc' as [EM EN].
  rewrite Hc, EN in H.
  match type of H with
  | match ?c with _ => _ end = _ => destruct c as [[dz_p ac]|]
  end.
  - injection H as _ <- <-. split; reflexivity.
  - apply bind_Ok in H. destruct H as [[a al] [_ H]].
    injection H as _ <- <-. split; reflexivity.
Qed.

(** X14.  On a problem without constraints the slack and multiplier
    arrays stay empty and the merit penalty stays at its initial value
    [nu] at every recorded point of a run. *)
Theorem unconstrained_run_keeps (self : IPM) (P : Problem) (LA : LinAlg)
        (fuel : nat) (x0 : vec) (s0 lda0 : option vec) (st : State) :
  constrained P = false ->
  solve_run self P LA fuel x0 s0 lda0 = Ok st ->
  s st = [] /\ lda st = [] /\ nu_host st = nu self /\
  Forall (fun sn => sn_s sn = [] /\ sn_lda sn = [] /\ sn_nu sn = nu self)
         (trail st).
Proof.
  intros Hc H. unfold solve_run in H.
  apply bind_Ok in H. destruct H as [st0 [H0 H]].
  pose proof Hc as Hc'. unfold constrained in Hc'.
  apply orb_false_iff in Hc'. destruct Hc' as [EM EN].
  revert H.
  apply (outer_loop_invariant self P LA fuel
           (fun st =>
              s st = [] /\ lda st = [] /\ nu_host st = nu self /\
              Forall (fun sn => sn_s sn = [] /\ sn_lda sn = []
                                /\ sn_nu sn = nu self) (trail st))).
  - intros i st1 Hi. exact Hi.
  - intros o st1 Hi. exact Hi.
  - intros o i st1 st2 (Hs & Hl & Hnu & Htr) Hb.
    unfold inner_body in Hb. rewrite Hc, EN in Hb.
    apply bind_Ok in Hb.
    destruct Hb as [[[[[dz0 d1] lb1] xo1] g1] [_ Hb]].
    apply bind_Ok in Hb. destruct Hb as [[[x1 s1] lda1] [Hsearch Hb]].
    injection Hb as <-.
    apply (search_unconstrained_keeps _ _ _ _ _ _ _ _ _ _ _ _ _ _ _ Hc)
      in Hsearch.
    destruct Hsearch as [-> ->]. simpl.
    repeat split; try assumption.
    constructor; [|exact Htr]. simpl. repeat split; assumption.
  - intros st1 st2 Hi Hmu. unfold mu_update in Hmu. rewrite EN in Hmu.
    injection Hmu as <-. exact Hi.
  - unfold solve_init in H0.
    destruct (Nat.eqb (length x0) 0); [discriminate|].
    rewrite Hc, EN in H0.
    apply bind_Ok in H0. destruct H0 as [lbs [_ H0]].
    injection H0 as <-. simpl. repeat split.
    constructor; [|constructor]. simpl. repeat split.
Qed.

(** Witness: the one-step run on [square_problem]. *)
Lemma unconstrained_run_keeps_witness :
  exists st,
    solve_run (init default_args) square_problem scalar_kernel 0
              [1] None None = Ok st /\
    s st = [] /\ lda st = [] /\ nu_host st = nu (init default_args) /\
    Forall (fun sn => sn_s sn = [] /\ sn_lda sn = []
                      /\ sn_nu sn = nu (init default_args))
           (trail st).
Proof.
  destruct (square_run 0) as (st & Hrun & _).
  exists st. split; [exact Hrun|].
  apply (unconstrained_run_keeps (init default_args) square_problem
           scalar_kernel 0 [1] None None st).
  - reflexivity.
  - exact Hrun.
Defined.

(** ** The default starting point *)

Lemma clip_negative_nonneg (self : IPM) (v : vec) :
  0 <= Ktol self -> Forall (fun l => 0 <= l) (clip_negative self v).
Proof.
  intros HK. unfold clip_negative. apply Forall_forall. intros l Hl.
  apply in_map_iff in Hl. destruct Hl as (a & <- & _).
  destruct (Rltb a 0) eqn:E; [exact HK|]. now apply Rltb_false in E.
Qed.

(** X15.  With inequality constraints, a positive [Ktol] and neither
    slacks nor multipliers supplied, [solve] starts from slacks
    [max(ci(x0), Ktol)] -- strictly positive and entrywise at least
    [ci(x0)] -- and from inequality multipliers that are nonnegative,
    the negative estimates having been replaced by [Ktol]. *)
Theorem default_start_feasible (self : IPM) (P : Problem) (LA : LinAlg)
        (x0 : vec) (st0 : State) :
  truthy (nineq P) = true ->
  0 < Ktol self ->
  solve_init self P LA x0 None None = Ok st0 ->
  s st0 = map (fun c => Rmax c (Ktol self)) (ci P x0) /\
  positive (s st0) /\
  Forall2 Rle (ci P x0) (s st0) /\
  Forall (fun l => 0 <= l) (skipn (neq P) (lda st0)).
Proof.
  intros HN HK H. unfold solve_init in H.
  destruct (Nat.eqb (length x0) 0); [discriminate|].
  rewrite HN, (constrained_ineq P HN) in H.
  apply bind_Ok in H. destruct H as [lbs [_ H]]. injection H as <-.
  simpl. unfold init_slack. repeat split.
  - apply Forall_forall. intros a Ha. apply in_map_iff in Ha.
    destruct Ha as (c & <- & _). pose proof (Rmax_r c (Ktol self)). lra.
  - induction (ci P x0) as [|c l IH]; simpl; constructor;
      [apply Rmax_l|exact IH].
  - set (l := init_lambda P LA x0).
    destruct (truthy (neq P)) eqn:EM; simpl.
    + destruct (Nat.le_gt_cases (neq P) (length l)) as [Hle|Hgt].
      * rewrite skipn_app, length_firstn, Nat.min_l by exact Hle.
        rewrite Nat.sub_diag, skipn_firstn_comm, Nat.sub_diag. simpl.
        apply clip_negative_nonneg. lra.
      * rewrite (skipn_all2 l) by lia.
        rewrite app_nil_r. rewrite skipn_all2; [constructor|].
        rewrite length_firstn. lia.
    + apply truthy_0 in EM. rewrite EM. simpl.
      apply clip_negative_nonneg. lra.
Qed.

(** Witness: the box problem from x = 1 with the default arguments. *)
Lemma default_start_feasible_witness :
  exists st0,
    solve_init (init default_args) box_problem diag_kernel [1] None None
    = Ok st0 /\
    s st0 = map (fun c => Rmax c (Ktol (init default_args)))
                (ci box_problem [1]) /\
    positive (s st0) /\
    Forall2 Rle (ci box_problem [1]) (s st0) /\
    Forall (fun l => 0 <= l) (skipn (neq box_problem) (lda st0)).
Proof.
  assert (H0 : exists st0,
             solve_init (init default_args) box_problem diag_kernel
                        [1] None None = Ok st0)
    by (eexists; reflexivity).
  destruct H0 as [st0 H0]. exists st0. split; [exact H0|].
  apply (default_start_feasible (init default_args) box_problem diag_kernel
           [1] st0).
  - reflexivity.
  - simpl. lra.
  - exact H0.
Defined.

(** ** The shape of the L-BFGS storage *)

Lemma has_shape_append_zero_col (r c : nat) (A : matrix) :
  has_shape r c A -> has_shape r (S c) (append_zero_col A).
Proof.
  intros [Hr Hc]. split.
  - unfold append_zero_col. now rewrite length_map.
  - unfold append_zero_col. apply Forall_map.
    eapply Forall_impl; [|exact Hc]. intros row E. cbv beta in *.
    rewrite length_app. simpl. lia.
Qed.

Lemma has_shape_shift_cols (r c : nat) (A : matrix) :
  has_shape r c A -> has_shape r c (shift_cols A).
Proof.
  intros [Hr Hc]. split.
  - unfold shift_cols. now rewrite length_map.
  - unfold shift_cols. apply Forall_map.
    eapply Forall_impl; [|exact Hc]. intros [|a t] E; cbv beta iota in *.
    + exact E.
    + rewrite length_app. simpl in *. lia.
Qed.

Lemma length_removelast {A : Type} (l : list A) :
  length (removelast l) = Nat.pred (length l).
Proof. rewrite removelast_firstn_len, length_firstn. lia. Qed.

Lemma length_removelast_snoc (row : vec) (a : R) :
  (0 < length row)%nat -> length (removelast row ++ [a]) = length row.
Proof.
  intros H. rewrite length_app, length_removelast. simpl. lia.
Qed.

Lemma has_shape_set_last_col (r c : nat) (A : matrix) (v : vec) :
  (0 < c)%nat -> length v = r ->
  has_shape r c A -> has_shape r c (set_last_col A v).
Proof.
  intros Hpos Hv [Hr Hc]. unfold set_last_col. split.
  - rewrite zipWith_length. unfold matrix, vec in *. lia.
  - clear Hr Hv. revert v.
    induction Hc as [|row A Hrow _ IH]; intros [|a v]; simpl;
      constructor.
    + rewrite length_removelast_snoc; lia.
    + apply IH.
Qed.

Lemma has_shape_set_last_row (r c : nat) (A : matrix) (v : vec) :
  (0 < r)%nat -> length v = c ->
  has_shape r c A -> has_shape r c (set_last_row A v).
Proof.
  intros Hpos Hv [Hr Hc]. unfold set_last_row. split.
  - rewrite length_app, length_removelast. simpl. lia.
  - apply Forall_app. split.
    + apply Forall_forall. intros row Hin.
      rewrite Forall_forall in Hc. apply Hc.
      destruct A as [|r0 A]; [simpl in Hr; lia|].
      rewrite (app_removelast_last [] (l := r0 :: A)) by discriminate.
      apply in_or_app. left. exact Hin.
    + constructor; [exact Hv|constructor].
Qed.

Lemma has_shape_last (r c : nat) (A : matrix) :
  (0 < r)%nat -> has_shape r c A -> length (last A []) = c.
Proof.
  intros Hpos [Hr Hc]. rewrite Forall_forall in Hc. apply Hc.
  destruct A as [|r0 A]; [simpl in Hr; lia|].
  rewrite (app_removelast_last [] (l := r0 :: A)) at 2 by discriminate.
  apply in_or_app. right. left. reflexivity.
Qed.

Lemma has_shape_set_last_entry (r c : nat) (A : matrix) (a : R) :
  (0 < r)%nat -> (0 < c)%nat ->
  has_shape r c A -> has_shape r c (set_last_entry A a).
Proof.
  intros Hr Hc HA. unfold set_last_entry.
  apply (has_shape_set_last_row r c A); [exact Hr| |exact HA].
  rewrite length_removelast_snoc;
    rewrite (has_shape_last r c A Hr HA); [reflexivity|exact Hc].
Qed.

Lemma has_shape_expand_square (c : nat) (A : matrix) :
  has_shape c c A -> has_shape (S c) (S c) (expand_square (c + 1) A).
Proof.
  intros [Hr Hc]. unfold expand_square.
  apply has_shape_append_zero_col. split.
  - rewrite length_app. simpl. lia.
  - apply Forall_app. split; [exact Hc|].
    constructor; [|constructor].
    unfold zeros. rewrite repeat_length. lia.
Qed.

Lemma shift_rows_width (c : nat) (V : matrix) :
  (0 < c)%nat ->
  Forall (fun row : vec => length row = c) V ->
  forall U : matrix,
    Forall (fun row : vec => length row = c)
           (zipWith (fun r rnext => tl rnext ++ [last r 0]) U V).
Proof.
  intros Hpos HV. induction HV as [|v V Hv _ IH]; intros [|u U]; simpl;
    constructor.
  - rewrite length_app. simpl. destruct v; simpl in *; lia.
  - apply IH.
Qed.

Lemma has_shape_shift_diag (c : nat) (A : matrix) :
  has_shape c c A -> has_shape c c (shift_diag A).
Proof.
  intros HA. destruct A as [|r0 below]; [exact HA|].
  pose proof HA as [Hr Hc]. simpl in Hr.
  assert (Hpos : (0 < c)%nat) by lia.
  assert (Hbelow : Forall (fun row : vec => length row = c) below)
    by (inversion Hc; assumption).
  unfold shift_diag. split.
  - rewrite length_app, zipWith_length, length_removelast.
    simpl length. unfold matrix, vec in *. lia.
  - apply Forall_app. split.
    + apply shift_rows_width; assumption.
    + constructor; [|constructor].
      apply (has_shape_last c c (r0 :: below) Hpos HA).
Qed.

Lemma matT_fold_length (c : nat) (A : matrix) :
  Forall (fun row : vec => length row = c) A ->
  forall v : vec,
    length (fold_right (fun rv acc => vadd (vscale (snd rv) (fst rv)) acc)
                       (zeros c) (combine A v)) = c.
Proof.
  intros HA. induction HA as [|row A Hrow _ IH]; intros [|a v]; simpl;
    try (unfold zeros; apply repeat_length).
  unfold vadd, vscale. rewrite zipWith_length, length_map, IH, Hrow.
  apply Nat.min_id.
Qed.

Lemma ncols_has_shape (r c : nat) (A : matrix) :
  (0 < r)%nat -> has_shape r c A -> ncols A = c.
Proof.
  intros Hpos [Hr Hc]. destruct A as [|row A]; [simpl in Hr; lia|].
  simpl. now inversion Hc.
Qed.

Lemma matT_vec_length (r c : nat) (A : matrix) (v : vec) :
  (0 < r)%nat -> has_shape r c A -> length (matT_vec A v) = c.
Proof.
  intros Hpos HA. unfold matT_vec.
  rewrite (ncols_has_shape r c A Hpos HA).
  apply matT_fold_length. exact (proj2 HA).
Qed.

Lemma lbfgs_init_shape (self : IPM) (P : Problem) (lb : LBFGS) :
  lbfgs_init self P = Ok lb -> storage_shape P 0 lb.
Proof.
  unfold lbfgs_init. destruct (lbfgs_zeta self); [|discriminate].
  intros H. injection H as <-. unfold storage_shape, has_shape. simpl.
  rewrite repeat_length.
  repeat split; try constructor;
    apply Forall_forall; intros row Hin; apply repeat_spec in Hin;
    now subst row.
Qed.

(** X16.  [lbfgs_update] keeps the storage arrays consistently shaped:
    S and Y stay nvar x c and SS, L, D stay c x c.  An accepted pair
    adds a column as long as the column count c is at most [lbfgs] and
    overwrites the oldest otherwise, so the storage comes to hold
    [lbfgs + 1] pairs, one more than the memory setting, and never
    more; a rejected pair leaves c as it is or empties the storage. *)
Theorem lbfgs_update_shape (self : IPM) (P : Problem)
        (x_old x_new g_old g_new : vec) (lb lb' : LBFGS) (c : nat) :
  (0 < nvar P)%nat ->
  length x_old = nvar P -> length x_new = nvar P ->
  (nvar P <= length g_old)%nat -> (nvar P <= length g_new)%nat ->
  storage_shape P c lb ->
  (c <= lbfgs self + 1)%nat ->
  lbfgs_update self P x_old x_new g_old g_new lb = Ok lb' ->
  let dx := vsub x_new x_old in
  let dg := vsub (firstn (nvar P) g_old) (firstn (nvar P) g_new) in
  exists c',
    storage_shape P c' lb' /\ (c' <= lbfgs self + 1)%nat /\
    (curvature_ok self P dx dg = true ->
     c' = if Nat.ltb (lbfgs self) c then c else S c) /\
    (curvature_ok self P dx dg = false -> c' = c \/ c' = 0%nat).
Proof.
  intros HD Hxo Hxn Hgo Hgn (HS & HY & HSS & HL & HDm) Hc H dx dg.
  assert (Ldx : length dx = nvar P).
  { unfold dx, vsub. rewrite zipWith_length. lia. }
  assert (Ldg : length dg = nvar P).
  { unfold dg, vsub. rewrite zipWith_length, !length_firstn. lia. }
  unfold lbfgs_update in H. fold dx dg in H.
  rewrite (ncols_has_shape _ _ _ HD HS) in H.
  destruct (curvature_ok self P dx dg) eqn:Eok.
  - (* accepted *)
    assert (Hgoal : forall c' S1 Y1 SS1 L1 D1,
              (0 < c')%nat ->
              has_shape (nvar P) c' S1 -> has_shape (nvar P) c' Y1 ->
              has_shape c' c' SS1 -> has_shape c' c' L1 ->
              has_shape c' c' D1 ->
              let S2 := set_last_col S1 dx in
              let Y2 := set_last_col Y1 dg in
              let SS_update :=
                if constrained P then matT_vec S2 dx else matT_vec Y2 dg in
              storage_shape P c'
                {| zeta := zeta_new self P dx dg;
                   Smat := S2; Ymat := Y2;
                   SS := set_last_row (set_last_col SS1 SS_update) SS_update;
                   Lmat := if constrained P
                           then set_last_entry
                                  (set_last_row L1 (matT_vec Y2 dx)) 0
                           else set_last_col L1 (matT_vec S2 dg);
                   Dmat := set_last_entry D1 (dot dx dg);
                   lbfgs_fail := 0 |}).
    { intros c' S1 Y1 SS1 L1 D1 Hpos H1 H2 H3 H4 H5 S2 Y2 SS_update.
      assert (HS2 : has_shape (nvar P) c' S2)
        by (apply has_shape_set_last_col; assumption).
      assert (HY2 : has_shape (nvar P) c' Y2)
        by (apply has_shape_set_last_col; assumption).
      assert (Hupd : length SS_update = c').
      { unfold SS_update. destruct (constrained P);
          apply (matT_vec_length (nvar P) c'); assumption. }
      unfold storage_shape. simpl.
      split; [exact HS2|]. split; [exact HY2|].
      split; [|split].
      - apply has_shape_set_last_row; try assumption.
        apply has_shape_set_last_col; assumption.
      - destruct (constrained P).
        + apply has_shape_set_last_entry; try assumption.
          apply has_shape_set_last_row; try assumption.
          apply (matT_vec_length (nvar P) c'); assumption.
        + apply has_shape_set_last_col; try assumption.
          apply (matT_vec_length (nvar P) c'); assumption.
      - apply has_shape_set_last_entry; assumption. }
    destruct (Nat.ltb (lbfgs self) c) eqn:Efull;
      cbv zeta in H; cbv beta iota in H; simpl lbfgs_fail in H;
      rewrite (proj2 (Nat.ltb_ge _ _) (Nat.le_0_l (lbfgs_fail_max self)))
        in H;
      simpl andb in H; cbv iota in H; injection H as <-.
    + apply Nat.ltb_lt in Efull.
      exists c. split; [|split; [exact Hc|split; [reflexivity|discriminate]]].
      apply Hgoal; try lia.
      * now apply has_shape_shift_cols.
      * now apply has_shape_shift_cols.
      * now apply has_shape_shift_diag.
      * now apply has_shape_shift_diag.
      * now apply has_shape_shift_diag.
    + apply Nat.ltb_ge in Efull.
      exists (S c).
      split; [|split; [lia|split; [reflexivity|discriminate]]].
      apply Hgoal; try lia.
      * now apply has_shape_append_zero_col.
      * now apply has_shape_append_zero_col.
      * replace (S c) with (c + 1)%nat at 3 by lia.
        now apply has_shape_expand_square.
      * replace (S c) with (c + 1)%nat at 3 by lia.
        now apply has_shape_expand_square.
      * replace (S c) with (c + 1)%nat at 3 by lia.
        now apply has_shape_expand_square.
  - (* rejected *)
    destruct (_ && _).
    + exists 0%nat.
      split; [now apply lbfgs_init_shape in H|].
      split; [lia|]. split; [discriminate|]. intros _. right. reflexivity.
    + injection H as <-. exists c.
      split; [exact (conj HS (conj HY (conj HSS (conj HL HDm))))|].
      split; [exact Hc|]. split; [discriminate|]. intros _. left. reflexivity.
Qed.

Lemma sqrt_eps_upper : sqrt (/ 8388608) < / 2048.
Proof.
  rewrite <- (sqrt_square (/ 2048)) by lra.
  apply sqrt_lt_1; lra.
Qed.

(** The pair (dx, dg) = (1, 2) of [square_problem] passes the curvature
    test of [lbfgs_update]. *)
Lemma square_pair_accepted :
  curvature_ok (init lbfgs_args) square_problem
    (vsub [1] [0])
    (vsub (firstn (nvar square_problem) [2])
          (firstn (nvar square_problem) [0])) = true.
Proof.
  pose proof sqrt_eps_upper as Hs.
  apply curvature_ok_true. unfold zeta_new.
  change (constrained square_problem) with false.
  unfold dot, vmul, vsub, vsum. simpl.
  split; [lra|].
  apply (Rlt_le_trans _ (/ 2048)); [exact Hs|].
  apply (Rmult_le_reg_r ((2 - 0) * (2 - 0) + 0 + / 8388608)); [lra|].
  unfold Rdiv. rewrite Rmult_assoc, Rinv_l by lra. lra.
Qed.

(** Witness: with memory 1 and one pair stored, the accepted pair
    (dx, dg) = (1, 2) of [square_problem] is appended: two pairs are
    then stored. *)
Lemma lbfgs_update_shape_witness :
  exists lb',
    lbfgs_update (init lbfgs_args) square_problem [0] [1] [2] [0]
                 one_pair_one_failure = Ok lb' /\
    exists c',
      storage_shape square_problem c' lb' /\
      (c' <= lbfgs (init lbfgs_args) + 1)%nat /\
      (curvature_ok (init lbfgs_args) square_problem
         (vsub [1] [0])
         (vsub (firstn (nvar square_problem) [2])
               (firstn (nvar square_problem) [0])) = true ->
       c' = if Nat.ltb (lbfgs (init lbfgs_args)) 1 then 1%nat else 2%nat) /\
      (curvature_ok (init lbfgs_args) square_problem
         (vsub [1] [0])
         (vsub (firstn (nvar square_problem) [2])
               (firstn (nvar square_problem) [0])) = false ->
       c' = 1%nat \/ c' = 0%nat).
Proof.
  pose proof square_pair_accepted as Hok.
  destruct (lbfgs_update_accept (init lbfgs_args) square_problem
              [0] [1] [2] [0] one_pair_one_failure _ _ eq_refl eq_refl
              (Nat.lt_0_1) eq_refl eq_refl (Nat.le_refl 1) (Nat.le_refl 1)
              eq_refl eq_refl Hok) as (lb' & Hupd & _).
  exists lb'. split; [exact Hupd|].
  apply (lbfgs_update_shape (init lbfgs_args) square_problem
           [0] [1] [2] [0] one_pair_one_failure lb' 1).
  - simpl. lia.
  - reflexivity.
  - reflexivity.
  - simpl. lia.
  - simpl. lia.
  - unfold storage_shape, has_shape. simpl.
    repeat split; repeat constructor.
  - simpl. lia.
  - exact Hupd.
Defined.

(** ** The set-up of the L-BFGS direction *)

(** X17.  In L-BFGS mode with equality constraints, when the reduced
    formulas do not apply and the equality block of [BT_invA . B] has a
    reciprocal condition number of at most [eps], [lbfgs_dir] does not
    regularise the block: the regularising statement reads the unbound
    name [beta] and the call raises [NameError].  That is the only way
    the set-up raises it, and a matrix the function goes on with is the
    plain product [BT_invA . B]. *)
Theorem lbfgs_dir_setup_name_error (self : IPM) (P : Problem) (LA : LinAlg)
        (x s lda : vec) (zeta : R) :
  let BTAB := mat_mul (BT_invA self P x s lda zeta) (jaco P x) in
  (lbfgs_dir_setup self P LA x s lda zeta = RaiseNameError <->
   truthy (neq P) = true /\
   lbfgs_dir_reduce self P LA x = Some false /\
   exists r,
     rcond (eigh LA (leading_block (neq P) BTAB)) = Some (Some r) /\
     r <= eps self) /\
  (forall M1 M2,
     lbfgs_dir_setup self P LA x s lda zeta = Proceed (General M1 M2) ->
     M1 = BT_invA self P x s lda zeta /\ M2 = BTAB).
Proof.
  intros BTAB. unfold lbfgs_dir_setup. fold BTAB.
  assert (Hc : truthy (neq P) = true -> constrained P = true).
  { unfold constrained. intros ->. reflexivity. }
  destruct (constrained P);
    destruct (lbfgs_dir_reduce self P LA x) as [[|]|];
    destruct (truthy (neq P));
    destruct (rcond (eigh LA (leading_block (neq P) BTAB))) as [[r|]|];
    try destruct (Rleb r (eps self)) eqn:Ele;
    (split; [split|]).
  all: try (intros M1 M2 H; try discriminate H;
            injection H as <- <-; split; reflexivity).
  all: try (intros H; discriminate H).
  all: try (intros (EM & Hred & r' & Hr' & Hle);
            try discriminate EM; try discriminate Hred;
            try discriminate Hr';
            try (specialize (Hc eq_refl); discriminate Hc);
            try reflexivity;
            injection Hr' as <-; apply Rleb_true in Hle; congruence).
  intros _. split; [reflexivity|]. split; [reflexivity|].
  exists r. split; [reflexivity|]. now apply Rleb_true.
Qed.

(** The failing call: two equality constraints with the same gradient,
    started with the initial [zeta = 1]. *)
Lemma twin_setup_raises (x : vec) :
  lbfgs_dir_setup (init lbfgs_args) twin_problem rank_one_kernel x [] [0; 0] 1
  = RaiseNameError.
Proof.
  unfold lbfgs_dir_setup, lbfgs_dir_reduce.
  change (constrained twin_problem) with true.
  change (Nat.eqb (nvar twin_problem + nineq twin_problem)
                  (neq twin_problem + nineq twin_problem)) with false.
  change (truthy (neq twin_problem)) with true.
  cbv iota zeta.
  set (A := leading_block _ _).
  assert (E : eigh rank_one_kernel A = [0; 1 / 1 * 1 + (0 / 1 * 0 + (0 / 1 * 0 + 0))
                                           + (1 / 1 * 1 + (0 / 1 * 0 + (0 / 1 * 0 + 0)))])
    by reflexivity.
  rewrite E. unfold rcond, np_min, np_max. simpl map. unfold fold_left.
  set (t := 1 / 1 * 1 + (0 / 1 * 0 + (0 / 1 * 0 + 0))
            + (1 / 1 * 1 + (0 / 1 * 0 + (0 / 1 * 0 + 0)))).
  assert (Ht : t = 2) by (unfold t; field).
  rewrite Rabs_R0, Ht, (Rabs_right 2) by lra.
  rewrite Rmin_left, Rmax_right by lra.
  destruct (Req_dec_T 2 0) as [E2|_]; [lra|].
  rewrite (proj2 (Rleb_true _ _)); [reflexivity|].
  simpl. unfold Rdiv. rewrite Rmult_0_l. lra.
Qed.

(** ** The first quasi-Newton direction *)

Lemma matT_vec_column (y g : vec) :
  y <> [] -> length g = length y ->
  matT_vec (column y) g = [dot y g].
Proof.
  intros Hy Hlen. unfold matT_vec.
  assert (Hn : ncols (column y) = 1%nat)
    by (destruct y; [congruence|reflexivity]).
  rewrite Hn. clear Hy Hn. revert g Hlen.
  induction y as [|a y IH]; intros [|b g] Hlen; simpl in *;
    try discriminate.
  - unfold dot. simpl. reflexivity.
  - rewrite IH by lia. rewrite dot_cons. unfold vadd, vscale. simpl.
    replace (b * a + dot y g) with (a * b + dot y g) by ring.
    reflexivity.
Qed.

(** With one pair stored, [W = [S, zeta*Y]] has the rows
    [(s_i, zeta*y_i)]. *)
Lemma W_one_pair (zeta : R) (s y : vec) :
  length s = length y ->
  zipWith (@app R) (column s) (map (vscale zeta) (column y))
  = zipWith (fun a b => [a; zeta * b]) s y.
Proof.
  revert y. induction s as [|a s IH]; intros [|b y] Hlen; simpl in *;
    try discriminate; try reflexivity.
  f_equal. apply IH. lia.
Qed.

Lemma matT_vec_W (zeta : R) (s y g : vec) :
  s <> [] -> length s = length y -> length g = length s ->
  matT_vec (zipWith (fun a b => [a; zeta * b]) s y) g
  = [dot s g; zeta * dot y g].
Proof.
  intros Hs Hy Hg. unfold matT_vec.
  assert (Hn : ncols (zipWith (fun a b => [a; zeta * b]) s y) = 2%nat).
  { destruct s; [congruence|]. destruct y; [discriminate|reflexivity]. }
  rewrite Hn. clear Hs Hn. revert y g Hy Hg.
  induction s as [|a s IH]; intros [|b y] [|c g] Hy Hg; simpl in *;
    try discriminate.
  - unfold dot. simpl. rewrite Rmult_0_r. reflexivity.
  - rewrite IH by lia. rewrite !dot_cons. unfold vadd, vscale. simpl.
    replace (c * a + dot s g) with (a * c + dot s g) by ring.
    replace (c * (zeta * b) + zeta * dot y g)
      with (zeta * (b * c + dot y g)) by ring.
    reflexivity.
Qed.

(** The secant combination: [zeta*y + (1*s + zeta*y*(-1)) = s]. *)
Lemma secant_combination (zeta A B : R) (s y : vec) :
  length s = length y -> A = 1 -> B = -1 ->
  vadd (vscale zeta y)
       (mat_vec (zipWith (fun a b => [a; zeta * b]) s y) [A; B])
  = s.
Proof.
  intros Hlen -> ->. revert y Hlen.
  induction s as [|a s IH]; intros [|b y] Hlen; simpl in *;
    try discriminate; try reflexivity.
  unfold vadd, vscale, mat_vec in *. simpl. f_equal.
  - unfold dot, vmul, vsum. simpl. ring.
  - apply IH. lia.
Qed.

(** The direction for one stored pair [(s, y)] with the arrays
    [lbfgs_update] keeps for it: applied to [y] it returns [s]. *)
Lemma lbfgs_dir_one_pair (LA : LinAlg) (zeta : R) (s y : vec) :
  (forall a b, a <> 0 -> sym_solve LA [[a]] [b] = Some [b / a]) ->
  length s = length y ->
  dot s y <> 0 ->
  lbfgs_dir_unconstrained LA y zeta (column s) (column y)
                          [[dot y y]] [[dot s y]] [[dot s y]]
  = Some s.
Proof.
  intros Hsolve Hlen Hsy.
  assert (Hs : s <> []).
  { intros ->. apply Hsy. reflexivity. }
  unfold lbfgs_dir_unconstrained.
  assert (Hn : ncols (column s) = 1%nat)
    by (destruct s; [congruence|reflexivity]).
  rewrite Hn. change (truthy 1) with true. cbv iota zeta.
  rewrite (W_one_pair zeta s y Hlen).
  rewrite (matT_vec_W zeta s y y Hs Hlen (eq_sym Hlen)).
  change (firstn 1 [dot s y; zeta * dot y y]) with [dot s y].
  change (skipn 1 [dot s y; zeta * dot y y]) with [zeta * dot y y].
  rewrite (Hsolve _ _ Hsy).
  change (transpose 1 1 [[dot s y]]) with [[dot s y]].
  unfold mat_add, vneg. simpl map. simpl zipWith.
  change (mat_vec [vadd [dot s y] [zeta * dot y y]]
                  [- (dot s y / dot s y)])
    with [dot (vadd [dot s y] [zeta * dot y y]) [- (dot s y / dot s y)]].
  rewrite !(Hsolve _ _ Hsy).
  unfold vsub. simpl map. simpl zipWith. simpl app.
  f_equal. apply (secant_combination zeta _ _ s y Hlen).
  - unfold dot, vmul, vsum, vadd, vscale. simpl. field. exact Hsy.
  - field. exact Hsy.
Qed.

Lemma first_column (v : vec) (n : nat) :
  length v = n ->
  set_last_col (append_zero_col (repeat [] n)) v = column v.
Proof.
  revert n. induction v as [|a v IH]; intros [|n] Hlen; simpl in *;
    try discriminate; try reflexivity.
  unfold set_last_col, append_zero_col, column in *. simpl.
  f_equal. apply IH. lia.
Qed.

(** X18.  The first quasi-Newton direction satisfies the secant
    equation.  On an unconstrained problem, after the first accepted
    pair [(dx, dg)] has been stored in an empty storage, the compact
    formula of [lbfgs_dir] maps the gradient difference [dg] back to the
    displacement [dx], for a solver that is exact on 1 x 1 systems and
    whatever [zeta] is. *)
Theorem first_direction_secant (self : IPM) (P : Problem) (LA : LinAlg)
        (x_old x_new g_old g_new : vec) (lb0 : LBFGS) :
  constrained P = false ->
  length x_old = nvar P -> length x_new = nvar P ->
  (nvar P <= length g_old)%nat -> (nvar P <= length g_new)%nat ->
  (forall a b, a <> 0 -> sym_solve LA [[a]] [b] = Some [b / a]) ->
  lbfgs_init self P = Ok lb0 ->
  let dx := vsub x_new x_old in
  let dg := vsub (firstn (nvar P) g_old) (firstn (nvar P) g_new) in
  curvature_ok self P dx dg = true ->
  exists lb1,
    lbfgs_update self P x_old x_new g_old g_new lb0 = Ok lb1 /\
    ncols (Smat lb1) = 1%nat /\
    lbfgs_dir_unconstrained LA dg (zeta lb1) (Smat lb1) (Ymat lb1)
                            (SS lb1) (Lmat lb1) (Dmat lb1)
    = Some dx.
Proof.
  intros Hc Hxo Hxn Hgo Hgn Hsolve Hinit dx dg Hok.
  assert (Ldx : length dx = nvar P).
  { unfold dx, vsub. rewrite zipWith_length. lia. }
  assert (Ldg : length dg = nvar P).
  { unfold dg, vsub. rewrite zipWith_length, !length_firstn. lia. }
  assert (Hsy : dot dx dg <> 0).
  { apply curvature_ok_true in Hok. destruct Hok as [Hpos _].
    pose proof (sqrt_pos (eps self)). lra. }
  assert (Hdx : dx <> []).
  { intros E. apply Hsy. rewrite E. reflexivity. }
  unfold lbfgs_init in Hinit.
  destruct (lbfgs_zeta self) as [z|]; [|discriminate].
  injection Hinit as <-.
  unfold lbfgs_update. fold dx dg. rewrite Hok. simpl Smat.
  assert (Hn0 : ncols (repeat (@nil R) (nvar P)) = 0%nat)
    by (destruct (nvar P); reflexivity).
  rewrite Hn0. rewrite (proj2 (Nat.ltb_ge _ _) (Nat.le_0_l (lbfgs self))).
  cbv zeta. cbv beta iota. simpl Ymat. simpl SS. simpl Lmat. simpl Dmat.
  rewrite Hc. simpl lbfgs_fail.
  rewrite (proj2 (Nat.ltb_ge _ _) (Nat.le_0_l (lbfgs_fail_max self))).
  simpl andb. cbv iota.
  rewrite (first_column dx (nvar P) Ldx), (first_column dg (nvar P) Ldg).
  rewrite (matT_vec_column dg dg), (matT_vec_column dx dg);
    try congruence;
    try (intros E; apply Hsy; rewrite E; unfold dot, vmul;
         rewrite zipWith_nil_r; reflexivity).
  eexists. split; [reflexivity|]. simpl zeta. simpl Smat. simpl Ymat.
  simpl SS. simpl Lmat. simpl Dmat.
  split; [destruct dx; [congruence|reflexivity]|].
  change (set_last_row (set_last_col (expand_square (0 + 1) [])
                          [dot dg dg]) [dot dg dg])
    with [[dot dg dg]].
  change (set_last_col (expand_square (0 + 1) []) [dot dx dg])
    with [[dot dx dg]].
  change (set_last_entry (expand_square (0 + 1) []) (dot dx dg))
    with [[dot dx dg]].
  apply lbfgs_dir_one_pair; [exact Hsolve|congruence|exact Hsy].
Qed.

(** Witness: the pair (dx, dg) = (1, 2) of [square_problem], stored by
    the first update of the default L-BFGS solver. *)
Lemma first_direction_secant_witness :
  exists lb1,
    lbfgs_update (init lbfgs_args) square_problem [0] [1] [2] [0]
                 {| zeta := 1; Smat := [[]]; Ymat := [[]]; SS := [];
                    Lmat := []; Dmat := []; lbfgs_fail := 0 |} = Ok lb1 /\
    ncols (Smat lb1) = 1%nat /\
    lbfgs_dir_unconstrained scalar_kernel
      (vsub (firstn (nvar square_problem) [2])
            (firstn (nvar square_problem) [0]))
      (zeta lb1) (Smat lb1) (Ymat lb1) (SS lb1) (Lmat lb1) (Dmat lb1)
    = Some (vsub [1] [0]).
Proof.
  apply (first_direction_secant (init lbfgs_args) square_problem
           scalar_kernel [0] [1] [2] [0]).
  - reflexivity.
  - reflexivity.
  - reflexivity.
  - simpl. lia.
  - simpl. lia.
  - intros a b _. reflexivity.
  - reflexivity.
  - exact square_pair_accepted.
Defined.

(** ** The step length outside its working range *)

Lemma step_loop_negative_tolerance (self : IPM) (p dp : vec) (fuel : nat) :
  Xtol self < 0 ->
  forall a b c d, step_loop self fuel p dp a b c d = OutOfFuel.
Proof.
  intros HX. pose proof GOLD_bounds as HG.
  assert (Hgo : forall a b, Rltb (GOLD * Xtol self) (Rabs (b - a)) = true).
  { intros a b. apply Rltb_true. pose proof (Rabs_pos (b - a)). nra. }
  induction fuel as [|fuel IH]; intros a b c d; simpl; rewrite Hgo;
    [reflexivity|].
  destruct (any_lt self p dp d);
    [destruct (Rltb a c)|destruct (Rltb d c)];
    try destruct (any_lt self p dp c); apply IH.
Qed.

(** X19.  The constructor replaces a step tolerance [Xtol] of [None]
    or 0 by [eps] but keeps a negative one; with a negative tolerance
    the golden-section loop of [step] never stops: whenever the full
    step is not admissible, [step] does not return. *)
Theorem step_negative_Xtol_diverges (a : Args) (t : R) (p dp : vec) :
  a_Xtol a = Some t -> t < 0 ->
  all_ge (init a) p dp 1 = false ->
  Xtol (init a) = t /\
  forall fuel, step (init a) fuel p dp = OutOfFuel.
Proof.
  intros Ha Ht Hfull.
  assert (HX : Xtol (init a) = t).
  { unfold init. simpl. rewrite Ha. simpl.
    destruct (Req_dec_T t 0); [lra|reflexivity]. }
  split; [exact HX|]. intros fuel. unfold step. rewrite Hfull.
  apply step_loop_negative_tolerance. rewrite HX. exact Ht.
Qed.

(** Witness: [Xtol = -1], one slack at 1 moving to 0. *)
Lemma step_negative_Xtol_diverges_witness :
  Xtol (init negative_Xtol_args) = -1 /\
  forall fuel, step (init negative_Xtol_args) fuel [1] [-1] = OutOfFuel.
Proof.
  apply (step_negative_Xtol_diverges negative_Xtol_args (-1) [1] [-1]).
  - reflexivity.
  - lra.
  - unfold all_ge. simpl. rewrite (proj2 (Rleb_false _ _)); [reflexivity|].
    simpl. lra.
Defined.

Lemma any_lt_blocked (self : IPM) (p dp : vec) (d t : R) :
  d < 0 -> In (0, d) (combine p dp) -> 0 < t ->
  any_lt self p dp t = true.
Proof.
  intros Hd Hin Ht. unfold any_lt. apply existsb_exists.
  exists (0, d). split; [exact Hin|]. apply Rltb_true. simpl. nra.
Qed.

Lemma step_loop_blocked (self : IPM) (p dp : vec) (d : R) (n : nat) :
  d < 0 -> In (0, d) (combine p dp) -> 0 < Xtol self ->
  forall (fuel : nat) (b : R),
    (n <= fuel)%nat -> 0 < b ->
    b <= GOLD * Xtol self * GOLD ^ n ->
    step_loop self fuel p dp 0 b (b - (b - 0) / GOLD) (0 + (b - 0) / GOLD)
    = Ok 0.
Proof.
  intros Hd Hin HX. pose proof GOLD_bounds as HG.
  pose proof inv_GOLD_bounds as HiG.
  induction n as [|n IH]; intros fuel b Hfuel Hb Hle.
  - simpl in Hle. destruct fuel; simpl;
      rewrite (proj2 (Rltb_false _ _))
        by (rewrite Rabs_right; lra); reflexivity.
  - destruct fuel as [|fuel]; [lia|]. simpl.
    destruct (Rltb (GOLD * Xtol self) (Rabs (b - 0))); [|reflexivity].
    assert (Hc : 0 < b - (b - 0) / GOLD) by (unfold Rdiv; nra).
    assert (Hdd : 0 < 0 + (b - 0) / GOLD) by (unfold Rdiv; nra).
    rewrite (any_lt_blocked self p dp d _ Hd Hin Hdd).
    rewrite (proj2 (Rltb_true _ _) Hc).
    rewrite (any_lt_blocked self p dp d _ Hd Hin Hc).
    apply IH; [lia|exact Hc|].
    simpl in Hle. unfold Rdiv.
    assert (Hb' : b * / GOLD <= GOLD * Xtol self * GOLD ^ n).
    { apply (Rmult_le_reg_r GOLD); [lra|].
      rewrite Rmult_assoc, Rinv_l by lra. lra. }
    nra.
Qed.

(** X20.  An entry that sits on the boundary, [p_i = 0], with a
    direction pointing outward, [dp_i < 0], blocks the step: for a
    positive tolerance [step] returns exactly 0, whatever the other
    entries are. *)
Theorem step_blocked_at_boundary (self : IPM) (p dp : vec) (d : R) :
  0 < Xtol self -> d < 0 -> In (0, d) (combine p dp) ->
  exists n, forall fuel, (n <= fuel)%nat -> step self fuel p dp = Ok 0.
Proof.
  intros HX Hd Hin. pose proof GOLD_bounds as HG.
  destruct (GOLD_pow_unbounded (GOLD * Xtol self)) as [n Hn]; [nra|].
  exists n. intros fuel Hfuel. unfold step.
  assert (Hfull : all_ge self p dp 1 = false).
  { unfold all_ge. apply not_true_is_false. intros H.
    rewrite forallb_forall in H. specialize (H _ Hin).
    apply Rleb_true in H. simpl in H. lra. }
  rewrite Hfull.
  apply (step_loop_blocked self p dp d n Hd Hin HX fuel 1 Hfuel); lra.
Qed.

(** Witness: a multiplier at 0 asked to decrease, next to one at 1. *)
Lemma step_blocked_at_boundary_witness :
  exists n, forall fuel, (n <= fuel)%nat ->
    step (init default_args) fuel [1; 0] [1; -1] = Ok 0.
Proof.
  apply (step_blocked_at_boundary (init default_args) [1; 0] [1; -1] (-1)).
  - simpl. lra.
  - lra.
  - simpl. right. left. reflexivity.
Defined.

(** ** The Newton system and the linearised constraints *)

Lemma map_seq_offset {A : Type} (h : nat -> A) (a : nat) (b : nat) :
  forall c, map h (seq (a + c) b) = map (fun t => h (a + t)%nat) (seq c b).
Proof.
  induction b as [|b IH]; intros c; simpl; [reflexivity|].
  f_equal. rewrite <- IH. f_equal. f_equal. lia.
Qed.

Lemma map_seq_app {A : Type} (h : nat -> A) (a b : nat) :
  map h (seq 0 (a + b))
  = map h (seq 0 a) ++ map (fun t => h (a + t)%nat) (seq 0 b).
Proof.
  rewrite seq_app, map_app. f_equal. simpl.
  rewrite <- (map_seq_offset h a b 0). f_equal. f_equal. lia.
Qed.

Lemma dot_zero_row {A : Type} (l : list A) (v : vec) :
  dot (map (fun _ => 0) l) v = 0.
Proof.
  revert v. induction l as [|a l IH]; intros [|b v]; simpl;
    try reflexivity.
  rewrite dot_cons, IH. ring.
Qed.

Lemma dot_indicator (k n : nat) (a : R) (v : vec) :
  (k < n)%nat ->
  dot (map (fun t => if Nat.eqb k t then a else 0) (seq 0 n)) v
  = a * nth k v 0.
Proof.
  assert (G : forall b n v, (b <= k < b + n)%nat ->
            dot (map (fun t => if Nat.eqb k t then a else 0) (seq b n)) v
            = a * nth (k - b) v 0).
  { clear n v. intros b n. revert b.
    induction n as [|n IH]; intros b v Hk; [lia|]. simpl.
    destruct v as [|c v].
    - rewrite dot_nil_r. destruct (k - b)%nat; simpl; ring.
    - rewrite dot_cons. destruct (Nat.eqb_spec k b) as [->|Hne].
      + rewrite Nat.sub_diag. simpl.
        replace (dot _ v) with 0; [ring|]. symmetry.
        erewrite map_ext_in; [apply dot_zero_row|].
        intros t Ht. apply in_seq in Ht.
        destruct (Nat.eqb_spec b t); [lia|reflexivity].
      + rewrite IH by lia.
        replace (k - b)%nat with (S (k - S b)) by lia. simpl. ring. }
  intros Hk. rewrite G by lia. now rewrite Nat.sub_0_r.
Qed.

Lemma col_seq (A : matrix) (j n : nat) :
  length A = n ->
  map (fun t => entry A t j) (seq 0 n) = col j A.
Proof.
  intros <-. unfold col, entry.
  apply (nth_ext _ _ 0 0).
  - now rewrite !length_map, length_seq.
  - intros i Hi. rewrite length_map, length_seq in Hi.
    rewrite nth_map_seq. apply Nat.ltb_lt in Hi. rewrite Hi.
    rewrite <- (map_nth (fun row : vec => nth j row 0)).
    f_equal. destruct j; reflexivity.
Qed.

Ltac norm_minmax :=
  repeat match goal with
         | |- context [Nat.min ?a ?b] =>
             first [ replace (Nat.min a b) with a by lia
                   | replace (Nat.min a b) with b by lia ]
         | |- context [Nat.max ?a ?b] =>
             first [ replace (Nat.max a b) with a by lia
                   | replace (Nat.max a b) with b by lia ]
         end.

Lemma hess_row (self : IPM) (P : Problem) (x s lda : vec) (r : nat) :
  (r < nvar P + 2 * nineq P + neq P)%nat ->
  nth r (hess self P x s lda) []
  = map (fun c => hess_upper self P x s lda (Nat.min r c) (Nat.max r c))
        (seq 0 (nvar P + 2 * nineq P + neq P)).
Proof.
  intros Hr. unfold hess, mk_matrix. rewrite nth_map_seq.
  apply Nat.ltb_lt in Hr. now rewrite Hr.
Qed.

(** Row D+N+j of the KKT matrix holds column j of [dce] and zeros. *)
Lemma hess_eq_row (self : IPM) (P : Problem) (x s lda dz : vec) (j : nat) :
  (j < neq P)%nat ->
  dot (nth (nvar P + nineq P + j) (hess self P x s lda) []) dz
  = dot (map (fun t => entry (dce P x) t j) (seq 0 (nvar P)))
        (firstn (nvar P) dz).
Proof.
  intros Hj. rewrite hess_row by lia.
  set (D := nvar P). set (N := nineq P). set (M := neq P).
  replace (D + 2 * N + M)%nat with (D + (N + M + N))%nat by lia.
  rewrite map_seq_app, dot_app, length_map, length_seq.
  match goal with
  | |- dot (map ?h1 _) _ + dot (map ?h2 _) _ = _ =>
      assert (E1 : forall t, In t (seq 0 D) ->
                             h1 t = entry (dce P x) t j);
      [|assert (E2 : forall t, In t (seq 0 (N + M + N)) -> h2 t = 0);
        [|rewrite (map_ext_in h1 _ _ E1), (map_ext_in h2 _ _ E2)]]
  end.
  - intros t Ht. apply in_seq in Ht. cbv beta. norm_minmax.
    unfold hess_upper. fold D N M. split_ltb; try lia. f_equal. lia.
  - intros t Ht. apply in_seq in Ht. cbv beta.
    destruct (Nat.le_ge_cases (D + N + j) (D + t)) as [Hle|Hge];
      norm_minmax; unfold hess_upper; fold D N M;
      split_ltb; try lia; reflexivity.
  - rewrite dot_zero_row. ring.
Qed.

(** Row D+N+M+k holds column k of [dci], then -1 in the slack column
    D+k, and zeros. *)
Lemma hess_ineq_row (self : IPM) (P : Problem) (x s lda dz : vec) (k : nat) :
  (k < nineq P)%nat ->
  dot (nth (nvar P + nineq P + neq P + k) (hess self P x s lda) []) dz
  = dot (map (fun t => entry (dci P x) t k) (seq 0 (nvar P)))
        (firstn (nvar P) dz)
    - nth (nvar P + k) dz 0.
Proof.
  intros Hk. rewrite hess_row by lia.
  set (D := nvar P). set (N := nineq P). set (M := neq P).
  replace (D + 2 * N + M)%nat with (D + (N + (M + N)))%nat by lia.
  rewrite map_seq_app, dot_app, length_map, length_seq.
  rewrite map_seq_app, dot_app, length_map, length_seq.
  match goal with
  | |- dot (map ?h1 _) _ + (dot (map ?h2 _) _ + dot (map ?h3 _) _) = _ =>
      assert (E1 : forall t, In t (seq 0 D) ->
                             h1 t = entry (dci P x) t k);
      [|assert (E2 : forall t, In t (seq 0 N) ->
                               h2 t = if Nat.eqb k t then -1 else 0);
        [|assert (E3 : forall t, In t (seq 0 (M + N)) -> h3 t = 0);
          [|rewrite (map_ext_in h1 _ _ E1), (map_ext_in h2 _ _ E2),
                    (map_ext_in h3 _ _ E3)]]]
  end.
  - intros t Ht. apply in_seq in Ht. cbv beta. norm_minmax.
    unfold hess_upper. fold D N M. split_ltb; try lia. f_equal. lia.
  - intros t Ht. apply in_seq in Ht. cbv beta. norm_minmax.
    unfold hess_upper. fold D N M. split_ltb; try lia; reflexivity.
  - intros t Ht. apply in_seq in Ht. cbv beta.
    destruct (Nat.le_ge_cases (D + N + M + k) (D + (N + t))) as [Hle|Hge];
      norm_minmax; unfold hess_upper; fold D N M;
      split_ltb; try lia; reflexivity.
  - rewrite dot_zero_row, dot_indicator by lia.
    rewrite nth_firstn. apply Nat.ltb_lt in Hk. fold N in Hk. rewrite Hk.
    rewrite nth_skipn. ring.
Qed.

(** Row D+k holds [lda[M+k]/(s[k]+eps)] in the slack column D+k, -1 in
    the multiplier column D+N+M+k, and zeros. *)
Lemma hess_slack_row (self : IPM) (P : Problem) (x s lda dz : vec) (k : nat) :
  (k < nineq P)%nat ->
  dot (nth (nvar P + k) (hess self P x s lda) []) dz
  = nth (neq P + k) lda 0 / (nth k s 0 + eps self) * nth (nvar P + k) dz 0
    - nth (nvar P + nineq P + neq P + k) dz 0.
Proof.
  intros Hk. rewrite hess_row by lia.
  set (D := nvar P). set (N := nineq P). set (M := neq P).
  replace (D + 2 * N + M)%nat with (D + (N + (M + N)))%nat by lia.
  rewrite map_seq_app, dot_app, length_map, length_seq.
  rewrite map_seq_app, dot_app, length_map, length_seq.
  rewrite map_seq_app, dot_app, length_map, length_seq.
  match goal with
  | |- dot (map ?h1 _) _
       + (dot (map ?h2 _) _ + (dot (map ?h3 _) _ + dot (map ?h4 _) _)) = _ =>
      assert (E1 : forall t, In t (seq 0 D) -> h1 t = 0);
      [|assert (E2 : forall t, In t (seq 0 N) ->
                  h2 t = if Nat.eqb k t
                         then nth (M + k) lda 0 / (nth k s 0 + eps self)
                         else 0);
        [|assert (E3 : forall t, In t (seq 0 M) -> h3 t = 0);
          [|assert (E4 : forall t, In t (seq 0 N) ->
                      h4 t = if Nat.eqb k t then -1 else 0);
            [|rewrite (map_ext_in h1 _ _ E1), (map_ext_in h2 _ _ E2),
                      (map_ext_in h3 _ _ E3), (map_ext_in h4 _ _ E4)]]]]
  end.
  - intros t Ht. apply in_seq in Ht. cbv beta. norm_minmax.
    unfold hess_upper. fold D N M. split_ltb; try lia; reflexivity.
  - intros t Ht. apply in_seq in Ht. cbv beta.
    destruct (Nat.le_ge_cases k t) as [Hle|Hge];
      norm_minmax; unfold hess_upper; fold D N M;
      split_ltb; try lia; try reflexivity.
    + subst t. replace (D + k - D)%nat with k by lia. reflexivity.
    + subst t. replace (D + k - D)%nat with k by lia. reflexivity.
  - intros t Ht. apply in_seq in Ht. cbv beta. norm_minmax.
    unfold hess_upper. fold D N M. split_ltb; try lia; reflexivity.
  - intros t Ht. apply in_seq in Ht. cbv beta. norm_minmax.
    unfold hess_upper. fold D N M. split_ltb; try lia; reflexivity.
  - rewrite !dot_zero_row, !dot_indicator by lia.
    rewrite nth_firstn. apply Nat.ltb_lt in Hk. fold N in Hk. rewrite Hk.
    rewrite !nth_skipn.
    replace (D + (N + (M + k)))%nat with (D + N + M + k)%nat by lia.
    ring.
Qed.

Lemma dot_add_at (r : nat) (c : R) :
  forall (row v : vec),
    (r < length row)%nat ->
    dot (add_at r c row) v = dot row v + c * nth r v 0.
Proof.
  unfold add_at. induction r as [|r IH]; intros [|a row] v H;
    simpl in *; try lia.
  - destruct v as [|b v].
    + rewrite !dot_nil_r. simpl. ring.
    + rewrite !dot_cons. simpl. ring.
  - destruct v as [|b v].
    + rewrite !dot_nil_r. simpl. ring.
    + rewrite !dot_cons, IH by lia. simpl. ring.
Qed.

Lemma length_add_diag_from (lo hi : nat) (c : R) (A : matrix) :
  forall i, length (add_diag_from i lo hi c A) = length A.
Proof.
  induction A as [|row A IH]; intros i; simpl; [reflexivity|].
  now rewrite IH.
Qed.

Lemma nth_add_diag_from (lo hi : nat) (c : R) (A : matrix) :
  forall i r,
    (r < length A)%nat ->
    nth r (add_diag_from i lo hi c A) []
    = if Nat.leb lo (i + r) && Nat.ltb (i + r) hi
      then add_at (i + r) c (nth r A [])
      else nth r A [].
Proof.
  induction A as [|row A IH]; intros i r Hr; simpl in Hr; [lia|].
  destruct r as [|r]; simpl.
  - rewrite Nat.add_0_r. destruct (_ && _); reflexivity.
  - rewrite IH by lia. replace (S i + r)%nat with (i + S r)%nat by lia.
    reflexivity.
Qed.

(** The rows of a matrix below [lo] are not touched by a diagonal
    shift of the block [lo:hi]; the rows inside get the shift at their
    diagonal entry. *)
Lemma add_diag_row_dot (lo hi : nat) (c : R) (A : matrix) (r : nat)
      (v : vec) :
  (r < length A)%nat -> (r < length (nth r A []))%nat ->
  dot (nth r (add_diag lo hi c A) []) v
  = dot (nth r A []) v
    + (if Nat.leb lo r && Nat.ltb r hi then c * nth r v 0 else 0).
Proof.
  intros Hr Hrow. unfold add_diag. rewrite nth_add_diag_from by exact Hr.
  simpl. destruct (_ && _).
  - apply dot_add_at. exact Hrow.
  - ring.
Qed.

Lemma add_diag_row_length (lo hi : nat) (c : R) (A : matrix) (r : nat) :
  (r < length A)%nat ->
  length (nth r (add_diag lo hi c A) []) = length (nth r A []).
Proof.
  intros Hr. unfold add_diag. rewrite nth_add_diag_from by exact Hr.
  simpl. destruct (_ && _); [|reflexivity].
  unfold add_at.
  destruct (Nat.lt_ge_cases r (length (nth r A []))) as [Hlt|Hge].
  - rewrite <- (firstn_skipn r (nth r A [])) at 3.
    rewrite !length_app. f_equal.
    destruct (skipn r (nth r A [])) eqn:E; reflexivity.
  - rewrite skipn_all2, firstn_all2 by lia. now rewrite app_nil_r.
Qed.

(** What [reghess] does to the constraint rows: nothing to the
    inequality rows, and to the equality rows at most the diagonal
    shift [-c] with [c = reg_coef * eta * mu^beta]. *)
Lemma reghess_constraint_rows (self : IPM) (P : Problem) (LA : LinAlg)
      (fuel : nat) (mu_host delta : R) (Hc H' : matrix) (delta' : R) :
  reghess self P LA fuel mu_host delta Hc = Ok (H', delta') ->
  exists c,
    (c = 0 \/
     (truthy (neq P) = true /\
      c = reg_coef self * eta self * power mu_host (beta self))) /\
    forall r v,
      (nvar P <= r)%nat -> (r < length Hc)%nat ->
      (r < length (nth r Hc []))%nat ->
      dot (nth r H' []) v
      = dot (nth r Hc []) v
        - (if Nat.leb (nvar P + nineq P) r
              && Nat.ltb r (nvar P + nineq P + neq P)
           then c * nth r v 0 else 0).
Proof.
  intros Hrun. unfold reghess in Hrun. cbv zeta in Hrun.
  apply bind_Ok in Hrun. destruct Hrun as [lo [_ Hrun]].
  apply bind_Ok in Hrun. destruct Hrun as [hi [_ Hrun]].
  destruct (Rleb (lo / hi) (eps self)
            || negb (Nat.eqb (neq P + nineq P)
                       (count_below self (eigh LA Hc)))).
  - apply reghess_loop_shift in Hrun.
    destruct Hrun as (k & _ & _ & ->).
    destruct (Rleb (lo / hi) (eps self) && truthy (neq P)) eqn:E.
    + apply andb_true_iff in E. destruct E as [_ EM].
      exists (reg_coef self * eta self * power mu_host (beta self)).
      split; [right; split; [exact EM|reflexivity]|].
      intros r v HD Hr Hrow.
      rewrite add_diag_row_dot.
      * rewrite add_diag_row_dot by assumption.
        replace (Nat.leb 0 r && Nat.ltb r (nvar P)) with false
          by (symmetry; apply andb_false_iff; right;
              apply Nat.ltb_ge; exact HD).
        destruct (Nat.leb _ _ && Nat.ltb _ _); cbv iota; unfold matrix, vec in *; ring.
      * unfold add_diag. rewrite length_add_diag_from. exact Hr.
      * rewrite add_diag_row_length by exact Hr. exact Hrow.
    + exists 0. split; [left; reflexivity|].
      intros r v HD Hr Hrow.
      rewrite add_diag_row_dot by assumption.
      replace (Nat.leb 0 r && Nat.ltb r (nvar P)) with false
        by (symmetry; apply andb_false_iff; right;
            apply Nat.ltb_ge; exact HD).
      destruct (Nat.leb _ _ && Nat.ltb _ _); cbv iota; unfold matrix, vec in *; ring.
  - injection Hrun as <- <-. exists 0. split; [left; reflexivity|].
    intros r v _ _ _. destruct (Nat.leb _ _ && Nat.ltb _ _); unfold matrix, vec in *; ring.
Qed.

Lemma nth_mat_vec (A : matrix) (v : vec) (r : nat) :
  nth r (mat_vec A v) 0 = dot (nth r A []) v.
Proof.
  unfold mat_vec. change 0 with (dot [] v) at 1.
  apply (map_nth (fun row => dot row v)).
Qed.

Lemma nth_vneg (v : vec) (r : nat) : nth r (vneg v) 0 = - nth r v 0.
Proof.
  unfold vneg. rewrite <- (map_nth Ropp). f_equal. ring.
Qed.

Lemma nth_vsub (u v : vec) (k : nat) :
  (k < length u)%nat -> (k < length v)%nat ->
  nth k (vsub u v) 0 = nth k u 0 - nth k v 0.
Proof.
  unfold vsub. revert u v. induction k as [|k IH]; intros [|a u] [|b v];
    simpl; intros Hu Hv; try lia; try reflexivity.
  apply IH; lia.
Qed.

(** X21.  The Newton direction satisfies the linearised constraints and
    the linearised complementarity condition.  If [dz] solves the
    regularised KKT system [Hc dz = -grad] that [solve] sets up in
    exact-Hessian mode, then for every inequality constraint
    [dci_k . dx - ds_k = -(ci_k(x) - s_k)] and
    [lda_k/(s_k+eps) * ds_k - dz[D+N+M+k] = -(lda_k - mu/(s_k+eps))],
    and for every equality constraint
    [dce_j . dx - c * dz[D+N+j] = -ce_j(x)], where [c] is 0 unless
    [reghess] shifted the equality block, in which case it is
    [reg_coef * eta * mu^beta]. *)
Theorem newton_direction_linearises (self : IPM) (P : Problem) (LA : LinAlg)
        (fuel : nat) (mu_host delta : R) (x s lda : vec)
        (Hc : matrix) (delta' : R) (dz : vec) :
  well_shaped P x ->
  length s = nineq P ->
  length lda = (neq P + nineq P)%nat ->
  reghess self P LA fuel mu_host delta (hess self P x s lda)
  = Ok (Hc, delta') ->
  mat_vec Hc dz = vneg (grad self P mu_host x s lda) ->
  let D := nvar P in
  let N := nineq P in
  exists c,
    (c = 0 \/
     (truthy (neq P) = true /\
      c = reg_coef self * eta self * power mu_host (beta self))) /\
    (forall j, (j < neq P)%nat ->
       dot (col j (dce P x)) (firstn D dz) - c * nth (D + N + j) dz 0
       = - nth j (ce P x) 0) /\
    (forall k, (k < nineq P)%nat ->
       dot (col k (dci P x)) (firstn D dz) - nth (D + k) dz 0
       = - (nth k (ci P x) 0 - nth k s 0)) /\
    (forall k, (k < nineq P)%nat ->
       nth (neq P + k) lda 0 / (nth k s 0 + eps self) * nth (D + k) dz 0
       - nth (D + N + neq P + k) dz 0
       = - (nth (neq P + k) lda 0 - mu_host / (nth k s 0 + eps self))).
Proof.
  intros Hw Hs Hl Hreg Hsol D N. subst D N.
  destruct (reghess_constraint_rows _ _ _ _ _ _ _ _ _ Hreg)
    as (c & Hc0 & Hrows).
  exists c. split; [exact Hc0|].
  assert (Hlen : length (hess self P x s lda)
                 = (nvar P + 2 * nineq P + neq P)%nat).
  { unfold hess, mk_matrix. now rewrite length_map, length_seq. }
  assert (Hrowlen : forall r, (r < nvar P + 2 * nineq P + neq P)%nat ->
            length (nth r (hess self P x s lda) [])
            = (nvar P + 2 * nineq P + neq P)%nat).
  { intros r Hr. rewrite hess_row by exact Hr.
    now rewrite length_map, length_seq. }
  assert (Hrow : forall r, dot (nth r Hc []) dz
                           = - nth r (grad self P mu_host x s lda) 0).
  { intros r. rewrite <- nth_mat_vec, Hsol. apply nth_vneg. }
  pose proof (primal_block_length P x s lda Hw Hs Hl) as L1.
  pose proof (slack_block_length self P mu_host s lda Hs Hl) as L2.
  destruct Hw as (Hdf & Hdce & Hdci & Hce & Hci).
  assert (Hw : well_shaped P x) by (repeat split; assumption).
  rewrite (grad_stacked self P mu_host x s lda Hw Hs Hl) in Hrow.
  split; [|split].
  - intros j Hj.
    specialize (Hrow (nvar P + nineq P + j)%nat).
    rewrite Hrows in Hrow; try rewrite Hlen; try rewrite Hrowlen; try lia.
    rewrite hess_eq_row in Hrow by exact Hj.
    rewrite (col_seq (dce P x) j (nvar P) Hdce) in Hrow.
    replace (Nat.leb (nvar P + nineq P) (nvar P + nineq P + j)
             && Nat.ltb (nvar P + nineq P + j)
                        (nvar P + nineq P + neq P)) with true in Hrow.
    2:{ symmetry. apply andb_true_iff. split;
          [apply Nat.leb_le|apply Nat.ltb_lt]; lia. }
    rewrite Hrow.
    rewrite app_nth2 by lia. rewrite app_nth2 by lia.
    rewrite app_nth1 by lia. f_equal. f_equal. lia.
  - intros k Hk.
    specialize (Hrow (nvar P + nineq P + neq P + k)%nat).
    rewrite Hrows in Hrow; try rewrite Hlen; try rewrite Hrowlen; try lia.
    rewrite hess_ineq_row in Hrow by exact Hk.
    rewrite (col_seq (dci P x) k (nvar P) Hdci) in Hrow.
    replace (Nat.leb (nvar P + nineq P) (nvar P + nineq P + neq P + k)
             && Nat.ltb (nvar P + nineq P + neq P + k)
                        (nvar P + nineq P + neq P)) with false in Hrow.
    2:{ symmetry. apply andb_false_iff. right. apply Nat.ltb_ge. lia. }
    replace (dot (col k (dci P x)) (firstn (nvar P) dz)
             - nth (nvar P + k) dz 0)
      with (dot (col k (dci P x)) (firstn (nvar P) dz)
            - nth (nvar P + k) dz 0 - 0) by ring.
    rewrite Hrow.
    rewrite app_nth2 by lia. rewrite app_nth2 by lia.
    rewrite app_nth2 by lia.
    unfold ineq_block. rewrite nth_vsub by lia.
    replace (nvar P + nineq P + neq P + k - length (primal_block P x lda)
             - length (slack_block self P mu_host s lda)
             - length (ce P x))%nat with k by lia.
    reflexivity.
  - intros k Hk.
    specialize (Hrow (nvar P + k)%nat).
    rewrite Hrows in Hrow; try rewrite Hlen; try rewrite Hrowlen; try lia.
    rewrite hess_slack_row in Hrow by exact Hk.
    replace (Nat.leb (nvar P + nineq P) (nvar P + k)
             && Nat.ltb (nvar P + k) (nvar P + nineq P + neq P))
      with false in Hrow.
    2:{ symmetry. apply andb_false_iff. left. apply Nat.leb_gt. lia. }
    match goal with
    | |- ?lhs = _ => replace lhs with (lhs - 0) by ring
    end.
    rewrite Hrow.
    rewrite app_nth2 by lia. rewrite app_nth1 by lia.
    unfold slack_block. rewrite nth_vsub.
    + rewrite nth_skipn. unfold div_shift.
      rewrite (nth_indep (map (fun si => mu_host / (si + eps self)) s)
                         0 (mu_host / (0 + eps self)))
        by (rewrite length_map; lia).
      rewrite (map_nth (fun si => mu_host / (si + eps self))).
      replace (nvar P + k - length (primal_block P x lda))%nat with k
        by lia.
      reflexivity.
    + rewrite length_skipn. lia.
    + unfold div_shift. rewrite length_map. lia.
Qed.

(** Witness: the Newton system of [pinned_problem] at x = 1 with
    multiplier 0, solved by dz = (-1, -1). *)
Lemma newton_direction_linearises_witness :
  exists c,
    (c = 0 \/
     (truthy (neq pinned_problem) = true /\
      c = reg_coef (init default_args) * eta (init default_args)
          * power (1 / 10000) (beta (init default_args)))) /\
    (forall j, (j < neq pinned_problem)%nat ->
       dot (col j (dce pinned_problem [1]))
           (firstn (nvar pinned_problem) [-1; -1])
       - c * nth (nvar pinned_problem + nineq pinned_problem + j)
                 [-1; -1] 0
       = - nth j (ce pinned_problem [1]) 0) /\
    (forall k, (k < nineq pinned_problem)%nat ->
       dot (col k (dci pinned_problem [1]))
           (firstn (nvar pinned_problem) [-1; -1])
       - nth (nvar pinned_problem + k) [-1; -1] 0
       = - (nth k (ci pinned_problem [1]) 0 - nth k [] 0)) /\
    (forall k, (k < nineq pinned_problem)%nat ->
       nth (neq pinned_problem + k) [0] 0
       / (nth k [] 0 + eps (init default_args))
       * nth (nvar pinned_problem + k) [-1; -1] 0
       - nth (nvar pinned_problem + nineq pinned_problem
              + neq pinned_problem + k) [-1; -1] 0
       = - (nth (neq pinned_problem + k) [0] 0
            - 1 / 10000 / (nth k [] 0 + eps (init default_args)))).
Proof.
  apply (newton_direction_linearises (init default_args) pinned_problem
           swap_kernel 0 (1 / 10000) 0 [1] [] [0]
           [[0; 1]; [1; 0]] 0 [-1; -1]).
  - repeat split; reflexivity.
  - reflexivity.
  - reflexivity.
  - rewrite pinned_hess. apply swap_reghess.
  - rewrite pinned_grad. unfold mat_vec, vneg, dot, vmul, vsum. simpl.
    f_equal; [lra|]. f_equal. lra.
Defined.

(** ** Sufficient decrease of the merit function *)


